(** * obmc-console: the socket handler (socket-handler.c)

    A shallow embedding of the client-connection multiplexer of the
    console server: the in-band escape parser run on client input, the
    per-client drain of the shared ring buffer into the client's socket,
    the client life cycle and the programmatic attach.

    Conventions.  A [uint8_t] is a [Z]; a [size_t] is a [Z] in
    [0, 2^64) with its wrap-around written out; a pointer into a scratch
    buffer is an offset ([nat]) into the list that holds the buffer; a
    pointer to a [struct client] is an address in a heap ([gmap]).  A
    function that can abort (a failed [assert], a dereference of NULL or
    freed memory) returns an [option], [None] being the abort. *)

From Stdlib Require Import ZArith Lia.
From stdpp Require Import base option list gmap strings.

Local Open Scope Z_scope.

(** ** Bytes of the escape grammar *)

Definition CR : Z := 13.
Definition LF : Z := 10.
Definition tilde : Z := 126.
Definition char_B : Z := 66.

(** ** The console: parser state and the tty side *)

(** [enum escape_state] of console-server.h, as used by the switch of
    [process_buffer_range]. *)
Inductive escape_state :=
  | escape_idle
  | escape_cr
  | escape_lf
  | escape_leader.

#[global] Instance escape_state_eq_dec : EqDecision escape_state.
Proof. solve_decision. Defined.

(** What reaches the tty, in order: a byte written by [console_data_out]
    or a break condition raised by [tcsendbreak]. *)
Inductive tty_event :=
  | TtyByte (b : Z)
  | TtyBreak.

#[global] Instance tty_event_eq_dec : EqDecision tty_event.
Proof. solve_decision. Defined.

Record console := mkConsole {
  state : escape_state;
  tty : list tty_event;
}.

#[global] Instance console_eq_dec : EqDecision console.
Proof. solve_decision. Defined.

Definition set_state (st : escape_state) (con : console) : console :=
  {| state := st; tty := tty con |}.

(** Modelled from the spec: [console_data_out] (console-server.c, declared
    in console-server.h) is the console's output sink; the bytes handed to
    it are appended to the sink in call order. *)
Definition console_data_out (con : console) (data : list Z) : console :=
  {| state := state con; tty := tty con ++ (TtyByte <$> data) |}.

(** [tcsendbreak(console->tty.fd, 0)]: one break condition on the line. *)
Definition tcsendbreak (con : console) : console :=
  {| state := state con; tty := tty con ++ [TtyBreak] |}.

(** The bytes of the sink, and the number of breaks, of a tty log. *)
Fixpoint sink_bytes (log : list tty_event) : list Z :=
  match log with
  | [] => []
  | TtyByte b :: log' => b :: sink_bytes log'
  | TtyBreak :: log' => sink_bytes log'
  end.

Fixpoint break_count (log : list tty_event) : nat :=
  match log with
  | [] => O
  | TtyByte _ :: log' => break_count log'
  | TtyBreak :: log' => S (break_count log')
  end.

(** ** The escape parser *)

(** [memchr(buf + begin, c, n)]: the offset (in [buf]) of the first
    occurrence of [c] among the [n] bytes from [begin], if any. *)
Fixpoint memchr_from (s : list Z) (c : Z) (n : nat) (base : nat) : option nat :=
  match n, s with
  | S n', x :: s' => if x =? c then Some base else memchr_from s' c n' (S base)
  | _, _ => None
  end.

Definition memchr (buf : list Z) (begin : nat) (c : Z) (n : nat) : option nat :=
  memchr_from (drop begin buf) c n begin.

(** The [len] bytes of [buf] from offset [begin]. *)
Definition range (buf : list Z) (begin len : nat) : list Z :=
  take len (drop begin buf).

(** [process_buffer_range(sh, begin, end)].  [None] is the failed
    [assert(begin < end)] (or a read outside the buffer); otherwise the
    updated console and the returned cursor.  The [return NULL] after the
    switch is not reached for the four values of the enumeration. *)
Definition process_buffer_range (con : console) (buf : list Z)
    (begin end_ : nat) : option (console * nat) :=
  if negb (begin <? end_)%nat then None else
  match state con with
  | escape_idle =>
      let '(st, cursor) :=
        match memchr buf begin CR (end_ - begin) with
        | Some c => (escape_cr, (c + 1)%nat)
        | None =>
            match memchr buf begin LF (end_ - begin) with
            | Some c => (escape_lf, (c + 1)%nat)
            | None => (state con, end_)
            end
        end in
      Some (console_data_out (set_state st con)
              (range buf begin (cursor - begin)), cursor)
  | escape_cr =>
      b ← buf !! begin;
      if b =? LF then
        let cursor := S begin in
        Some (console_data_out (set_state escape_lf con)
                (range buf begin (cursor - begin)), cursor)
      else if b =? tilde then
        Some (set_state escape_leader con, S begin)
      else
        Some (set_state escape_idle con, begin)
  | escape_lf =>
      b ← buf !! begin;
      if b =? tilde then
        Some (set_state escape_leader con, S begin)
      else
        Some (set_state escape_idle con, begin)
  | escape_leader =>
      let con := set_state escape_idle con in
      b ← buf !! begin;
      if b =? char_B then
        Some (tcsendbreak con, S begin)
      else if b =? tilde then
        Some (con, begin)
      else
        Some (console_data_out con [tilde], begin)
  end.

(** The feed loop of [client_poll]:
    [while (begin && begin < end) begin = process_buffer_range(...)].
    [fuel] bounds the number of iterations; [None] is an abort of the
    parser or exhausted fuel. *)
Fixpoint client_poll_loop (fuel : nat) (con : console) (buf : list Z)
    (begin end_ : nat) : option (console * nat) :=
  if (begin <? end_)%nat then
    match fuel with
    | O => None
    | S fuel' =>
        '(con', begin') ← process_buffer_range con buf begin end_;
        client_poll_loop fuel' con' buf begin' end_
    end
  else Some (con, begin).

(** One successful read of [client_poll]: the [rc] bytes received are at
    the start of the scratch buffer, [end = buf + rc].  Two iterations
    per byte are enough (see [client_poll_loop_enough]). *)
Definition client_poll_feed (con : console) (data : list Z) : option console :=
  fst <$> client_poll_loop (2 * length data) con data 0 (length data).

(** A sequence of reads, in receipt order. *)
Fixpoint feed_reads (con : console) (reads : list (list Z)) : option console :=
  match reads with
  | [] => Some con
  | data :: reads' => con' ← client_poll_feed con data; feed_reads con' reads'
  end.

(** ** Vocabulary for the statements about the parser *)

Definition is_newline (b : Z) : bool := (b =? CR) || (b =? LF).

(** [has_escape s]: [s] contains an escape sequence of the grammar: a
    newline byte, then the leader, then one of the two discriminators the
    parser acts on, [B] or [~]. *)
Fixpoint has_escape (s : list Z) : bool :=
  match s with
  | [] => false
  | b :: rest =>
      (is_newline b &&
       match rest with
       | t :: d :: _ => (t =? tilde) && ((d =? char_B) || (d =? tilde))
       | _ => false
       end) || has_escape rest
  end.

(** [ends_with_leader s]: the last two bytes of [s] are a newline and the
    leader, an escape sequence still waiting for its discriminator. *)
Definition ends_with_leader (s : list Z) : bool :=
  match reverse s with
  | t :: nl :: _ => (t =? tilde) && is_newline nl
  | _ => false
  end.

(** All ways of cutting [s] into non-empty consecutive reads. *)
Fixpoint splits (s : list Z) : list (list (list Z)) :=
  match s with
  | [] => [[]]
  | x :: s' =>
      cs ← splits s';
      match cs with
      | [] => [[[x]]]
      | c :: cs' => [[x] :: c :: cs'; (x :: c) :: cs']
      end
  end.

(** The console [con] with the log [l0] in front of its own. *)
Definition prepend_log (l0 : list tty_event) (con : console) : console :=
  {| state := state con; tty := l0 ++ tty con |}.

(** [parsed con0 con p]: starting at [con0], the parser has consumed
    exactly the bytes [p] and is in a state that agrees with them; every
    consumed byte is in the sink, except a leader that is held back. *)
Definition parsed (con0 con : console) (p : list Z) : Prop :=
  match state con with
  | escape_idle => tty con = tty con0 ++ (TtyByte <$> p)
  | escape_cr => tty con = tty con0 ++ (TtyByte <$> p) ∧ last p = Some CR
  | escape_lf => tty con = tty con0 ++ (TtyByte <$> p) ∧ last p = Some LF
  | escape_leader =>
      ∃ q nl, p = q ++ [nl; tilde] ∧ is_newline nl = true ∧
              tty con = tty con0 ++ (TtyByte <$> (q ++ [nl]))
  end.

(** [idle_settled con p rest]: when the parser is idle after the bytes
    [p], with [rest] still to come, no leader is in the balance: a
    newline at the end of [p] is not followed by the leader, and when [p]
    ends in a newline and the leader, the byte that released the leader
    is still to come. *)
Definition idle_settled (con : console) (p rest : list Z) : Prop :=
  state con = escape_idle →
  (∀ x, is_newline x = true → last p = Some x → head rest ≠ Some tilde) ∧
  (∀ q x, is_newline x = true → p = q ++ [x; tilde] → rest ≠ []).

(** ** The parser, byte by byte *)

(** The feed loop with the fuel that is always enough. *)
Definition run (con : console) (buf : list Z) (begin end_ : nat) :
    option (console * nat) :=
  client_poll_loop (2 * (end_ - begin)) con buf begin end_.

(** A result of the parser on [y], seen in the buffer [x :: y]. *)
Definition shift (r : console * nat) : console * nat := (r.1, S r.2).

(** The state the idle scan leaves after a read of the single byte [b]. *)
Definition byte_state (b : Z) : escape_state :=
  if b =? CR then escape_cr else if b =? LF then escape_lf else escape_idle.

(** The idle scan of a read of the single byte [b]: the byte is
    forwarded. *)
Definition idle_byte (con : console) (b : Z) : console :=
  console_data_out (set_state (byte_state b) con) [b].

(** What [client_poll_feed] does with a read of the single byte [b] (see
    [client_poll_feed_single]): the iterations of the loop on that byte,
    written out state by state. *)
Definition byte_step (con : console) (b : Z) : console :=
  match state con with
  | escape_idle => idle_byte con b
  | escape_cr =>
      if b =? LF then console_data_out (set_state escape_lf con) [b]
      else if b =? tilde then set_state escape_leader con
      else idle_byte (set_state escape_idle con) b
  | escape_lf =>
      if b =? tilde then set_state escape_leader con
      else idle_byte (set_state escape_idle con) b
  | escape_leader =>
      if b =? char_B then tcsendbreak (set_state escape_idle con)
      else if b =? tilde then idle_byte (set_state escape_idle con) b
      else idle_byte (console_data_out (set_state escape_idle con) [tilde]) b
  end.

(** [lf_before_cr after_cr s]: [s] has a line feed that does not directly
    follow a carriage return and that has a carriage return somewhere
    after it; [after_cr] tells whether the byte before [s] is a carriage
    return.  These are the line feeds an idle scan can pass over. *)
Fixpoint lf_before_cr (after_cr : bool) (s : list Z) : bool :=
  match s with
  | [] => false
  | b :: s' =>
      ((b =? LF) && negb after_cr && existsb (Z.eqb CR) s')
      || lf_before_cr (b =? CR) s'
  end.

(** The reads that deliver [s] one byte at a time. *)
Definition bytewise (s : list Z) : list (list Z) := (λ b, [b]) <$> s.

(** ** Machine integers and platform constants *)

(** [size_t] and [ssize_t] on an LP64 platform. *)
Definition SIZE_MAX : Z := 2 ^ 64 - 1.
Definition SSIZE_MAX : Z := 2 ^ 63 - 1.

(** The value of an integer expression stored in a [size_t]. *)
Definition to_size (z : Z) : Z := z mod 2 ^ 64.

(** The cast [(ssize_t)pos] of a [size_t]. *)
Definition to_ssize (z : Z) : Z := if z <? 2 ^ 63 then z else z - 2 ^ 64.

(** [errno] values of <errno.h> (Linux). *)
Definition EINTR : Z := 4.
Definition EBADF : Z := 9.
Definition EAGAIN : Z := 11.
Definition EWOULDBLOCK : Z := 11.
Definition ENOMEM : Z := 12.
Definition EINVAL : Z := 22.
Definition ENOSYS : Z := 38.

(** Event and flag bits of <poll.h> and <sys/socket.h>. *)
Definition POLLIN : Z := 1.
Definition POLLOUT : Z := 4.
Definition MSG_DONTWAIT : Z := 64.
Definition MSG_NOSIGNAL : Z := 16384.

Definition SOCKET_HANDLER_PKT_SIZE : Z := 512.
Definition SOCKET_HANDLER_PKT_US_TIMEOUT : Z := 4000.

(** [struct timeval socket_handler_timeout]: seconds and microseconds. *)
Definition socket_handler_timeout : Z * Z := (0, SOCKET_HANDLER_PKT_US_TIMEOUT).

(** ** The environment of the handler *)

(** What the kernel answers to one [send]: it takes up to [n] of the
    bytes offered, or fails with an [errno]. *)
Inductive send_outcome :=
  | SendAccept (n : nat)
  | SendErrno (e : Z).

(** What the kernel answers to one [recv]. *)
Inductive recv_outcome :=
  | RecvData (data : list Z)
  | RecvErrno (e : Z).

(** A connected stream socket seen from the handler: the answers the
    kernel will give to the next [send] calls (after them it takes
    whatever is offered), the bytes delivered to the peer so far, the
    flags of every [send] made, and the pending answers to [recv] (after
    them a non-blocking [recv] would block). *)
Record socket := mkSocket {
  sk_script : list send_outcome;
  sk_wire : list Z;
  sk_flags : list Z;
  sk_inbox : list recv_outcome;
}.

(** A poller registered with the console (console-server.c): the
    descriptor watched, the events asked for, the timeout armed, and the
    [data] pointer passed back to the callbacks. *)
Record poller := mkPoller {
  p_fd : Z;
  p_events : Z;
  p_timeout : option (Z * Z);
  p_data : option nat;
}.

(** Modelled from the spec: a consumer cursor of the shared ring buffer
    (ringbuffer.c is not part of this file).  [rb_pending] are the bytes
    queued and not yet committed, oldest first; [rb_wrap], when it is
    inside the queue, is the number of bytes up to the point where the
    storage wraps around, which is where a contiguous run has to stop. *)
Record consumer := mkConsumer {
  rb_pending : list Z;
  rb_wrap : nat;
}.

(** [struct client]; [sh] is the one socket handler of the model. *)
Record client := mkClient {
  c_poller : option nat;
  c_rbc : option nat;
  c_fd : Z;
  c_blocked : bool;
}.

(** Releases of resources, in the order they are made. *)
Inductive sys_event :=
  | EvClose (fd : Z)
  | EvPollerUnregister (id : nat)
  | EvConsumerUnregister (id : nat)
  | EvFree (p : nat).

(** The socket handler and everything it touches: the console with its
    parser state and its handlers' names, the console's pollers, the ring
    buffer's consumers, the open descriptors, the allocated clients and
    [sh->clients] (whose length is [sh->n_clients]). *)
Record world := mkWorld {
  con : console;
  handlers : list string;
  pollers : gmap nat poller;
  consumers : gmap nat consumer;
  socks : gmap Z socket;
  heap : gmap nat client;
  clients : list nat;
  trace : list sys_event;
}.

Definition set_con (c : console) (w : world) : world :=
  mkWorld c (handlers w) (pollers w) (consumers w) (socks w) (heap w)
    (clients w) (trace w).
Definition set_pollers (m : gmap nat poller) (w : world) : world :=
  mkWorld (con w) (handlers w) m (consumers w) (socks w) (heap w)
    (clients w) (trace w).
Definition set_consumers (m : gmap nat consumer) (w : world) : world :=
  mkWorld (con w) (handlers w) (pollers w) m (socks w) (heap w)
    (clients w) (trace w).
Definition set_socks (m : gmap Z socket) (w : world) : world :=
  mkWorld (con w) (handlers w) (pollers w) (consumers w) m (heap w)
    (clients w) (trace w).
Definition set_heap (m : gmap nat client) (w : world) : world :=
  mkWorld (con w) (handlers w) (pollers w) (consumers w) (socks w) m
    (clients w) (trace w).
Definition set_clients (l : list nat) (w : world) : world :=
  mkWorld (con w) (handlers w) (pollers w) (consumers w) (socks w) (heap w)
    l (trace w).
Definition log_event (e : sys_event) (w : world) : world :=
  mkWorld (con w) (handlers w) (pollers w) (consumers w) (socks w) (heap w)
    (clients w) (trace w ++ [e]).

(** *** System calls *)

(** [close(fd)]. *)
Definition close (fd : Z) (w : world) : world :=
  log_event (EvClose fd) (set_socks (delete fd (socks w)) w).

(** [free(client)]. *)
Definition free (p : nat) (w : world) : world :=
  log_event (EvFree p) (set_heap (delete p (heap w)) w).

(** [malloc(sizeof( *client))]: an address that is not allocated. *)
Definition malloc (w : world) : nat := fresh (dom (heap w)).

(** [send(fd, data, len, flags)] with [data] the [len] bytes offered:
    the result [rc], the [errno] it leaves, and the world after. *)
Definition send (fd : Z) (data : list Z) (flags : Z) (w : world)
    : Z * Z * world :=
  match socks w !! fd with
  | None => (-1, EBADF, w)
  | Some sk =>
      match sk_script sk with
      | [] =>
          let sk' := mkSocket [] (sk_wire sk ++ data)
                       (sk_flags sk ++ [flags]) (sk_inbox sk) in
          (Z.of_nat (length data), 0, set_socks (<[fd := sk']> (socks w)) w)
      | SendAccept n :: script =>
          let sent := take n data in
          let sk' := mkSocket script (sk_wire sk ++ sent)
                       (sk_flags sk ++ [flags]) (sk_inbox sk) in
          (Z.of_nat (length sent), 0, set_socks (<[fd := sk']> (socks w)) w)
      | SendErrno e :: script =>
          let sk' := mkSocket script (sk_wire sk)
                       (sk_flags sk ++ [flags]) (sk_inbox sk) in
          (-1, e, set_socks (<[fd := sk']> (socks w)) w)
      end
  end.

(** [recv(fd, buf, size, MSG_DONTWAIT)]: the result [rc], the [errno],
    the bytes stored in [buf], and the world after.  A stream socket
    hands over at most [size] bytes and keeps the rest. *)
Definition recv (fd : Z) (size : nat) (w : world)
    : Z * Z * list Z * world :=
  match socks w !! fd with
  | None => (-1, EBADF, [], w)
  | Some sk =>
      match sk_inbox sk with
      | [] => (-1, EAGAIN, [], w)
      | RecvErrno e :: inbox =>
          let sk' := mkSocket (sk_script sk) (sk_wire sk) (sk_flags sk) inbox in
          (-1, e, [], set_socks (<[fd := sk']> (socks w)) w)
      | RecvData data :: inbox =>
          let inbox' := if (size <? length data)%nat
                        then RecvData (drop size data) :: inbox else inbox in
          let sk' := mkSocket (sk_script sk) (sk_wire sk) (sk_flags sk) inbox' in
          (Z.of_nat (length (take size data)), 0, take size data,
           set_socks (<[fd := sk']> (socks w)) w)
      end
  end.

(** *** The console's pollers (console-server.c) *)

(** Modelled from the spec: [console_poller_register] adds an event
    registration for [fd] and returns its handle. *)
Definition console_poller_register (fd events : Z) (data : nat) (w : world)
    : nat * world :=
  let id := fresh (dom (pollers w)) in
  (id, set_pollers (<[id := mkPoller fd events None (Some data)]> (pollers w)) w).

(** Modelled from the spec: [console_poller_unregister] removes the
    registration. *)
Definition console_poller_unregister (id : nat) (w : world) : world :=
  log_event (EvPollerUnregister id) (set_pollers (delete id (pollers w)) w).

(** Modelled from the spec: [console_poller_set_events] changes the events
    watched by a registration; [None] when the handle is not registered. *)
Definition console_poller_set_events (id : nat) (events : Z) (w : world)
    : option world :=
  po ← pollers w !! id;
  Some (set_pollers
          (<[id := mkPoller (p_fd po) events (p_timeout po) (p_data po)]>
             (pollers w)) w).

(** Modelled from the spec: [console_poller_set_timeout] arms the
    inactivity timer of a registration. *)
Definition console_poller_set_timeout (id : nat) (tv : Z * Z) (w : world)
    : option world :=
  po ← pollers w !! id;
  Some (set_pollers
          (<[id := mkPoller (p_fd po) (p_events po) (Some tv) (p_data po)]>
             (pollers w)) w).

(** *** The ring buffer's consumers (ringbuffer.c) *)

(** Modelled from the spec: [console_ringbuffer_consumer_register] gives a
    cursor at the buffer's current tail, or NULL; whether it succeeds is
    the environment's choice [ok]. *)
Definition console_ringbuffer_consumer_register (ok : bool) (w : world)
    : option nat * world :=
  if ok then
    let id := fresh (dom (consumers w)) in
    (Some id, set_consumers (<[id := mkConsumer [] 0]> (consumers w)) w)
  else (None, w).

(** Modelled from the spec: [ringbuffer_consumer_unregister]. *)
Definition ringbuffer_consumer_unregister (id : nat) (w : world) : world :=
  log_event (EvConsumerUnregister id)
    (set_consumers (delete id (consumers w)) w).

(** Modelled from the spec: [ringbuffer_len], the amount available. *)
Definition ringbuffer_len (rb : consumer) : Z := Z.of_nat (length (rb_pending rb)).

(** Modelled from the spec: [ringbuffer_dequeue_peek], the contiguous run
    that starts [offset] bytes into the queue; empty when nothing
    remains there. *)
Definition ringbuffer_dequeue_peek (rb : consumer) (offset : Z) : list Z :=
  if ringbuffer_len rb <=? offset then []
  else
    let rest := drop (Z.to_nat offset) (rb_pending rb) in
    if offset <? Z.of_nat (rb_wrap rb)
    then take (rb_wrap rb - Z.to_nat offset) rest
    else rest.

(** Modelled from the spec: [ringbuffer_dequeue_commit] advances the
    cursor by [len] bytes. *)
Definition ringbuffer_dequeue_commit (rb : consumer) (len : Z) : consumer :=
  mkConsumer (drop (Z.to_nat len) (rb_pending rb)) (rb_wrap rb - Z.to_nat len).

(** ** The socket handler *)

Inductive ringbuffer_poll_ret :=
  | RINGBUFFER_POLL_OK
  | RINGBUFFER_POLL_REMOVE.

Inductive poller_ret :=
  | POLLER_OK
  | POLLER_REMOVE.

(** The index at which the search loop of [client_close] stops: the
    first [idx] with [sh->clients[idx] == client], or [n_clients]. *)
Fixpoint client_index (cs : list nat) (p : nat) (idx : nat) : nat :=
  match cs with
  | [] => idx
  | q :: cs' => if decide (q = p) then idx else client_index cs' p (S idx)
  end.

(** [client_close(client)].  [None]: the client is not allocated, or the
    assertion [idx < sh->n_clients] fails. *)
Definition client_close (p : nat) (w : world) : option world :=
  c ← heap w !! p;
  let w := close (c_fd c) w in
  let w := match c_poller c with
           | Some id => console_poller_unregister id w
           | None => w
           end in
  let w := match c_rbc c with
           | Some r => ringbuffer_consumer_unregister r w
           | None => w
           end in
  let idx := client_index (clients w) p 0 in
  if negb (idx <? length (clients w))%nat then None
  else
    let w := free p w in
    Some (set_clients (delete idx (clients w)) w).

(** [client_set_blocked(client, blocked)]. *)
Definition client_set_blocked (p : nat) (blocked : bool) (w : world)
    : option world :=
  c ← heap w !! p;
  if bool_decide (c_blocked c = blocked) then Some w
  else
    let w := set_heap
               (<[p := mkClient (c_poller c) (c_rbc c) (c_fd c) blocked]>
                  (heap w)) w in
    let events := if blocked then Z.lor POLLIN POLLOUT else POLLIN in
    id ← c_poller c;
    console_poller_set_events id events w.

(** The [for] loop of [send_all], entered at its test [pos < len]; the
    result is the value [send_all] returns.  [continue] runs the
    increment [pos += rc] like a completed iteration does. *)
Fixpoint send_all_loop (fuel : nat) (p : nat) (fd : Z) (buf : list Z)
    (len : Z) (block : bool) (flags : Z) (pos : Z) (w : world)
    : option (Z * world) :=
  if pos <? len then
    match fuel with
    | O => None
    | S fuel' =>
        let '(rc, errno, w) :=
          send fd (range buf (Z.to_nat pos) (Z.to_nat (len - pos))) flags w in
        if rc <? 0 then
          if negb block && ((errno =? EAGAIN) || (errno =? EWOULDBLOCK)) then
            w ← client_set_blocked p true w;
            Some (to_ssize pos, w)
          else if errno =? EINTR then
            send_all_loop fuel' p fd buf len block flags (to_size (pos + rc)) w
          else Some (-1, w)
        else if rc =? 0 then Some (-1, w)
        else
          send_all_loop fuel' p fd buf len block flags (to_size (pos + rc)) w
    end
  else Some (to_ssize pos, w).

(** The kernel's scripted answers bound the iterations of the loop. *)
Definition send_fuel (fd : Z) (w : world) : nat :=
  S (from_option (λ sk, length (sk_script sk)) O (socks w !! fd)).

(** [send_all(client, buf, len, block)]. *)
Definition send_all (p : nat) (buf : list Z) (len : Z) (block : bool)
    (w : world) : option (Z * world) :=
  if SSIZE_MAX <? len then Some (- EINVAL, w)
  else
    c ← heap w !! p;
    let fd := c_fd c in
    let flags := if block then MSG_NOSIGNAL
                 else Z.lor MSG_NOSIGNAL MSG_DONTWAIT in
    send_all_loop (send_fuel fd w) p fd buf len block flags 0 w.

(** The [for (;;)] loop of [client_drain_queue]; the result is
    [total_len], [wlen] and the world when the loop is left. *)
Fixpoint drain_loop (fuel : nat) (p : nat) (force_len : Z) (block : bool)
    (total_len wlen : Z) (w : world) : option (Z * Z * world) :=
  match fuel with
  | O => None
  | S fuel' =>
      c ← heap w !! p;
      r ← c_rbc c;
      rb ← consumers w !! r;
      let buf := ringbuffer_dequeue_peek rb total_len in
      let len := Z.of_nat (length buf) in
      if len =? 0 then Some (total_len, wlen, w)
      else
        '(wlen, w) ← send_all p buf len block w;
        if wlen <=? 0 then Some (total_len, wlen, w)
        else
          let total_len := to_size (total_len + wlen) in
          if negb (force_len =? 0) && (force_len <=? total_len)
          then Some (total_len, wlen, w)
          else drain_loop fuel' p force_len block total_len wlen w
  end.

(** Every pass but the last sends at least one byte of the queue. *)
Definition drain_fuel (p : nat) (w : world) : nat :=
  S (from_option (λ rb, length (rb_pending rb)) O
       (c ← heap w !! p; r ← c_rbc c; consumers w !! r)).

(** [client_drain_queue(client, force_len)]. *)
Definition client_drain_queue (p : nat) (force_len : Z) (w : world)
    : option (Z * world) :=
  c ← heap w !! p;
  let block := negb (force_len =? 0) in
  if negb block && c_blocked c then Some (0, w)
  else
    '(total_len, wlen, w) ←
      drain_loop (drain_fuel p w) p force_len block 0 0 w;
    if wlen <? 0 then Some (-1, w)
    else if negb (force_len =? 0) && (total_len <? force_len) then Some (-1, w)
    else
      c ← heap w !! p;
      r ← c_rbc c;
      rb ← consumers w !! r;
      Some (0, set_consumers
                 (<[r := ringbuffer_dequeue_commit rb total_len]> (consumers w))
                 w).

(** [client_ringbuffer_poll(arg, force_len)]. *)
Definition client_ringbuffer_poll (p : nat) (force_len : Z) (w : world)
    : option (ringbuffer_poll_ret * world) :=
  c ← heap w !! p;
  r ← c_rbc c;
  rb ← consumers w !! r;
  let len := ringbuffer_len rb in
  if (force_len =? 0) && (len <? SOCKET_HANDLER_PKT_SIZE) then
    id ← c_poller c;
    w ← console_poller_set_timeout id socket_handler_timeout w;
    Some (RINGBUFFER_POLL_OK, w)
  else
    '(rc, w) ← client_drain_queue p force_len w;
    if negb (rc =? 0) then
      c ← heap w !! p;
      let w := set_heap
                 (<[p := mkClient (c_poller c) None (c_fd c) (c_blocked c)]>
                    (heap w)) w in
      w ← client_close p w;
      Some (RINGBUFFER_POLL_REMOVE, w)
    else Some (RINGBUFFER_POLL_OK, w).

(** [client_timeout(handler, data)]. *)
Definition client_timeout (p : nat) (w : world) : option (poller_ret * world) :=
  c ← heap w !! p;
  if c_blocked c then Some (POLLER_OK, w)
  else
    '(rc, w) ← client_drain_queue p 0 w;
    if negb (rc =? 0) then
      w ← client_close p w;
      Some (POLLER_REMOVE, w)
    else Some (POLLER_OK, w).

(** The [err_close] exit of [client_poll]. *)
Definition client_poll_err_close (p : nat) (w : world)
    : option (poller_ret * world) :=
  c ← heap w !! p;
  let w := set_heap
             (<[p := mkClient None (c_rbc c) (c_fd c) (c_blocked c)]> (heap w))
             w in
  w ← client_close p w;
  Some (POLLER_REMOVE, w).

(** The [POLLOUT] part of [client_poll] and its normal exit. *)
Definition client_poll_out (p : nat) (events : Z) (w : world)
    : option (poller_ret * world) :=
  if negb (Z.land events POLLOUT =? 0) then
    w ← client_set_blocked p false w;
    '(rc, w) ← client_drain_queue p 0 w;
    if negb (rc =? 0) then client_poll_err_close p w
    else Some (POLLER_OK, w)
  else Some (POLLER_OK, w).

(** [client_poll(handler, events, data)]. *)
Definition client_poll (p : nat) (events : Z) (w : world)
    : option (poller_ret * world) :=
  if negb (Z.land events POLLIN =? 0) then
    c ← heap w !! p;
    let '(rc, errno, buf, w) := recv (c_fd c) 4096 w in
    if rc <? 0 then
      if (errno =? EAGAIN) || (errno =? EWOULDBLOCK) then Some (POLLER_OK, w)
      else client_poll_err_close p w
    else if rc =? 0 then client_poll_err_close p w
    else
      '(con', _) ← client_poll_loop (2 * Z.to_nat rc) (con w) buf 0 (Z.to_nat rc);
      client_poll_out p events (set_con con' w)
  else client_poll_out p events w.

(** What [socket_poll] and [dbus_create_socket_consumer] do once they
    hold the descriptor [fd] and the zeroed client at [p]: fill in the
    client and register it with the console and the ring buffer. *)
Definition client_register (p : nat) (fd : Z) (rbc_ok : bool) (w : world)
    : option nat * world :=
  let w := set_heap (<[p := mkClient None None fd false]> (heap w)) w in
  let '(id, w) := console_poller_register fd POLLIN p w in
  let w := set_heap (<[p := mkClient (Some id) None fd false]> (heap w)) w in
  let '(r, w) := console_ringbuffer_consumer_register rbc_ok w in
  (r, set_heap (<[p := mkClient (Some id) r fd false]> (heap w)) w).

(** [n = sh->n_clients++; reallocarray; sh->clients[n] = client]. *)
Definition clients_append (p : nat) (w : world) : world :=
  set_clients (clients w ++ [p]) w.

(** [socket_poll(handler, events, data)].  The environment chooses what
    [accept] returns ([fd], negative on failure, and the new socket
    [sk]), whether [malloc] succeeds and whether the consumer can be
    registered.  [None]: [memset] on the NULL of a failed [malloc]. *)
Definition socket_poll (events : Z) (fd : Z) (sk : socket)
    (malloc_ok rbc_ok : bool) (w : world) : option (poller_ret * world) :=
  if Z.land events POLLIN =? 0 then Some (POLLER_OK, w)
  else if fd <? 0 then Some (POLLER_OK, w)
  else
    let w := set_socks (<[fd := sk]> (socks w)) w in
    if negb malloc_ok then None
    else
      let p := malloc w in
      let '(_, w) := client_register p fd rbc_ok w in
      Some (POLLER_OK, clients_append p w).

(** The search of [dbus_create_socket_consumer] for the handler named
    ["socket"]. *)
Fixpoint find_socket_handler (names : list string) : bool :=
  match names with
  | [] => false
  | name :: names' =>
      if String.eqb name "socket" then true else find_socket_handler names'
  end.

(** What [socketpair] returns: it fails, or it gives two connected
    descriptors.  On failure the code calls [warn] and only then reads
    [errno]: [e] is the [errno] that [socketpair] set, which [warn]
    prints, and [e_warn] is the [errno] found when [warn] has returned.
    The two are equal when [warn] leaves [errno] alone; when its own
    write to the standard error fails, [e_warn] is the [errno] of that
    write. *)
Inductive socketpair_outcome :=
  | SocketpairErrno (e e_warn : Z)
  | SocketpairFds (fd0 fd1 : Z) (sk0 sk1 : socket).

(** [dbus_create_socket_consumer(console)]. *)
Definition dbus_create_socket_consumer (sp : socketpair_outcome)
    (malloc_ok rbc_ok : bool) (w : world) : Z * world :=
  if negb (find_socket_handler (handlers w)) then (- ENOSYS, w)
  else
    match sp with
    | SocketpairErrno e e_warn =>
        (* warn("Failed to create socket pair"); return -errno; *)
        (- e_warn, w)
    | SocketpairFds fd0 fd1 sk0 sk1 =>
        let w := set_socks (<[fd1 := sk1]> (<[fd0 := sk0]> (socks w))) w in
        if negb malloc_ok then
          (* close_fds *)
          (- ENOMEM, close fd1 (close fd0 w))
        else
          let p := malloc w in
          let '(r, w) := client_register p fd0 rbc_ok w in
          match r with
          | None =>
              (* free_client, close_fds *)
              (- ENOMEM, close fd1 (close fd0 (free p w)))
          | Some _ => (fd1, clients_append p w)
          end
    end.

(** [socket_fini]'s loop [while (sh->n_clients) client_close(sh->clients[0])]. *)
Fixpoint socket_fini_loop (fuel : nat) (w : world) : option world :=
  match clients w with
  | [] => Some w
  | p :: _ =>
      match fuel with
      | O => None
      | S fuel' => w ← client_close p w; socket_fini_loop fuel' w
      end
  end.

(** ** Vocabulary for the statements about a connection *)

(** The world [w] in which the client at [p] is [c], its poller [id] is
    [po] and its socket [fd] is [sk]. *)
Definition conn (p : nat) (c : client) (id : nat) (po : poller) (fd : Z)
    (sk : socket) (w : world) : world :=
  set_pollers (<[id := po]> (pollers w))
    (set_heap (<[p := c]> (heap w))
       (set_socks (<[fd := sk]> (socks w)) w)).

Definition client_with_blocked (b : bool) (c : client) : client :=
  mkClient (c_poller c) (c_rbc c) (c_fd c) b.

Definition poller_with_events (events : Z) (po : poller) : poller :=
  mkPoller (p_fd po) events (p_timeout po) (p_data po).

Definition poller_with_timeout (tv : Z * Z) (po : poller) : poller :=
  mkPoller (p_fd po) (p_events po) (Some tv) (p_data po).

(** The events watched for a client: readable, and writable while it is
    blocked. *)
Definition events_for (blocked : bool) : Z :=
  if blocked then Z.lor POLLIN POLLOUT else POLLIN.

(** The flags [send_all] passes to [send]. *)
Definition send_flags (block : bool) : Z :=
  if block then MSG_NOSIGNAL else Z.lor MSG_NOSIGNAL MSG_DONTWAIT.

(** No answer of the script is an interrupted call. *)
Definition no_eintr (script : list send_outcome) : Prop :=
  Forall (λ o, o ≠ SendErrno EINTR) script.

#[global] Instance send_outcome_eq_dec : EqDecision send_outcome.
Proof. solve_decision. Defined.

#[global] Instance no_eintr_dec script : Decision (no_eintr script).
Proof. unfold no_eintr. apply _. Defined.

#[global] Arguments conn : simpl never.

(** What one call of [send_all] on [len] bytes of [buf], entered at
    [pos], may do to the socket [sk]: [ret] is the value returned, [b]
    tells whether the client was marked blocked, [sk'] is the socket
    after. *)
Definition sent (buf : list Z) (len : Z) (block : bool) (pos : Z)
    (sk sk' : socket) (ret : Z) (b : bool) : Prop :=
  (ret = -1 ∨ 0 ≤ ret ≤ len) ∧
  (b = true → block = false ∧ 0 ≤ ret < len) ∧
  (∃ k, sk_flags sk' = sk_flags sk ++ replicate k (send_flags block)) ∧
  sk_inbox sk' = sk_inbox sk ∧
  sk_script sk' `suffix_of` sk_script sk ∧
  (no_eintr (sk_script sk) → pos ≠ SIZE_MAX →
     (0 ≤ ret →
        pos ≤ ret ∧
        sk_wire sk' =
          sk_wire sk ++ range buf (Z.to_nat pos) (Z.to_nat (ret - pos))) ∧
     (0 ≤ ret < len → b = true) ∧
     (sk_script sk = [] → ret = len ∧ b = false)).

(** The client and its poller after a call that marked it blocked or
    not. *)
Definition client_after (b : bool) (c : client) : client :=
  client_with_blocked (c_blocked c || b) c.

Definition poller_after (b : bool) (c : client) (po : poller) : poller :=
  if b && negb (c_blocked c) then poller_with_events (events_for true) po
  else po.

(** What one call of [send_all] does, whatever the length asked for. *)
Definition sent_all (buf : list Z) (len : Z) (block : bool)
    (sk sk' : socket) (ret : Z) (b : bool) : Prop :=
  (ret < 0 ∨ 0 ≤ ret ≤ len) ∧
  (SSIZE_MAX < len → ret = - EINVAL ∧ b = false ∧ sk' = sk) ∧
  (b = true → block = false ∧ 0 ≤ ret < len) ∧
  (∃ k, sk_flags sk' = sk_flags sk ++ replicate k (send_flags block)) ∧
  sk_inbox sk' = sk_inbox sk ∧
  sk_script sk' `suffix_of` sk_script sk ∧
  (no_eintr (sk_script sk) →
     (0 ≤ ret → sk_wire sk' = sk_wire sk ++ take (Z.to_nat ret) buf) ∧
     (0 ≤ ret < len → b = true) ∧
     (sk_script sk = [] → len ≤ SSIZE_MAX → ret = len ∧ b = false)).

(** What the loop of [client_drain_queue], entered with [total] bytes
    already sent, does to the socket [sk] for a queue [pending]: it is
    left with [total'] bytes sent and [wlen'] the last result of
    [send_all]; [b] tells whether the client was marked blocked. *)
Definition drained (pending : list Z) (force_len : Z) (total : Z)
    (sk sk' : socket) (total' wlen' : Z) (b : bool) : Prop :=
  total ≤ total' ≤ Z.of_nat (length pending) ∧
  (wlen' ≤ 0 ∨ (force_len ≠ 0 ∧ force_len ≤ total') ∨
   total' = Z.of_nat (length pending)) ∧
  (b = true → force_len = 0) ∧
  (∃ k, sk_flags sk' =
        sk_flags sk ++ replicate k (send_flags (negb (force_len =? 0)))) ∧
  sk_inbox sk' = sk_inbox sk ∧
  sk_script sk' `suffix_of` sk_script sk ∧
  (no_eintr (sk_script sk) →
     (0 ≤ wlen' →
        sk_wire sk' =
          sk_wire sk ++ range pending (Z.to_nat total) (Z.to_nat (total' - total))) ∧
     (force_len = 0 → 0 ≤ wlen' →
        total' = Z.of_nat (length pending) ∨ b = true) ∧
     (sk_script sk = [] → Z.of_nat (length pending) ≤ SSIZE_MAX →
        0 ≤ wlen' ∧ b = false ∧
        (total' = Z.of_nat (length pending) ∨
         (force_len ≠ 0 ∧ force_len ≤ total')))).

(** The result of [client_drain_queue] in terms of what its loop did. *)
Definition drain_result (force_len total wlen : Z) : Z :=
  if (wlen <? 0) || (negb (force_len =? 0) && (total <? force_len))
  then -1 else 0.

(** The releases made by [client_close] for the client [c] at [p]. *)
Definition close_events (p : nat) (c : client) : list sys_event :=
  [EvClose (c_fd c)] ++
  match c_poller c with Some id => [EvPollerUnregister id] | None => [] end ++
  match c_rbc c with Some r => [EvConsumerUnregister r] | None => [] end ++
  [EvFree p].

(** The connection set holds every allocated client, each once. *)
Definition set_inv (w : world) : Prop :=
  NoDup (clients w) ∧ ∀ p, p ∈ clients w ↔ is_Some (heap w !! p).

(** ** A small world to run the handler on *)

(** One client at address 0, with poller 0, consumer 0 and descriptor 5;
    [script] are the kernel's next answers to [send], [pending] and
    [wrap] describe the consumer's queue. *)
Definition sample_world (script : list send_outcome) (pending : list Z)
    (wrap : nat) (blocked : bool) : world :=
  mkWorld (mkConsole escape_idle []) ["socket"%string]
    {[ 0%nat := mkPoller 5 (events_for blocked) None (Some 0%nat) ]}
    {[ 0%nat := mkConsumer pending wrap ]}
    {[ 5 := mkSocket script [] [] [] ]}
    {[ 0%nat := mkClient (Some 0%nat) (Some 0%nat) 5 blocked ]}
    [0%nat] [].

(** ** The listening socket: [socket_init] and [socket_fini] *)

(** The fields [poller] and [sd] of [struct socket_handler]; its
    [console], [clients] and [n_clients] are in the world. *)
Record listener := mkListener {
  sh_poller : option nat;
  sh_sd : Z;
}.

(** What the environment answers to the calls [socket_init] makes: the
    length given by [console_socket_path] (negative on failure), the
    results of [sd_listen_fds(0)] and of [sd_is_socket_unix], the
    descriptor returned by [socket] (negative on failure), and the
    results of [bind] and of [listen]. *)
Record init_env := mkInitEnv {
  path_len : Z;
  listen_fds : Z;
  is_socket_unix : Z;
  socket_fd : Z;
  bind_rc : Z;
  listen_rc : Z;
}.

(** [SD_LISTEN_FDS_START] of <systemd/sd-daemon.h>. *)
Definition SD_LISTEN_FDS_START : Z := 3.

(** Modelled from the spec: [console_poller_register] called with a NULL
    [data], as [socket_init] does for the listening socket. *)
Definition console_poller_register_null (fd events : Z) (w : world)
    : nat * world :=
  let id := fresh (dom (pollers w)) in
  (id, set_pollers (<[id := mkPoller fd events None None]> (pollers w)) w).

(** [socket_init(handler, console, config)]: the value returned, the
    handler's fields and the world after.  A descriptor created by
    [socket] is entered among the open descriptors.  [sd_is_socket_unix]
    is only asked when [sd_listen_fds] has answered 1. *)
Definition socket_init (env : init_env) (l : listener) (w : world)
    : Z * listener * world :=
  let w := set_clients [] w in
  if path_len env <? 0 then (-1, l, w)
  else if (listen_fds env =? 1) && (0 <? is_socket_unix env) then
    let '(id, w) := console_poller_register_null SD_LISTEN_FDS_START POLLIN w in
    (0, mkListener (Some id) SD_LISTEN_FDS_START, w)
  else
    let sd := socket_fd env in
    let l := mkListener (sh_poller l) sd in
    if sd <? 0 then (-1, l, w)
    else
      let w := set_socks (<[sd := mkSocket [] [] [] []]> (socks w)) w in
      if negb (bind_rc env =? 0) then
        (* cleanup *)
        (-1, l, close sd w)
      else if negb (listen_rc env =? 0) then
        (* cleanup *)
        (-1, l, close sd w)
      else
        let '(id, w) := console_poller_register_null sd POLLIN w in
        (0, mkListener (Some id) sd, w).

(** [socket_fini(handler)].  [None]: a client of the set cannot be
    closed. *)
Definition socket_fini (l : listener) (w : world) : option world :=
  w ← socket_fini_loop (length (clients w)) w;
  let w := match sh_poller l with
           | Some id => console_poller_unregister id w
           | None => w
           end in
  Some (close (sh_sd l) w).

(** ** Vocabulary for the statements about the callbacks *)

(** The poller of the client at [p] watches for writability exactly
    while the client is blocked. *)
Definition watches (p : nat) (w : world) : Prop :=
  ∃ c id po, heap w !! p = Some c ∧ c_poller c = Some id ∧
             pollers w !! id = Some po ∧
             p_events po = events_for (c_blocked c).

(** The number of occurrences of the byte [b] in [s]. *)
Definition count_byte (b : Z) (s : list Z) : nat :=
  length (filter (λ x, x = b) s).

(** The leader the parser holds back in the state [escape_leader]. *)
Definition pending (con : console) : list Z :=
  if decide (state con = escape_leader) then [tilde] else [].

(** [emitted con0 con input]: from [con0] to [con] the tty log has only
    grown; the bytes added, with the leader held back at the end, are
    among the leader held back at the start and the bytes of [input], in
    their order; and no more breaks were raised than [input] has [B]s. *)
Definition emitted (con0 con : console) (input : list Z) : Prop :=
  ∃ ev, tty con = tty con0 ++ ev ∧
        sink_bytes ev ++ pending con `sublist_of` pending con0 ++ input ∧
        (break_count ev ≤ count_byte char_B input)%nat.

(** The socket [sk] with [inbox] as its pending answers to [recv]. *)
Definition with_inbox (inbox : list recv_outcome) (sk : socket) : socket :=
  mkSocket (sk_script sk) (sk_wire sk) (sk_flags sk) inbox.

(** What is left to receive after a [recv] of at most [size] bytes took
    from [data], the first pending answer. *)
Definition inbox_after (size : nat) (data : list Z)
    (inbox : list recv_outcome) : list recv_outcome :=
  if (size <? length data)%nat then RecvData (drop size data) :: inbox
  else inbox.

(** ** More small worlds *)

(** The client of [sample_world], idle, with [inbox] as the pending
    answers to [recv] on its socket. *)
Definition inbox_world (inbox : list recv_outcome) : world :=
  mkWorld (mkConsole escape_idle []) ["socket"%string]
    {[ 0%nat := mkPoller 5 POLLIN None (Some 0%nat) ]}
    {[ 0%nat := mkConsumer [] 0 ]}
    {[ 5 := mkSocket [] [] [] inbox ]}
    {[ 0%nat := mkClient (Some 0%nat) (Some 0%nat) 5 false ]}
    [0%nat] [].

(** Two clients, at addresses 0 and 1, on the descriptors 5 and 6. *)
Definition two_clients (inbox0 inbox1 : list recv_outcome) : world :=
  mkWorld (mkConsole escape_idle []) ["socket"%string]
    {[ 0%nat := mkPoller 5 POLLIN None (Some 0%nat);
       1%nat := mkPoller 6 POLLIN None (Some 1%nat) ]}
    {[ 0%nat := mkConsumer [] 0; 1%nat := mkConsumer [] 0 ]}
    {[ 5 := mkSocket [] [] [] inbox0; 6 := mkSocket [] [] [] inbox1 ]}
    {[ 0%nat := mkClient (Some 0%nat) (Some 0%nat) 5 false;
       1%nat := mkClient (Some 1%nat) (Some 1%nat) 6 false ]}
    [0%nat; 1%nat] [].

(** * Facts about the escape parser *)

Section parser_facts.
Implicit Types (con : console) (buf : list Z) (begin pos : nat).

Lemma memchr_from_Some s c n base i :
  memchr_from s c n base = Some i →
  (base ≤ i < base + n)%nat ∧ s !! (i - base)%nat = Some c.
Proof.
  revert s base. induction n as [|n IH]; intros [|x s] base; simpl; try done.
  destruct (Z.eqb_spec x c) as [->|Hne].
  - intros [= <-]. rewrite Nat.sub_diag. split; [lia|done].
  - intros H. apply IH in H as (Hr & Hl).
    split; [lia|]. by replace (i - base)%nat with (S (i - S base)) by lia.
Qed.

Lemma memchr_Some buf begin c n i :
  memchr buf begin c n = Some i →
  (begin ≤ i < begin + n)%nat ∧ buf !! i = Some c.
Proof.
  unfold memchr. intros H. apply memchr_from_Some in H as (Hr & Hl).
  split; [done|]. rewrite lookup_drop in Hl.
  by replace (begin + (i - begin))%nat with i in Hl by lia.
Qed.

Lemma range_nil buf begin : range buf begin 0 = [].
Proof. done. Qed.

Lemma range_snoc buf begin i x :
  (begin ≤ i)%nat → buf !! i = Some x →
  range buf begin (i + 1 - begin) = range buf begin (i - begin) ++ [x].
Proof.
  intros Hle Hx. unfold range.
  replace (i + 1 - begin)%nat with (S (i - begin)) by lia.
  erewrite take_S_r; [done|].
  rewrite lookup_drop. by replace (begin + (i - begin))%nat with i by lia.
Qed.

Lemma range_one buf begin x :
  buf !! begin = Some x → range buf begin (S begin - begin) = [x].
Proof.
  intros Hx. replace (S begin) with (begin + 1)%nat by lia.
  rewrite (range_snoc _ _ _ x), Nat.sub_diag; done.
Qed.

Lemma range_split buf begin pos (end_ : nat) :
  (begin ≤ pos ≤ end_)%nat →
  range buf begin (pos - begin) ++ range buf pos (end_ - pos) =
  range buf begin (end_ - begin).
Proof.
  intros H. unfold range.
  replace (end_ - begin)%nat with ((pos - begin) + (end_ - pos))%nat by lia.
  rewrite <- take_take_drop, drop_drop.
  by replace (begin + (pos - begin))%nat with pos by lia.
Qed.

Lemma range_all buf : range buf 0 (length buf - 0) = buf.
Proof. unfold range. rewrite drop_0, Nat.sub_0_r. apply firstn_all. Qed.

(** The parser always returns on a non-empty range inside the buffer,
    with a cursor inside the range; it moves forward from the idle state
    and is idle whenever it did not move. *)
Lemma process_buffer_range_total con buf begin (end_ : nat) :
  (begin < end_)%nat → (end_ ≤ length buf)%nat →
  ∃ con' pos, process_buffer_range con buf begin end_ = Some (con', pos) ∧
    (begin ≤ pos ≤ end_)%nat ∧
    (state con = escape_idle → (begin < pos)%nat) ∧
    (pos = begin → state con' = escape_idle).
Proof.
  intros Hlt Hlen. unfold process_buffer_range.
  assert ((begin <? end_)%nat = true) as -> by (apply Nat.ltb_lt; lia). simpl.
  destruct (lookup_lt_is_Some_2 buf begin) as [b Hb]; [lia|].
  destruct (state con) eqn:Hst; rewrite ?Hb; simpl.
  - destruct (memchr buf begin CR _) as [i|] eqn:Hcr.
    + apply memchr_Some in Hcr as [? _]. eexists _, _. split; [done|].
      repeat split; try lia.
    + destruct (memchr buf begin LF _) as [i|] eqn:Hlf.
      * apply memchr_Some in Hlf as [? _]. eexists _, _. split; [done|].
        repeat split; try lia.
      * eexists _, _. split; [done|]. repeat split; try lia.
  - repeat case_match; eexists _, _; (split; [done|]);
      repeat split; simpl; try done; try lia.
  - repeat case_match; eexists _, _; (split; [done|]);
      repeat split; simpl; try done; try lia.
  - repeat case_match; eexists _, _; (split; [done|]);
      repeat split; simpl; try done; try lia.
Qed.

(** Two iterations per remaining byte, one less from the idle state, are
    enough fuel for the feed loop to reach the end of the range. *)
Lemma client_poll_loop_enough fuel con buf begin (end_ : nat) :
  (begin ≤ end_)%nat → (end_ ≤ length buf)%nat →
  (2 * (end_ - begin) ≤
     fuel + (if decide (state con = escape_idle) then 1 else 0))%nat →
  ∃ con', client_poll_loop fuel con buf begin end_ = Some (con', end_).
Proof.
  revert con begin. induction fuel as [|fuel IH]; intros con begin Hle Hlen Hfuel.
  - simpl. case_decide; destruct (Nat.ltb_spec begin end_); try lia;
      replace begin with end_ by lia; eauto.
  - simpl. destruct (Nat.ltb_spec begin end_) as [Hlt|Hge].
    + destruct (process_buffer_range_total con buf begin end_ Hlt Hlen)
        as (con' & pos & -> & Hpos & Hidle & Hback).
      simpl. apply IH; [lia|done|].
      destruct (decide (state con = escape_idle)) as [Hc|Hc].
      * specialize (Hidle Hc). case_decide; lia.
      * destruct (decide (pos = begin)) as [->|Hne].
        -- rewrite decide_True by auto. lia.
        -- case_decide; lia.
    + replace begin with end_ by lia. eauto.
Qed.

Lemma client_poll_feed_total con data :
  ∃ con', client_poll_feed con data = Some con'.
Proof.
  unfold client_poll_feed.
  destruct (client_poll_loop_enough (2 * length data) con data 0 (length data))
    as [con' ->]; [lia|lia|case_decide; lia|]. by eexists.
Qed.

Lemma client_poll_feed_nil con : client_poll_feed con [] = Some con.
Proof. done. Qed.

(** *** The parser only appends to the tty log *)

Lemma process_buffer_range_prepend l0 con buf begin (end_ : nat) :
  process_buffer_range (prepend_log l0 con) buf begin end_ =
  prod_map (prepend_log l0) id <$> process_buffer_range con buf begin end_.
Proof.
  unfold process_buffer_range. destruct (begin <? end_)%nat; simpl; [|done].
  destruct (state con) eqn:Hst; simpl;
    [|destruct (buf !! begin) as [b|]; simpl; [|done]..];
    repeat case_match; simplify_eq; simpl;
    unfold prepend_log, console_data_out, tcsendbreak; simpl;
    by rewrite ?(assoc_L (++)).
Qed.

Lemma client_poll_loop_prepend l0 fuel con buf begin (end_ : nat) :
  client_poll_loop fuel (prepend_log l0 con) buf begin end_ =
  prod_map (prepend_log l0) id <$> client_poll_loop fuel con buf begin end_.
Proof.
  revert con begin. induction fuel as [|fuel IH]; intros con begin; simpl.
  - by case_match.
  - case_match; [|done]. rewrite process_buffer_range_prepend.
    destruct (process_buffer_range con buf begin end_) as [[con' pos]|]; simpl; [|done].
    apply IH.
Qed.

Lemma feed_reads_prepend l0 con reads :
  feed_reads (prepend_log l0 con) reads = prepend_log l0 <$> feed_reads con reads.
Proof.
  revert con. induction reads as [|data reads IH]; intros con; simpl; [done|].
  unfold client_poll_feed. rewrite client_poll_loop_prepend.
  destruct (client_poll_loop _ con data _ _) as [[con' pos]|]; simpl; [|done].
  apply IH.
Qed.

End parser_facts.
Section noescape.
Implicit Types (con : console) (buf : list Z) (begin pos : nat).

Lemma has_escape_app_l a b : has_escape (a ++ b) = false → has_escape a = false.
Proof.
  induction a as [|x a IH]; simpl; [done|].
  intros H. apply orb_false_iff in H as [H1 H2].
  apply orb_false_iff. split; [|by apply IH].
  destruct (is_newline x); simpl in *; [|done].
  destruct a as [|t [|d a]]; simpl in *; try done.
Qed.

Lemma has_escape_leader q nl d r :
  is_newline nl = true → d = char_B ∨ d = tilde →
  has_escape (q ++ nl :: tilde :: d :: r) = true.
Proof.
  intros Hnl Hd. induction q as [|x q IH]; simpl.
  - rewrite Hnl. by destruct Hd as [-> | ->].
  - rewrite IH. apply orb_true_r.
Qed.

Lemma last_Some_snoc (p : list Z) x : last p = Some x → ∃ q, p = q ++ [x].
Proof. intros H. apply last_Some in H as [q ->]. by exists q. Qed.

Lemma parsed_step con0 con p buf begin (end_ : nat) con' pos :
  parsed con0 con p →
  has_escape (p ++ range buf begin (end_ - begin)) = false →
  process_buffer_range con buf begin end_ = Some (con', pos) →
  parsed con0 con' (p ++ range buf begin (pos - begin)).
Proof.
  unfold process_buffer_range, parsed.
  destruct (Nat.ltb_spec begin end_) as [Hlt|]; simpl; [|done].
  intros Hinv Hesc Hrun.
  destruct (state con) eqn:Hst.
  - (* idle: forward up to and including the first newline *)
    destruct (memchr buf begin CR _) as [i|] eqn:Hcr.
    { apply memchr_Some in Hcr as [Hi Hbi]. simplify_eq; simpl.
      rewrite (range_snoc _ _ _ CR) by (done || lia).
      split; [|by rewrite (assoc_L (++)), last_snoc].
      by rewrite Hinv, !fmap_app, <- !(assoc_L (++)). }
    destruct (memchr buf begin LF _) as [i|] eqn:Hlf.
    { apply memchr_Some in Hlf as [Hi Hbi]. simplify_eq; simpl.
      rewrite (range_snoc _ _ _ LF) by (done || lia).
      split; [|by rewrite (assoc_L (++)), last_snoc].
      by rewrite Hinv, !fmap_app, <- !(assoc_L (++)). }
    simplify_eq; simpl. by rewrite Hinv, fmap_app, (assoc_L (++)).
  - (* after a carriage return *)
    destruct Hinv as [Hlog Hlast].
    destruct (buf !! begin) as [b|] eqn:Hb; simpl in Hrun; [|done].
    destruct (Z.eqb_spec b LF) as [->|HnLF].
    { simplify_eq; simpl. rewrite (range_one _ _ LF) by done.
      by rewrite Hlog, fmap_app, (assoc_L (++)), last_snoc. }
    destruct (Z.eqb_spec b tilde) as [->|Hnt]; simplify_eq; simpl.
    + rewrite (range_one _ _ tilde) by done.
      apply last_Some_snoc in Hlast as [q ->].
      exists q, CR. by rewrite <- (assoc_L (++)).
    + by rewrite Nat.sub_diag, range_nil, app_nil_r.
  - destruct Hinv as [Hlog Hlast].
    destruct (buf !! begin) as [b|] eqn:Hb; simpl in Hrun; [|done].
    destruct (Z.eqb_spec b tilde) as [->|Hnt]; simplify_eq; simpl.
    + rewrite (range_one _ _ tilde) by done.
      apply last_Some_snoc in Hlast as [q ->].
      exists q, LF. by rewrite <- (assoc_L (++)).
    + by rewrite Nat.sub_diag, range_nil, app_nil_r.
  - (* [B] or [~] would complete an escape sequence; another byte
       releases the leader *)
    destruct Hinv as (q & nl & -> & Hnl & Hlog).
    destruct (buf !! begin) as [b|] eqn:Hb; simpl in Hrun; [|done].
    unfold range in Hesc. rewrite (drop_S _ _ _ Hb) in Hesc.
    replace (end_ - begin)%nat with (S (end_ - begin - 1)) in Hesc by lia.
    simpl in Hesc. rewrite <- (assoc_L (++)) in Hesc. simpl in Hesc.
    destruct (Z.eqb_spec b char_B) as [->|HnB].
    { by rewrite has_escape_leader in Hesc by auto. }
    destruct (Z.eqb_spec b tilde) as [->|Hnt].
    { by rewrite has_escape_leader in Hesc by auto. }
    injection Hrun as <- <-. simpl.
    rewrite Nat.sub_diag, range_nil, app_nil_r, Hlog.
    replace (q ++ [nl; tilde]) with ((q ++ [nl]) ++ [tilde])
      by (by rewrite <- (assoc_L (++))).
    by rewrite (fmap_app _ (q ++ [nl])), (assoc_L (++)).
Qed.
End noescape.
Section reads.
Implicit Types (con : console) (buf : list Z) (begin pos : nat).

Lemma parsed_loop con0 fuel con p buf begin (end_ : nat) con' pos :
  (begin ≤ end_)%nat → (end_ ≤ length buf)%nat →
  parsed con0 con p →
  has_escape (p ++ range buf begin (end_ - begin)) = false →
  client_poll_loop fuel con buf begin end_ = Some (con', pos) →
  parsed con0 con' (p ++ range buf begin (end_ - begin)).
Proof.
  revert con p begin.
  induction fuel as [|fuel IH]; intros con p begin Hle Hlen Hinv Hesc; simpl;
    destruct (Nat.ltb_spec begin end_) as [Hlt|Hge]; try done;
    try (intros [= <- <-]; replace (end_ - begin)%nat with O by lia;
         by rewrite range_nil, app_nil_r).
  destruct (process_buffer_range_total con buf begin end_ Hlt Hlen)
    as (con1 & pos1 & Hrun & Hpos & _). rewrite Hrun. simpl. intros Hloop.
  rewrite <- (range_split buf begin pos1 end_), (assoc_L (++)) by lia.
  apply (IH con1); [lia|done| |..|done].
  - by eapply parsed_step.
  - by rewrite <- (assoc_L (++)), range_split by lia.
Qed.

Lemma parsed_feed con0 con p data con' :
  parsed con0 con p → has_escape (p ++ data) = false →
  client_poll_feed con data = Some con' → parsed con0 con' (p ++ data).
Proof.
  unfold client_poll_feed. intros Hinv Hesc Hfeed.
  destruct (client_poll_loop _ _ _ _ _) as [[con1 pos]|] eqn:Hloop; simplify_eq/=.
  replace (p ++ data) with (p ++ range data 0 (length data - 0))
    by (by rewrite range_all).
  eapply parsed_loop; [..|done]; try done; try lia.
  by rewrite range_all.
Qed.

Lemma parsed_reads con0 reads : ∀ con p,
  parsed con0 con p → has_escape (p ++ concat reads) = false →
  ∃ con', feed_reads con reads = Some con' ∧ parsed con0 con' (p ++ concat reads).
Proof.
  induction reads as [|data reads IH]; intros con p Hinv Hesc; simpl in *.
  - exists con. by rewrite app_nil_r.
  - destruct (client_poll_feed_total con data) as [con1 Hfeed]. rewrite Hfeed. simpl.
    rewrite (assoc_L (++)) in *. apply IH; [|done].
    eapply parsed_feed; [done| |done]. by eapply has_escape_app_l.
Qed.

Lemma sink_bytes_app l1 l2 : sink_bytes (l1 ++ l2) = sink_bytes l1 ++ sink_bytes l2.
Proof. induction l1 as [|[b|] l1 IH]; simpl; [done|by rewrite IH..]. Qed.

Lemma sink_bytes_fmap p : sink_bytes (TtyByte <$> p) = p.
Proof. induction p as [|b p IH]; csimpl; [done|by rewrite IH]. Qed.

Lemma break_count_app l1 l2 :
  break_count (l1 ++ l2) = (break_count l1 + break_count l2)%nat.
Proof. induction l1 as [|[b|] l1 IH]; simpl; [done|by rewrite IH..]. Qed.

Lemma break_count_fmap p : break_count (TtyByte <$> p) = O.
Proof. induction p as [|b p IH]; csimpl; [done|by rewrite IH]. Qed.

Lemma ends_with_leader_snoc q nl :
  is_newline nl = true → ends_with_leader (q ++ [nl; tilde]) = true.
Proof.
  intros Hnl. unfold ends_with_leader. rewrite reverse_app. simpl.
  by rewrite Hnl.
Qed.

(** *** Reads and their cuts *)

Lemma feed_reads_filter con reads :
  feed_reads con (filter (λ c, c ≠ []) reads) = feed_reads con reads.
Proof.
  revert con. induction reads as [|data reads IH]; intros con; [done|].
  rewrite filter_cons. destruct (decide (data ≠ [])) as [Hne|He]; simpl.
  - destruct (client_poll_feed con data); simpl; [apply IH|done].
  - apply dec_stable in He as ->. rewrite client_poll_feed_nil. simpl. apply IH.
Qed.

Lemma concat_filter_nonempty (reads : list (list Z)) :
  concat (filter (λ c, c ≠ []) reads) = concat reads.
Proof.
  induction reads as [|data reads IH]; [done|].
  rewrite filter_cons. destruct (decide (data ≠ [])) as [Hne|He]; simpl.
  - by rewrite IH.
  - apply dec_stable in He as ->. by rewrite IH.
Qed.

Lemma splits_cons_new x s cs :
  cs ∈ splits s → ([x] :: cs) ∈ splits (x :: s).
Proof.
  intros Hin. simpl. apply list_elem_of_bind. exists cs. split; [|done].
  destruct cs; set_solver.
Qed.

Lemma splits_cons_extend x s c cs :
  (c :: cs) ∈ splits s → ((x :: c) :: cs) ∈ splits (x :: s).
Proof.
  intros Hin. simpl. apply list_elem_of_bind. exists (c :: cs). split; [|done].
  set_solver.
Qed.

Lemma splits_complete (cs : list (list Z)) :
  Forall (λ c, c ≠ []) cs → cs ∈ splits (concat cs).
Proof.
  induction cs as [|c cs IH]; intros Hne.
  - simpl. set_solver.
  - apply Forall_cons in Hne as [Hc Hcs]. specialize (IH Hcs).
    destruct c as [|x c]; [done|]. clear Hc. simpl.
    revert x. induction c as [|y c IHc]; intros x.
    + by apply splits_cons_new.
    + rewrite <- app_comm_cons. apply splits_cons_extend, IHc.
Qed.

(** A property of the result that holds for every cut of [s] into
    non-empty reads holds for every sequence of reads that delivers [s]. *)
Lemma feed_reads_every_cut con s (Q : option console → Prop) :
  Forall (λ cs, Q (feed_reads con cs)) (splits s) →
  ∀ reads, concat reads = s → Q (feed_reads con reads).
Proof.
  intros Hall reads <-. rewrite <- feed_reads_filter.
  rewrite Forall_forall in Hall. apply Hall.
  rewrite <- concat_filter_nonempty. apply splits_complete.
  apply Forall_forall. intros c Hc. by apply list_elem_of_filter in Hc as [? _].
Qed.

End reads.
Section escapes.
Implicit Types (con : console) (reads : list (list Z)).

Lemma console_prepend con :
  con = prepend_log (tty con) (mkConsole (state con) []).
Proof. destruct con. unfold prepend_log. simpl. by rewrite app_nil_r. Qed.

Lemma feed_reads_log st log reads :
  feed_reads (mkConsole st log) reads =
  prepend_log log <$> feed_reads (mkConsole st []) reads.
Proof.
  by rewrite (console_prepend (mkConsole st log)), feed_reads_prepend.
Qed.

(** The three spellings of a newline in the escape grammar. *)
Lemma feed_reads_break_escape log nl reads :
  nl ∈ [[CR]; [LF]; [CR; LF]] →
  concat reads = nl ++ [tilde; char_B] →
  feed_reads (mkConsole escape_idle log) reads =
    Some (mkConsole escape_idle (log ++ (TtyByte <$> nl) ++ [TtyBreak])).
Proof.
  intros Hnl Hcat.
  rewrite feed_reads_log.
  assert (feed_reads (mkConsole escape_idle []) reads =
          Some (mkConsole escape_idle ((TtyByte <$> nl) ++ [TtyBreak]))) as ->; [|done].
  revert reads Hcat.
  apply (feed_reads_every_cut _ _ (λ r, r = Some _)).
  repeat (apply elem_of_cons in Hnl as [->|Hnl]);
    [| | |by apply elem_of_nil in Hnl];
    cbv beta; eapply (bool_decide_unpack _); by vm_compute.
Qed.


End escapes.
Section settled.
Implicit Types (con : console) (buf : list Z) (begin pos : nat).

Lemma memchr_from_None s c n base :
  memchr_from s c n base = None → ∀ x, x ∈ take n s → x ≠ c.
Proof.
  revert s base. induction n as [|n IH]; intros [|y s] base; simpl;
    try (intros _ x Hx; by apply elem_of_nil in Hx).
  destruct (Z.eqb_spec y c) as [->|Hne]; [done|].
  intros Hnone x [->|Hx]%elem_of_cons; [done|]. by eapply IH.
Qed.

Lemma memchr_None buf begin c n :
  memchr buf begin c n = None → ∀ x, x ∈ range buf begin n → x ≠ c.
Proof. apply memchr_from_None. Qed.

Lemma is_newline_true x : is_newline x = true ↔ x = CR ∨ x = LF.
Proof.
  unfold is_newline. rewrite orb_true_iff, !Z.eqb_eq. done.
Qed.

Lemma tilde_not_newline : is_newline tilde = false.
Proof. reflexivity. Qed.

(** A range without newline bytes that is scanned whole. *)
Lemma idle_settled_scan p r later :
  r ≠ [] → (∀ x, x ∈ r → is_newline x = false) →
  (∀ x, is_newline x = true → last p = Some x → head (r ++ later) ≠ Some tilde) →
  (∀ x, is_newline x = true → last (p ++ r) = Some x → head later ≠ Some tilde) ∧
  (∀ q x, is_newline x = true → p ++ r ≠ q ++ [x; tilde]).
Proof.
  intros Hne Hr Hp.
  destruct (exists_last Hne) as (r' & y & ->).
  assert (is_newline y = false) as Hy by (apply Hr; set_solver).
  split.
  - intros x Hx. rewrite (assoc_L (++)), last_snoc. intros [= ->]. congruence.
  - intros q x Hx Heq.
    rewrite (assoc_L (++)) in Heq.
    replace (q ++ [x; tilde]) with ((q ++ [x]) ++ [tilde]) in Heq
      by (by rewrite <- (assoc_L (++))).
    apply app_inj_tail in Heq as [Heq ->].
    destruct r' as [|z r'] using rev_ind.
    + rewrite app_nil_r in Heq. subst p.
      apply (Hp x Hx); [by rewrite last_snoc|done].
    + rewrite (assoc_L (++)) in Heq. apply app_inj_tail in Heq as [_ ->].
      assert (is_newline x = false) by (apply Hr; set_solver). congruence.
Qed.

Lemma idle_settled_step con0 con p buf begin (end_ : nat) later con' pos :
  parsed con0 con p →
  idle_settled con p (range buf begin (end_ - begin) ++ later) →
  has_escape (p ++ range buf begin (end_ - begin)) = false →
  process_buffer_range con buf begin end_ = Some (con', pos) →
  idle_settled con' (p ++ range buf begin (pos - begin))
    (range buf pos (end_ - pos) ++ later).
Proof.
  unfold process_buffer_range, parsed, idle_settled.
  destruct (Nat.ltb_spec begin end_) as [Hlt|]; simpl; [|done].
  intros Hinv Hset Hesc Hrun.
  destruct (state con) eqn:Hst.
  - (* idle: only a scan of the whole range stays idle *)
    destruct (memchr buf begin CR _) as [i|] eqn:Hcr; [by simplify_eq|].
    destruct (memchr buf begin LF _) as [i|] eqn:Hlf; [by simplify_eq|].
    injection Hrun as <- <-. simpl. intros _.
    rewrite Nat.sub_diag, range_nil. simpl.
    destruct (decide (range buf begin (end_ - begin) = [])) as [Hnil|Hne].
    { rewrite Hnil in *. rewrite app_nil_r. by apply Hset. }
    destruct (Hset eq_refl) as [Hp _].
    destruct (idle_settled_scan p (range buf begin (end_ - begin)) later)
      as [H1 H2]; [done| |done|].
    { intros x Hx. apply not_true_iff_false. intros [-> | ->]%is_newline_true.
      + by eapply (memchr_None _ _ _ _ Hcr).
      + by eapply (memchr_None _ _ _ _ Hlf). }
    split; [done|]. intros q x Hx Heq. by destruct (H2 q x Hx).
  - destruct Hinv as [_ Hlast].
    destruct (buf !! begin) as [b|] eqn:Hb; simpl in Hrun; [|done].
    destruct (Z.eqb_spec b LF); [by simplify_eq|].
    destruct (Z.eqb_spec b tilde) as [->|Hnt]; [by simplify_eq|].
    injection Hrun as <- <-. simpl. intros _. rewrite Nat.sub_diag, range_nil, app_nil_r.
    assert (range buf begin (end_ - begin) = b :: range buf (S begin) (end_ - S begin))
      as ->.
    { unfold range. rewrite (drop_S _ _ _ Hb).
      by replace (end_ - begin)%nat with (S (end_ - S begin)) by lia. }
    split.
    + intros x _ _. simpl. congruence.
    + intros q x _ ->.
      replace (q ++ [x; tilde]) with ((q ++ [x]) ++ [tilde]) in Hlast
        by (by rewrite <- (assoc_L (++))).
      by rewrite last_snoc in Hlast.
  - destruct Hinv as [_ Hlast].
    destruct (buf !! begin) as [b|] eqn:Hb; simpl in Hrun; [|done].
    destruct (Z.eqb_spec b tilde) as [->|Hnt]; [by simplify_eq|].
    injection Hrun as <- <-. simpl. intros _. rewrite Nat.sub_diag, range_nil, app_nil_r.
    assert (range buf begin (end_ - begin) = b :: range buf (S begin) (end_ - S begin))
      as ->.
    { unfold range. rewrite (drop_S _ _ _ Hb).
      by replace (end_ - begin)%nat with (S (end_ - S begin)) by lia. }
    split.
    + intros x _ _. simpl. congruence.
    + intros q x _ ->.
      replace (q ++ [x; tilde]) with ((q ++ [x]) ++ [tilde]) in Hlast
        by (by rewrite <- (assoc_L (++))).
      by rewrite last_snoc in Hlast.
  - destruct Hinv as (q & nl & -> & Hnl & _).
    destruct (buf !! begin) as [b|] eqn:Hb; simpl in Hrun; [|done].
    assert (range buf begin (end_ - begin) = b :: range buf (S begin) (end_ - S begin))
      as Hrange.
    { unfold range. rewrite (drop_S _ _ _ Hb).
      by replace (end_ - begin)%nat with (S (end_ - S begin)) by lia. }
    rewrite Hrange in Hesc. rewrite <- (assoc_L (++)) in Hesc. simpl in Hesc.
    destruct (Z.eqb_spec b char_B) as [->|HnB].
    { by rewrite has_escape_leader in Hesc by auto. }
    destruct (Z.eqb_spec b tilde) as [->|Hnt].
    { by rewrite has_escape_leader in Hesc by auto. }
    injection Hrun as <- <-. simpl. intros _.
    rewrite Nat.sub_diag, range_nil, app_nil_r, Hrange.
    split.
    + intros x Hx Hlast.
      replace (q ++ [nl; tilde]) with ((q ++ [nl]) ++ [tilde]) in Hlast
        by (by rewrite <- (assoc_L (++))).
      rewrite last_snoc in Hlast. injection Hlast as <-. done.
    + done.
Qed.
End settled.
Section settled_reads.
Implicit Types (con : console) (buf : list Z) (begin pos : nat).

Lemma idle_settled_loop con0 later fuel : ∀ con p buf begin (end_ : nat) con' pos,
  (begin ≤ end_)%nat → (end_ ≤ length buf)%nat →
  parsed con0 con p →
  idle_settled con p (range buf begin (end_ - begin) ++ later) →
  has_escape (p ++ range buf begin (end_ - begin)) = false →
  client_poll_loop fuel con buf begin end_ = Some (con', pos) →
  idle_settled con' (p ++ range buf begin (end_ - begin)) later.
Proof.
  induction fuel as [|fuel IH];
    intros con p buf begin end_ con' pos Hle Hlen Hinv Hset Hesc; simpl;
    destruct (Nat.ltb_spec begin end_) as [Hlt|Hge]; try done;
    try (intros [= <- <-]; replace (end_ - begin)%nat with O in * by lia;
         by rewrite range_nil, app_nil_r in * ).
  destruct (process_buffer_range_total con buf begin end_ Hlt Hlen)
    as (con1 & pos1 & Hrun & Hpos & _). rewrite Hrun. simpl. intros Hloop.
  rewrite <- (range_split buf begin pos1 end_), (assoc_L (++)) by lia.
  eapply (IH con1); [| |by eapply parsed_step| | |done]; [lia|done|..].
  - by eapply idle_settled_step.
  - by rewrite <- (assoc_L (++)), range_split by lia.
Qed.

Lemma idle_settled_feed con0 con p data later con' :
  parsed con0 con p → idle_settled con p (data ++ later) →
  has_escape (p ++ data) = false →
  client_poll_feed con data = Some con' →
  idle_settled con' (p ++ data) later.
Proof.
  unfold client_poll_feed. intros Hinv Hset Hesc Hfeed.
  destruct (client_poll_loop _ _ _ _ _) as [[con1 pos]|] eqn:Hloop; simplify_eq/=.
  replace (p ++ data) with (p ++ range data 0 (length data - 0))
    by (by rewrite range_all).
  eapply idle_settled_loop; [| | | | |done]; try done; try lia;
    by rewrite range_all.
Qed.

Lemma idle_settled_reads con0 reads : ∀ con p con',
  parsed con0 con p → idle_settled con p (concat reads) →
  has_escape (p ++ concat reads) = false →
  feed_reads con reads = Some con' →
  idle_settled con' (p ++ concat reads) [].
Proof.
  induction reads as [|data reads IH]; intros con p con' Hinv Hset Hesc; simpl in *.
  - intros [= <-]. by rewrite app_nil_r.
  - destruct (client_poll_feed con data) as [con1|] eqn:Hfeed; [|done]. simpl.
    rewrite (assoc_L (++)) in *. apply IH; [| |done].
    + eapply parsed_feed; [done| |done]. by eapply has_escape_app_l.
    + eapply idle_settled_feed; [done|done| |done]. by eapply has_escape_app_l.
Qed.

Lemma ends_with_leader_inv s :
  ends_with_leader s = true →
  ∃ q x, s = q ++ [x; tilde] ∧ is_newline x = true.
Proof.
  unfold ends_with_leader. destruct (reverse s) as [|t [|nl rest]] eqn:Hrev;
    try done.
  intros [->%Z.eqb_eq Hnl]%andb_true_iff.
  exists (reverse rest), nl. split; [|done].
  rewrite <- (reverse_involutive s), Hrev. rewrite !reverse_cons.
  by rewrite <- (assoc_L (++)).
Qed.
End settled_reads.

(** * Facts about one connection *)

Lemma size_bounds : 0 < SSIZE_MAX ∧ SSIZE_MAX < SIZE_MAX.
Proof. unfold SSIZE_MAX, SIZE_MAX. simpl. lia. Qed.

Lemma to_size_small z : 0 ≤ z ≤ SIZE_MAX → to_size z = z.
Proof. unfold to_size, SIZE_MAX. intros H. apply Z.mod_small. lia. Qed.

Lemma to_size_minus_one : to_size (0 + -1) = SIZE_MAX.
Proof. reflexivity. Qed.

Lemma to_ssize_small z : z ≤ SSIZE_MAX → to_ssize z = z.
Proof.
  unfold to_ssize, SSIZE_MAX. intros H.
  destruct (Z.ltb_spec z (2 ^ 63)); [done|lia].
Qed.

Lemma to_ssize_max : to_ssize SIZE_MAX = -1.
Proof. reflexivity. Qed.

Lemma client_with_blocked_id c : client_with_blocked (c_blocked c) c = c.
Proof. by destruct c. Qed.

Lemma length_range buf begin len :
  (begin + len ≤ length buf)%nat → length (range buf begin len) = len.
Proof. intros H. unfold range. rewrite length_take, length_drop. lia. Qed.

Lemma take_range n buf begin len :
  take n (range buf begin len) = range buf begin (n `min` len).
Proof. unfold range. by rewrite take_take. Qed.

Lemma range_app buf begin a b :
  range buf begin a ++ range buf (begin + a) b = range buf begin (a + b).
Proof. unfold range. by rewrite <- take_take_drop, drop_drop. Qed.

Section conn_facts.
Context (p : nat) (id : nat) (fd : Z).
Implicit Types (c : client) (po : poller) (sk : socket) (w : world).

Lemma conn_conn c po sk c' po' sk' w :
  conn p c' id po' fd sk' (conn p c id po fd sk w) = conn p c' id po' fd sk' w.
Proof. unfold conn. destruct w. simpl. by rewrite !insert_insert_eq. Qed.

Lemma conn_id c po sk w :
  heap w !! p = Some c → pollers w !! id = Some po → socks w !! fd = Some sk →
  conn p c id po fd sk w = w.
Proof.
  intros Hc Hpo Hsk. unfold conn. destruct w. simpl in *.
  by rewrite !insert_id.
Qed.

Lemma set_socks_conn c po sk sk' w :
  set_socks (<[fd := sk']> (socks (conn p c id po fd sk w))) (conn p c id po fd sk w)
  = conn p c id po fd sk' w.
Proof. unfold conn. destruct w. simpl. by rewrite insert_insert_eq. Qed.

Lemma set_heap_conn c c' po sk w :
  set_heap (<[p := c']> (heap (conn p c id po fd sk w))) (conn p c id po fd sk w)
  = conn p c' id po fd sk w.
Proof. unfold conn. destruct w. simpl. by rewrite insert_insert_eq. Qed.

Lemma set_pollers_conn c po po' sk w :
  set_pollers (<[id := po']> (pollers (conn p c id po fd sk w))) (conn p c id po fd sk w)
  = conn p c id po' fd sk w.
Proof. unfold conn. destruct w. simpl. by rewrite insert_insert_eq. Qed.

Lemma heap_conn c po sk w : heap (conn p c id po fd sk w) !! p = Some c.
Proof. unfold conn. simpl. apply lookup_insert_eq. Qed.
Lemma heap_conn_eq c po sk w : heap (conn p c id po fd sk w) = <[p := c]> (heap w).
Proof. done. Qed.
Lemma socks_conn c po sk w : socks (conn p c id po fd sk w) !! fd = Some sk.
Proof. unfold conn. simpl. apply lookup_insert_eq. Qed.
Lemma pollers_conn c po sk w : pollers (conn p c id po fd sk w) !! id = Some po.
Proof. unfold conn. simpl. apply lookup_insert_eq. Qed.
Lemma consumers_conn c po sk w : consumers (conn p c id po fd sk w) = consumers w.
Proof. done. Qed.
Lemma clients_conn c po sk w : clients (conn p c id po fd sk w) = clients w.
Proof. done. Qed.
Lemma trace_conn c po sk w : trace (conn p c id po fd sk w) = trace w.
Proof. done. Qed.

Lemma client_set_blocked_conn b c po sk w :
  c_poller c = Some id →
  client_set_blocked p b (conn p c id po fd sk w) =
  Some (conn p (client_with_blocked b c) id
          (if bool_decide (c_blocked c = b) then po
           else poller_with_events (events_for b) po) fd sk w).
Proof.
  intros Hid. unfold client_set_blocked. rewrite heap_conn. cbn.
  case_bool_decide as Hb.
  - f_equal. f_equal. destruct c; simpl in *. by subst.
  - rewrite set_heap_conn, Hid. cbn.
    unfold console_poller_set_events. rewrite pollers_conn. cbn.
    rewrite set_pollers_conn. unfold client_with_blocked. by rewrite Hid.
Qed.
End conn_facts.
Section send_facts.
Context (p : nat) (id : nat) (fd : Z).
Implicit Types (c : client) (po : poller) (sk : socket) (w : world).

Lemma send_conn data flags c po sk w :
  send fd data flags (conn p c id po fd sk w) =
  match sk_script sk with
  | [] =>
      (Z.of_nat (length data), 0,
       conn p c id po fd
         (mkSocket [] (sk_wire sk ++ data) (sk_flags sk ++ [flags]) (sk_inbox sk)) w)
  | SendAccept n :: script =>
      (Z.of_nat (length (take n data)), 0,
       conn p c id po fd
         (mkSocket script (sk_wire sk ++ take n data) (sk_flags sk ++ [flags])
            (sk_inbox sk)) w)
  | SendErrno e :: script =>
      (-1, e,
       conn p c id po fd
         (mkSocket script (sk_wire sk) (sk_flags sk ++ [flags]) (sk_inbox sk)) w)
  end.
Proof.
  unfold send. rewrite (socks_conn p id fd).
  destruct (sk_script sk) as [|[n|e] script]; by rewrite (set_socks_conn p id fd).
Qed.
End send_facts.
Section send_all_facts.
Context (p : nat) (id : nat) (fd : Z).
Implicit Types (c : client) (po : poller) (sk : socket) (w : world).

Lemma client_after_false c : client_after false c = c.
Proof. unfold client_after. by rewrite orb_false_r, client_with_blocked_id. Qed.

Lemma poller_after_false c po : poller_after false c po = po.
Proof. done. Qed.

Lemma sent_exit buf len block pos sk :
  len ≤ SSIZE_MAX → (0 ≤ pos ≤ len ∨ pos = SIZE_MAX) → ¬ pos < len →
  sent buf len block pos sk sk (to_ssize pos) false.
Proof.
  pose proof size_bounds as [Hs0 Hs1]. intros Hmax Hpos Hge.
  assert (∃ k, sk_flags sk = sk_flags sk ++ replicate k (send_flags block))
    by (exists O; simpl; by rewrite app_nil_r).
  destruct Hpos as [Hpos| ->].
  - rewrite to_ssize_small by lia. assert (pos = len) as -> by lia.
    unfold sent. split_and!; try done; try lia.
    intros _ _. split_and!; try done; try lia.
    intros _. split; [lia|].
    rewrite Z.sub_diag. simpl. by rewrite range_nil, app_nil_r.
  - rewrite to_ssize_max. unfold sent. split_and!; try done; try lia.
Qed.

Lemma sent_fail buf len block pos sk script wire :
  sk_script sk = SendAccept O :: script ∨
  (∃ e, sk_script sk = SendErrno e :: script ∧ e ≠ EINTR) →
  sent buf len block pos sk
    (mkSocket script wire (sk_flags sk ++ [send_flags block]) (sk_inbox sk))
    (-1) false.
Proof.
  intros Hs. unfold sent. simpl. split_and!; try done; try lia.
  - by exists 1%nat.
  - destruct Hs as [->|(e & -> & _)]; by apply suffix_cons_r.
  - intros _ _. split_and!; try done; try lia.
    destruct Hs as [->|(e & -> & _)]; done.
Qed.

Lemma send_all_loop_sent buf len block fuel : ∀ pos sk c po w,
  c_poller c = Some id →
  len ≤ SSIZE_MAX → len ≤ Z.of_nat (length buf) →
  (0 ≤ pos ≤ len ∨ pos = SIZE_MAX) →
  (pos < len → (length (sk_script sk) < fuel)%nat) →
  ∃ ret b sk',
    send_all_loop fuel p fd buf len block (send_flags block) pos
      (conn p c id po fd sk w) =
    Some (ret, conn p (client_after b c) id (poller_after b c po) fd sk' w) ∧
    sent buf len block pos sk sk' ret b.
Proof.
  pose proof size_bounds as [Hs0 Hs1].
  induction fuel as [|fuel IH]; intros pos sk c po w Hid Hmax Hbuf Hpos Hfuel.
  { (* no fuel: the loop is already at its end *)
    assert (¬ pos < len) as Hge by lia.
    exists (to_ssize pos), false, sk. simpl.
    destruct (Z.ltb_spec pos len); [done|].
    rewrite client_after_false, poller_after_false. split; [done|].
    by apply sent_exit. }
  cbn [send_all_loop]. destruct (Z.ltb_spec pos len) as [Hlt|Hge].
  2:{ exists (to_ssize pos), false, sk.
      rewrite client_after_false, poller_after_false. split; [done|].
      apply sent_exit; [done..|lia]. }
  destruct Hpos as [Hpos|Hpos]; [|lia]. specialize (Hfuel Hlt).
  rewrite (send_conn p id fd).
  assert (length (range buf (Z.to_nat pos) (Z.to_nat (len - pos)))
          = Z.to_nat (len - pos)) as Hdata by (apply length_range; lia).
  destruct (sk_script sk) as [|[n|e] script] eqn:Hscript; simpl in Hfuel.
  - (* the socket takes everything *)
    rewrite Hdata.
    destruct (Z.ltb_spec (Z.of_nat (Z.to_nat (len - pos))) 0); [lia|].
    destruct (Z.eqb_spec (Z.of_nat (Z.to_nat (len - pos))) 0); [lia|].
    replace (to_size (pos + Z.of_nat (Z.to_nat (len - pos)))) with len
      by (rewrite to_size_small; lia).
    edestruct (IH len
                 (mkSocket []
                    (sk_wire sk ++ range buf (Z.to_nat pos) (Z.to_nat (len - pos)))
                    (sk_flags sk ++ [send_flags block]) (sk_inbox sk))
                 c po w) as (ret & b & sk' & -> & Hsent); try done; try lia.
    exists ret, b, sk'. split; [done|].
    destruct Hsent as (Hret & Hb & [k Hk] & Hin & Hsuf & Hwire). simpl in *.
    apply suffix_nil_inv in Hsuf.
    destruct Hwire as (Hw1 & Hw2 & Hw3); [constructor|lia|].
    destruct (Hw3 eq_refl) as [-> ->].
    assert (0 ≤ len) as H0len by lia.
    destruct (Hw1 H0len) as [_ Hw]. rewrite Z.sub_diag in Hw. simpl in Hw.
    rewrite range_nil, app_nil_r in Hw.
    unfold sent. rewrite Hscript. split_and!; try done; try lia.
    + exists (S k). rewrite Hk. by rewrite <- (assoc_L (++)).
    + by rewrite Hsuf.
    + intros _ _. split_and!; try done; try lia.
      intros _. split; [lia|]. by rewrite Hw.
  - (* the socket takes up to [n] bytes *)
    rewrite take_range, length_range by lia.
    set (rc := (n `min` Z.to_nat (len - pos))%nat).
    destruct (Z.ltb_spec (Z.of_nat rc) 0); [lia|].
    destruct (Z.eqb_spec (Z.of_nat rc) 0) as [Hz|Hnz].
    { eexists (-1), false, _.
      rewrite client_after_false, poller_after_false. split; [done|].
      apply sent_fail. left. rewrite Hscript. f_equal. f_equal. lia. }
    assert (0 < Z.of_nat rc ≤ len - pos) as Hrc.
    { pose proof (Nat.le_min_r n (Z.to_nat (len - pos))). fold rc in H0. lia. }
    clearbody rc.
    rewrite to_size_small by lia.
    edestruct (IH (pos + Z.of_nat rc)
                 (mkSocket script (sk_wire sk ++ range buf (Z.to_nat pos) rc)
                    (sk_flags sk ++ [send_flags block]) (sk_inbox sk))
                 c po w) as (ret & b & sk' & -> & Hsent); try done; try lia.
    { simpl. lia. }
    exists ret, b, sk'. split; [done|].
    destruct Hsent as (Hret & Hb & [k Hk] & Hin & Hsuf & Hwire). simpl in *.
    unfold sent. rewrite Hscript. split_and!; try done.
    + exists (S k). rewrite Hk. by rewrite <- (assoc_L (++)).
    + by apply suffix_cons_r.
    + intros Hno _. destruct Hwire as (Hw1 & Hw2 & _);
        [by eapply Forall_inv_tail|lia|].
      split_and!; try done.
      intros Hr. destruct (Hw1 Hr) as [Hle ->]. split; [lia|].
      rewrite <- (assoc_L (++)). f_equal.
      replace (Z.to_nat (pos + Z.of_nat rc)) with (Z.to_nat pos + rc)%nat by lia.
      rewrite range_app. f_equal. lia.
  - (* the call fails *)
    cbn [Z.ltb Z.compare].
    destruct (negb block && ((e =? EAGAIN) || (e =? EWOULDBLOCK))) eqn:Hwb.
    { rewrite (client_set_blocked_conn p id fd) by done. cbn.
      eexists (to_ssize pos), true, _.
      split.
      { f_equal. f_equal. unfold client_after, poller_after.
        rewrite orb_true_r. destruct (c_blocked c); simpl; done. }
      rewrite to_ssize_small by lia.
      apply andb_true_iff in Hwb as [Hnb _].
      unfold sent. rewrite Hscript. simpl. split_and!; try done; try lia.
      - intros _. split; [by destruct block|lia].
      - by exists 1%nat.
      - by apply suffix_cons_r.
      - intros _ _. split_and!; try done.
        intros _. split; [lia|].
        rewrite Z.sub_diag. simpl. by rewrite range_nil, app_nil_r. }
    destruct (Z.eqb_spec e EINTR) as [->|Hne].
    { (* interrupted: the increment of the loop runs with rc = -1 *)
      edestruct (IH (to_size (pos + -1))
                   (mkSocket script (sk_wire sk)
                      (sk_flags sk ++ [send_flags block]) (sk_inbox sk))
                   c po w) as (ret & b & sk' & -> & Hsent); try done.
      { destruct (decide (pos = 0)) as [->|].
        - right. apply to_size_minus_one.
        - left. rewrite to_size_small; lia. }
      { simpl. lia. }
      exists ret, b, sk'. split; [done|].
      destruct Hsent as (Hret & Hb & [k Hk] & Hin & Hsuf & Hwire). simpl in *.
      unfold sent. rewrite Hscript. split_and!; try done.
      - exists (S k). rewrite Hk. by rewrite <- (assoc_L (++)).
      - by apply suffix_cons_r.
      - intros Hno. apply Forall_inv in Hno. done. }
    eexists (-1), false, _.
    rewrite client_after_false, poller_after_false. split; [done|].
    apply sent_fail. right. eauto.
Qed.
End send_all_facts.
Section send_all_all.
Context (p : nat) (id : nat) (fd : Z).
Implicit Types (c : client) (po : poller) (sk : socket) (w : world).

Lemma send_fuel_conn c po sk w :
  send_fuel fd (conn p c id po fd sk w) = S (length (sk_script sk)).
Proof. unfold send_fuel. by rewrite (socks_conn p id fd). Qed.

Lemma send_all_sent_all buf len block c po sk w :
  c_poller c = Some id → c_fd c = fd → 0 ≤ len ≤ Z.of_nat (length buf) →
  ∃ ret b sk',
    send_all p buf len block (conn p c id po fd sk w) =
    Some (ret, conn p (client_after b c) id (poller_after b c po) fd sk' w) ∧
    sent_all buf len block sk sk' ret b.
Proof.
  intros Hid Hfd Hlen. unfold send_all.
  assert (∃ k, sk_flags sk = sk_flags sk ++ replicate k (send_flags block))
    by (exists O; simpl; by rewrite app_nil_r).
  destruct (Z.ltb_spec SSIZE_MAX len) as [Hbig|Hsmall].
  - exists (- EINVAL), false, sk.
    rewrite client_after_false, poller_after_false. split; [done|].
    unfold sent_all. split_and!; try done; try lia.
    + left. unfold EINVAL. lia.
    + intros _. unfold EINVAL. split_and!; try done; try lia.
  - rewrite (heap_conn p id fd). cbn [mbind option_bind].
    rewrite Hfd, send_fuel_conn.
    destruct (send_all_loop_sent p id fd buf len block (S (length (sk_script sk)))
                0 sk c po w) as (ret & b & sk' & Hrun & Hsent);
      try done; try lia.
    exists ret, b, sk'. fold (send_flags block). split; [done|].
    destruct Hsent as (Hret & Hb & Hk & Hin & Hsuf & Hwire).
    unfold sent_all. split_and!; try done; try lia.
    intros Hno. destruct Hwire as (Hw1 & Hw2 & Hw3); [done|pose proof size_bounds; lia|].
    split_and!; try done.
    + intros Hr. destruct (Hw1 Hr) as [_ ->]. f_equal. unfold range.
      rewrite drop_0. f_equal. lia.
    + intros Hs _. by apply Hw3.
Qed.
End send_all_all.

Section peek_facts.
Implicit Types (rb : consumer).

Lemma peek_empty rb total :
  ringbuffer_len rb ≤ total → ringbuffer_dequeue_peek rb total = [].
Proof.
  intros H. unfold ringbuffer_dequeue_peek.
  by destruct (Z.leb_spec (ringbuffer_len rb) total); [|lia].
Qed.

Lemma peek_run rb total :
  0 ≤ total < ringbuffer_len rb →
  ∃ n, (0 < n)%nat ∧ Z.of_nat n ≤ ringbuffer_len rb - total ∧
       ringbuffer_dequeue_peek rb total = range (rb_pending rb) (Z.to_nat total) n ∧
       length (ringbuffer_dequeue_peek rb total) = n.
Proof.
  unfold ringbuffer_dequeue_peek, ringbuffer_len. intros H.
  destruct (Z.leb_spec (Z.of_nat (length (rb_pending rb))) total); [lia|].
  destruct (Z.ltb_spec total (Z.of_nat (rb_wrap rb))).
  - exists ((rb_wrap rb - Z.to_nat total) `min` (length (rb_pending rb) - Z.to_nat total))%nat.
    split; [lia|]. split; [lia|]. unfold range.
    rewrite length_take, length_drop. split; [|done].
    rewrite <- (take_take _ (rb_wrap rb - Z.to_nat total)).
    f_equal. rewrite firstn_all2; [done|]. rewrite length_drop. lia.
  - exists (length (rb_pending rb) - Z.to_nat total)%nat.
    split; [lia|]. split; [lia|]. unfold range.
    rewrite length_drop. split; [|done].
    rewrite firstn_all2; [done|]. rewrite length_drop. lia.
Qed.
End peek_facts.
Section drain_facts.
Context (p : nat) (id : nat) (fd : Z) (r : nat).
Implicit Types (c : client) (po : poller) (sk : socket) (w : world)
  (rb : consumer).

Lemma client_after_after b1 b2 c :
  client_after b2 (client_after b1 c) = client_after (b1 || b2) c.
Proof.
  unfold client_after, client_with_blocked. simpl. by rewrite orb_assoc.
Qed.

Lemma poller_after_after b1 b2 c po :
  poller_after b2 (client_after b1 c) (poller_after b1 c po)
  = poller_after (b1 || b2) c po.
Proof.
  unfold poller_after, client_after. simpl.
  by destruct b1, b2, (c_blocked c).
Qed.

Lemma no_eintr_suffix (s1 s2 : list send_outcome) :
  s1 `suffix_of` s2 → no_eintr s2 → no_eintr s1.
Proof. intros [k ->] H. by apply Forall_app in H as [_ ?]. Qed.

Lemma drain_loop_drained force_len rb w0 fuel : ∀ total wlen sk c po,
  c_poller c = Some id → c_fd c = fd → c_rbc c = Some r →
  consumers w0 !! r = Some rb →
  Z.of_nat (length (rb_pending rb)) ≤ SIZE_MAX →
  0 ≤ total ≤ Z.of_nat (length (rb_pending rb)) → 0 ≤ wlen →
  (length (rb_pending rb) - Z.to_nat total < fuel)%nat →
  ∃ total' wlen' b sk',
    drain_loop fuel p force_len (negb (force_len =? 0)) total wlen
      (conn p c id po fd sk w0) =
    Some (total', wlen',
          conn p (client_after b c) id (poller_after b c po) fd sk' w0) ∧
    drained (rb_pending rb) force_len total sk sk' total' wlen' b.
Proof.
  pose proof size_bounds as [Hs0 Hs1].
  induction fuel as [|fuel IH];
    intros total wlen sk c po Hid Hfd Hr Hrb Hmax Htotal Hwlen Hfuel; [lia|].
  assert (∃ k, sk_flags sk =
               sk_flags sk ++ replicate k (send_flags (negb (force_len =? 0))))
    as Hk0 by (exists O; simpl; by rewrite app_nil_r).
  cbn [drain_loop]. rewrite (heap_conn p id fd). cbn [mbind option_bind].
  rewrite Hr. cbn [mbind option_bind].
  rewrite (consumers_conn p id fd), Hrb. cbn [mbind option_bind].
  destruct (decide (total = Z.of_nat (length (rb_pending rb)))) as [Hend|Hmore].
  { (* nothing remains *)
    rewrite peek_empty by (unfold ringbuffer_len; lia). simpl.
    exists total, wlen, false, sk.
    rewrite client_after_false, poller_after_false. split; [done|].
    unfold drained. split_and!; try done; try lia.
    intros _. rewrite Z.sub_diag. simpl. rewrite range_nil, app_nil_r.
    split_and!; try done; try lia. }
  destruct (peek_run rb total) as (n & Hn0 & Hn & Hrun & Hlen);
    [unfold ringbuffer_len; lia|]. unfold ringbuffer_len in Hn.
  rewrite Hlen. destruct (Z.eqb_spec (Z.of_nat n) 0); [lia|].
  destruct (send_all_sent_all p id fd (ringbuffer_dequeue_peek rb total)
              (Z.of_nat n) (negb (force_len =? 0)) c po sk w0)
    as (ret & b1 & sk1 & -> & Hsent); [done|done|lia|].
  cbn [mbind option_bind].
  destruct Hsent as (Hret & _ & Hb1 & [k1 Hk1] & Hin1 & Hsuf1 & Hwire1).
  assert (b1 = true → force_len = 0) as Hb1f.
  { intros Hb. apply Hb1 in Hb as [Hb _].
    destruct (Z.eqb_spec force_len 0); done. }
  assert (take (Z.to_nat ret) (ringbuffer_dequeue_peek rb total)
          = range (rb_pending rb) (Z.to_nat total) (Z.to_nat ret)) as Htake.
  { rewrite Hrun, take_range. f_equal. lia. }
  destruct (Z.leb_spec ret 0) as [Hnon|Hpos].
  { (* the first non-positive result ends the loop *)
    exists total, ret, b1, sk1. split; [done|].
    unfold drained. split_and!; try done; try lia.
    - by exists k1.
    - intros Hno. destruct Hwire1 as (Hw1 & Hw2 & Hw3); [done|].
      rewrite Z.sub_diag. simpl. rewrite range_nil, app_nil_r.
      split_and!.
      + intros H0. rewrite (Hw1 H0). assert (ret = 0) as -> by lia.
        simpl. by rewrite app_nil_r.
      + intros _ H0. right. apply Hw2. lia.
      + intros Hs Hsm. destruct (Hw3 Hs) as [? _]; lia. }
  assert (0 < ret ≤ Z.of_nat n) as Hret' by lia.
  rewrite to_size_small by lia.
  destruct (negb (force_len =? 0) && (force_len <=? total + ret)) eqn:Hforce.
  { (* a forced drain has sent enough *)
    apply andb_true_iff in Hforce as [Hf1 Hf2].
    apply Z.leb_le in Hf2.
    assert (force_len ≠ 0) as Hfne by (by intros ->).
    exists (total + ret), ret, b1, sk1. split; [done|].
    unfold drained. split_and!; try done; try lia.
    - by exists k1.
    - intros Hno. destruct Hwire1 as (Hw1 & Hw2 & Hw3); [done|].
      split_and!; try done.
      + intros _. rewrite Hw1, Htake by lia. do 2 f_equal. lia.
      + intros Hs Hsm. destruct (Hw3 Hs) as [? ->]; [lia|].
        split_and!; try done; try lia. }
  (* the next run *)
  edestruct (IH (total + ret) ret sk1 (client_after b1 c) (poller_after b1 c po))
    as (total' & wlen' & b2 & sk' & -> & Hdr); try done; try lia.
  exists total', wlen', (b1 || b2), sk'.
  rewrite client_after_after, poller_after_after. split; [done|].
  destruct Hdr as (Ht & Hexit & Hb2 & [k2 Hk2] & Hin2 & Hsuf2 & Hwire2).
  unfold drained. split_and!; try done; try lia.
  - intros [->| ->]%orb_true_iff; auto.
  - exists (k1 + k2)%nat. rewrite Hk2, Hk1, replicate_add.
    by rewrite <- (assoc_L (++)).
  - congruence.
  - by etrans.
  - intros Hno. destruct Hwire1 as (Hw1 & Hw2 & Hw3); [done|].
    destruct Hwire2 as (Hv1 & Hv2 & Hv3); [by eapply no_eintr_suffix|].
    split_and!.
    + intros H0. rewrite (Hv1 H0), Hw1, Htake by lia.
      rewrite <- (assoc_L (++)). f_equal.
      replace (Z.to_nat (total + ret)) with (Z.to_nat total + Z.to_nat ret)%nat by lia.
      rewrite range_app. f_equal. lia.
    + intros Hf H0. destruct (Hv2 Hf H0) as [?| ->]; [by left|].
      right. apply orb_true_r.
    + intros Hs Hsm. destruct (Hw3 Hs) as [_ ->]; [lia|].
      rewrite Hs in Hsuf1. apply suffix_nil_inv in Hsuf1.
      destruct (Hv3 Hsuf1 Hsm) as (? & -> & ?). done.
Qed.
End drain_facts.
Section drain_queue_facts.
Context (p : nat) (id : nat) (fd : Z) (r : nat).
Implicit Types (c : client) (po : poller) (sk : socket) (w : world)
  (rb : consumer).

Lemma set_consumers_conn m c po sk w :
  set_consumers m (conn p c id po fd sk w) = conn p c id po fd sk (set_consumers m w).
Proof. done. Qed.

Lemma drain_fuel_conn c po sk rb w :
  c_rbc c = Some r → consumers w !! r = Some rb →
  drain_fuel p (conn p c id po fd sk w) = S (length (rb_pending rb)).
Proof.
  intros Hr Hrb. unfold drain_fuel. rewrite (heap_conn p id fd).
  cbn [mbind option_bind]. rewrite Hr. cbn [mbind option_bind].
  by rewrite (consumers_conn p id fd), Hrb.
Qed.

Lemma client_drain_queue_blocked w c :
  heap w !! p = Some c → c_blocked c = true →
  client_drain_queue p 0 w = Some (0, w).
Proof. intros Hc Hb. unfold client_drain_queue. rewrite Hc. simpl. by rewrite Hb. Qed.

Lemma client_drain_queue_conn force_len c po sk rb w0 :
  c_poller c = Some id → c_fd c = fd → c_rbc c = Some r →
  consumers w0 !! r = Some rb →
  Z.of_nat (length (rb_pending rb)) ≤ SIZE_MAX →
  ¬ (force_len = 0 ∧ c_blocked c = true) →
  ∃ total wlen b sk',
    drain_loop (drain_fuel p (conn p c id po fd sk w0)) p force_len
      (negb (force_len =? 0)) 0 0 (conn p c id po fd sk w0) =
    Some (total, wlen,
          conn p (client_after b c) id (poller_after b c po) fd sk' w0) ∧
    drained (rb_pending rb) force_len 0 sk sk' total wlen b ∧
    client_drain_queue p force_len (conn p c id po fd sk w0) =
    Some (drain_result force_len total wlen,
          conn p (client_after b c) id (poller_after b c po) fd sk'
            (if drain_result force_len total wlen =? 0
             then set_consumers
                    (<[r := ringbuffer_dequeue_commit rb total]> (consumers w0)) w0
             else w0)).
Proof.
  intros Hid Hfd Hr Hrb Hmax Hnb.
  destruct (drain_loop_drained p id fd r force_len rb w0 (S (length (rb_pending rb)))
              0 0 sk c po) as (total & wlen & b & sk' & Hloop & Hdr);
    try done; try lia.
  exists total, wlen, b, sk'.
  rewrite (drain_fuel_conn c po sk rb) by done.
  split; [done|]. split; [done|].
  unfold client_drain_queue. rewrite (heap_conn p id fd). cbn [mbind option_bind].
  assert (negb (negb (force_len =? 0)) && c_blocked c = false) as ->.
  { destruct (Z.eqb_spec force_len 0), (c_blocked c) eqn:?; try done.
    destruct Hnb; done. }
  rewrite (drain_fuel_conn c po sk rb) by done. rewrite Hloop.
  cbn [mbind option_bind]. unfold drain_result.
  destruct (wlen <? 0); cbn [orb]; [done|].
  destruct (negb (force_len =? 0) && (total <? force_len)); [done|].
  cbn [Z.eqb].
  rewrite (heap_conn p id fd). cbn [mbind option_bind].
  replace (c_rbc (client_after b c)) with (Some r) by done.
  cbn [mbind option_bind].
  rewrite (consumers_conn p id fd), Hrb. cbn [mbind option_bind].
  by rewrite set_consumers_conn.
Qed.
End drain_queue_facts.
Section close_facts.
Implicit Types (c : client) (w : world) (cs : list nat).

Lemma client_index_notin cs p i : p ∉ cs → client_index cs p i = (i + length cs)%nat.
Proof.
  revert i. induction cs as [|q cs IH]; intros i Hnot; simpl; [lia|].
  apply not_elem_of_cons in Hnot as [Hne Hnot].
  rewrite decide_False by done. rewrite IH by done. lia.
Qed.

Lemma client_index_in cs p i :
  p ∈ cs →
  (i ≤ client_index cs p i < i + length cs)%nat ∧
  cs !! (client_index cs p i - i)%nat = Some p.
Proof.
  revert i. induction cs as [|q cs IH]; intros i Hin; simpl.
  { by apply elem_of_nil in Hin. }
  destruct (decide (q = p)) as [->|Hne].
  - rewrite Nat.sub_diag. split; [lia|done].
  - apply elem_of_cons in Hin as [->|Hin]; [done|].
    destruct (IH (S i) Hin) as [Hr Hl]. split; [lia|].
    by replace (client_index cs p (S i) - i)%nat
      with (S (client_index cs p (S i) - S i)) by lia.
Qed.

Lemma delete_client_index cs p :
  NoDup cs → p ∈ cs →
  (p ∉ delete (client_index cs p 0) cs) ∧
  NoDup (delete (client_index cs p 0) cs) ∧
  ∀ q, q ≠ p → (q ∈ delete (client_index cs p 0) cs ↔ q ∈ cs).
Proof.
  intros Hnd Hin.
  destruct (client_index_in cs p 0 Hin) as [_ Hl]. rewrite Nat.sub_0_r in Hl.
  set (i := client_index cs p 0) in *. clearbody i.
  rewrite <- (take_drop_middle cs i p Hl) in Hnd.
  rewrite delete_take_drop.
  apply NoDup_app in Hnd as (Hnd1 & Hdisj & Hnd2).
  apply NoDup_cons in Hnd2 as [Hp2 Hnd2].
  split_and!.
  - intros [H1|H2]%elem_of_app; [|done]. apply (Hdisj p H1). by left.
  - apply NoDup_app. split_and!; [done| |done].
    intros x Hx1 Hx2. apply (Hdisj x Hx1). by right.
  - intros q Hq. rewrite <- (take_drop_middle cs i p Hl) at 3.
    rewrite !elem_of_app, elem_of_cons. tauto.
Qed.

(** The world after the close sequence of the client [c] at [p]. *)
Lemma client_close_in p w c :
  heap w !! p = Some c → p ∈ clients w →
  ∃ w', client_close p w = Some w' ∧
    trace w' = trace w ++ close_events p c ∧
    socks w' = delete (c_fd c) (socks w) ∧
    pollers w' = match c_poller c with
                 | Some id => delete id (pollers w) | None => pollers w end ∧
    consumers w' = match c_rbc c with
                   | Some r => delete r (consumers w) | None => consumers w end ∧
    heap w' = delete p (heap w) ∧
    clients w' = delete (client_index (clients w) p 0) (clients w) ∧
    con w' = con w ∧ handlers w' = handlers w.
Proof.
  intros Hc Hin. unfold client_close. rewrite Hc. cbn [mbind option_bind].
  destruct (client_index_in (clients w) p 0 Hin) as [Hidx _].
  unfold close_events.
  destruct (c_poller c), (c_rbc c); simpl;
    (destruct (Nat.ltb_spec (client_index (clients w) p 0) (length (clients w)));
     [simpl|lia]);
    (eexists; split; [reflexivity|]); simpl;
    rewrite <- ?(assoc_L (++)); done.
Qed.

Lemma client_close_absent p w c :
  heap w !! p = Some c → p ∉ clients w → client_close p w = None.
Proof.
  intros Hc Hnot. unfold client_close. rewrite Hc. cbn [mbind option_bind].
  assert (∀ w', clients w' = clients w →
    (client_index (clients w') p 0 <? length (clients w'))%nat = false) as Hidx.
  { intros w' ->. rewrite client_index_notin by done. apply Nat.ltb_ge. lia. }
  destruct (c_poller c), (c_rbc c); simpl; by rewrite Hidx.
Qed.

Lemma client_close_freed p w : heap w !! p = None → client_close p w = None.
Proof. intros Hc. unfold client_close. by rewrite Hc. Qed.
End close_facts.
Section send_answers.
Context (p : nat) (id : nat) (fd : Z).
Implicit Types (c : client) (po : poller) (sk : socket) (w : world).

(** What one answer of the kernel other than an interruption makes of
    the loop of [send_all], at any position inside the buffer: would-block
    in non-blocking mode marks the client blocked and returns the count
    sent so far; any other error, and a zero-length result, return -1. *)
Lemma send_all_loop_failures buf len block fuel pos sk c po w script :
  c_poller c = Some id → 0 ≤ pos < len → len ≤ SSIZE_MAX →
  len ≤ Z.of_nat (length buf) →
  let run sk0 :=
    send_all_loop (S fuel) p fd buf len block (send_flags block) pos
      (conn p c id po fd sk0 w) in
  let after wire :=
    mkSocket script wire (sk_flags sk ++ [send_flags block]) (sk_inbox sk) in
  (∀ e, sk_script sk = SendErrno e :: script →
     (block = false → e = EAGAIN ∨ e = EWOULDBLOCK →
        run sk = Some (pos, conn p (client_with_blocked true c) id
                              (poller_after true c po) fd (after (sk_wire sk)) w)) ∧
     (e ≠ EINTR → block = true ∨ (e ≠ EAGAIN ∧ e ≠ EWOULDBLOCK) →
        run sk = Some (-1, conn p c id po fd (after (sk_wire sk)) w))) ∧
  (sk_script sk = SendAccept 0 :: script →
     run sk = Some (-1, conn p c id po fd (after (sk_wire sk ++ [])) w)).
Proof.
  intros Hid Hpos Hmax Hbuf run after. subst run. cbn beta.
  cbn [send_all_loop]. destruct (Z.ltb_spec pos len); [|lia].
  rewrite (send_conn p id fd). split; [intros e Hs; split|intros Hs];
    rewrite Hs.
  - intros -> He. cbn [Z.ltb Z.compare negb andb].
    assert ((e =? EAGAIN) || (e =? EWOULDBLOCK) = true) as ->.
    { destruct He as [-> | ->]; done. }
    rewrite (client_set_blocked_conn p id fd) by done. cbn [mbind option_bind].
    rewrite to_ssize_small by lia. f_equal. f_equal.
    unfold poller_after. by destruct (c_blocked c).
  - intros Hne Hb. cbn [Z.ltb Z.compare].
    assert (negb block && ((e =? EAGAIN) || (e =? EWOULDBLOCK)) = false) as ->.
    { destruct Hb as [-> |[H1 H2]]; [done|].
      destruct (Z.eqb_spec e EAGAIN), (Z.eqb_spec e EWOULDBLOCK); try done.
      apply andb_false_r. }
    by destruct (Z.eqb_spec e EINTR).
  - by rewrite take_0.
Qed.
End send_answers.
Section send_interrupted.
Context (p : nat) (id : nat) (fd : Z).
Implicit Types (c : client) (po : poller) (sk : socket) (w : world).

(** An interrupted call, at any position inside the buffer: the loop
    goes on one byte before the position it had reached, or, from
    position 0, at [SIZE_MAX], where it ends with the result -1. *)
Lemma send_all_loop_interrupted buf len block fuel pos sk c po w script :
  0 ≤ pos < len → len ≤ SSIZE_MAX →
  sk_script sk = SendErrno EINTR :: script →
  let sk1 := mkSocket script (sk_wire sk) (sk_flags sk ++ [send_flags block])
               (sk_inbox sk) in
  send_all_loop (S fuel) p fd buf len block (send_flags block) pos
    (conn p c id po fd sk w) =
  send_all_loop fuel p fd buf len block (send_flags block)
    (if pos =? 0 then SIZE_MAX else pos - 1) (conn p c id po fd sk1 w) ∧
  send_all_loop fuel p fd buf len block (send_flags block) SIZE_MAX
    (conn p c id po fd sk1 w) = Some (-1, conn p c id po fd sk1 w).
Proof.
  pose proof size_bounds as [Hs0 Hs1].
  intros Hpos Hmax Hs sk1. split.
  - cbn [send_all_loop]. destruct (Z.ltb_spec pos len); [|lia].
    rewrite (send_conn p id fd), Hs. cbn [Z.ltb Z.compare].
    rewrite andb_false_r. cbn [Z.eqb EINTR Pos.eqb].
    destruct (Z.eqb_spec pos 0) as [->|Hne].
    + by rewrite to_size_minus_one.
    + rewrite to_size_small by lia. by replace (pos + -1) with (pos - 1) by lia.
  - destruct fuel; cbn [send_all_loop];
      (destruct (Z.ltb_spec SIZE_MAX len); [lia|]); by rewrite to_ssize_max.
Qed.
End send_interrupted.

(** ** The parser, byte by byte *)

Section runs.
Implicit Types (con : console) (buf : list Z) (begin pos : nat).

Lemma client_poll_loop_mono fuel : ∀ fuel' con buf begin (end_ : nat) r,
  client_poll_loop fuel con buf begin end_ = Some r → (fuel ≤ fuel')%nat →
  client_poll_loop fuel' con buf begin end_ = Some r.
Proof.
  induction fuel as [|fuel IH]; intros fuel' con buf begin end_ r; simpl.
  - destruct (Nat.ltb_spec begin end_); [done|]. intros Hr _.
    destruct fuel'; simpl; by destruct (Nat.ltb_spec begin end_); try lia.
  - destruct (Nat.ltb_spec begin end_) as [Hlt|Hge].
    + intros Hr Hle. destruct fuel' as [|fuel']; [lia|]. simpl.
      destruct (Nat.ltb_spec begin end_); [|lia].
      destruct (process_buffer_range con buf begin end_) as [[c1 p1]|];
        simpl in *; [|done]. apply IH; [done|lia].
    + intros Hr _. destruct fuel'; simpl;
        by destruct (Nat.ltb_spec begin end_); try lia.
Qed.

Lemma client_poll_loop_run fuel con buf begin (end_ : nat) :
  (begin ≤ end_)%nat → (end_ ≤ length buf)%nat →
  (2 * (end_ - begin) ≤
     fuel + (if decide (state con = escape_idle) then 1 else 0))%nat →
  client_poll_loop fuel con buf begin end_ = run con buf begin end_.
Proof.
  intros Hle Hlen Hfuel.
  destruct (client_poll_loop_enough fuel con buf begin end_ Hle Hlen Hfuel)
    as [c1 H1].
  destruct (client_poll_loop_enough (2 * (end_ - begin)) con buf begin end_
              Hle Hlen) as [c2 H2]; [case_decide; lia|].
  unfold run. rewrite H1, H2.
  destruct (Nat.le_ge_cases fuel (2 * (end_ - begin))) as [Hf|Hf].
  - by rewrite (client_poll_loop_mono _ _ _ _ _ _ _ H1 Hf) in H2.
  - by rewrite (client_poll_loop_mono _ _ _ _ _ _ _ H2 Hf) in H1.
Qed.

Lemma run_end con buf (end_ : nat) : run con buf end_ end_ = Some (con, end_).
Proof.
  unfold run. rewrite Nat.sub_diag. simpl.
  by destruct (Nat.ltb_spec end_ end_); [lia|].
Qed.

Lemma run_unfold con buf begin (end_ : nat) :
  (begin < end_)%nat → (end_ ≤ length buf)%nat →
  run con buf begin end_ =
  '(con', pos) ← process_buffer_range con buf begin end_; run con' buf pos end_.
Proof.
  intros Hlt Hlen. unfold run at 1.
  destruct (2 * (end_ - begin))%nat as [|fuel] eqn:Hfuel; [lia|].
  cbn [client_poll_loop]. destruct (Nat.ltb_spec begin end_); [|lia].
  destruct (process_buffer_range_total con buf begin end_ Hlt Hlen)
    as (con' & pos & Hrun & Hpos & Hidle & Hback).
  rewrite Hrun. cbn [mbind option_bind].
  apply client_poll_loop_run; [lia|done|].
  destruct (decide (pos = begin)) as [->|Hne].
  - rewrite decide_True by auto. lia.
  - case_decide; lia.
Qed.

Lemma client_poll_feed_run con data :
  client_poll_feed con data = fst <$> run con data 0 (length data).
Proof. unfold client_poll_feed, run. by rewrite Nat.sub_0_r. Qed.
End runs.

Section shifts.
Implicit Types (con : console) (buf y : list Z) (begin pos : nat) (x b c : Z).

Lemma memchr_from_S s c n : ∀ base,
  memchr_from s c n (S base) = S <$> memchr_from s c n base.
Proof.
  revert s. induction n as [|n IH]; intros [|x s] base; simpl; try done.
  destruct (x =? c); [done|]. apply IH.
Qed.

Lemma memchr_cons_S x y begin c n :
  memchr (x :: y) (S begin) c n = S <$> memchr y begin c n.
Proof. unfold memchr. simpl. apply memchr_from_S. Qed.

Lemma memchr_cons_0 x y c n :
  memchr (x :: y) 0 c (S n) = if x =? c then Some O else S <$> memchr y 0 c n.
Proof.
  unfold memchr. simpl. destruct (x =? c); [done|]. apply memchr_from_S.
Qed.

Lemma range_cons_S x y begin len :
  range (x :: y) (S begin) len = range y begin len.
Proof. done. Qed.

Lemma range_cons_0 x y len : range (x :: y) 0 (S len) = x :: range y 0 len.
Proof. done. Qed.

Lemma process_buffer_range_cons_S con x y begin (end_ : nat) :
  process_buffer_range con (x :: y) (S begin) (S end_) =
  shift <$> process_buffer_range con y begin end_.
Proof.
  unfold process_buffer_range.
  change (S begin <? S end_)%nat with (begin <? end_)%nat.
  destruct (Nat.ltb_spec begin end_) as [Hlt|Hge]; cbn [negb]; [|done].
  change ((x :: y) !! S begin) with (y !! begin).
  destruct (state con).
  - change (S end_ - S begin)%nat with (end_ - begin)%nat.
    rewrite !memchr_cons_S.
    destruct (memchr y begin CR (end_ - begin)) as [c|]; cbn [fmap option_fmap option_map].
    { unfold shift. cbn [fst snd]. do 2 f_equal. }
    destruct (memchr y begin LF (end_ - begin)) as [c|]; cbn [fmap option_fmap option_map].
    { unfold shift. cbn [fst snd]. do 2 f_equal. }
    done.
  - destruct (y !! begin) as [b|]; cbn [mbind option_bind fmap option_fmap option_map]; [|done].
    destruct (b =? LF); [|by destruct (b =? tilde)].
    unfold shift. cbn [fst snd]. do 2 f_equal.
  - destruct (y !! begin) as [b|]; cbn [mbind option_bind fmap option_fmap option_map]; [|done].
    by destruct (b =? tilde).
  - destruct (y !! begin) as [b|]; cbn [mbind option_bind fmap option_fmap option_map]; [|done].
    destruct (b =? char_B); [done|]. by destruct (b =? tilde).
Qed.

Lemma client_poll_loop_cons_S fuel : ∀ con x y begin (end_ : nat),
  client_poll_loop fuel con (x :: y) (S begin) (S end_) =
  shift <$> client_poll_loop fuel con y begin end_.
Proof.
  induction fuel as [|fuel IH]; intros con x y begin end_;
    cbn [client_poll_loop];
    change (S begin <? S end_)%nat with (begin <? end_)%nat;
    destruct (begin <? end_)%nat; try done.
  rewrite process_buffer_range_cons_S.
  destruct (process_buffer_range con y begin end_) as [[c1 p1]|]; [|done].
  cbn [fmap option_fmap option_map mbind option_bind shift fst snd].
  apply IH.
Qed.

Lemma run_cons_S con x y begin (end_ : nat) :
  run con (x :: y) (S begin) (S end_) = shift <$> run con y begin end_.
Proof. apply client_poll_loop_cons_S. Qed.
End shifts.

Section bytewise.
Implicit Types (con : console) (buf y : list Z) (begin pos : nat) (x b c : Z).

Lemma memchr_from_absent s c n base :
  c ∉ s → memchr_from s c n base = None.
Proof.
  revert s base. induction n as [|n IH]; intros [|x s] base Hc; simpl; try done.
  destruct (Z.eqb_spec x c) as [->|Hne].
  - exfalso. apply Hc. by left.
  - apply IH. intros Hin. apply Hc. by right.
Qed.

Lemma memchr_absent y c n : c ∉ y → memchr y 0 c n = None.
Proof. apply memchr_from_absent. Qed.

Lemma set_state_same con : set_state (state con) con = con.
Proof. by destruct con. Qed.

Lemma fst_shift (r : option (console * nat)) : fst <$> (shift <$> r) = fst <$> r.
Proof. by destruct r as [[??]|]. Qed.

Lemma idle_single con b :
  state con = escape_idle →
  process_buffer_range con [b] 0 1 =
    Some (console_data_out (set_state (byte_state b) con) [b], 1%nat).
Proof.
  intros Hst. unfold process_buffer_range, byte_state. rewrite Hst.
  cbn [Nat.ltb Nat.leb negb Nat.sub]. rewrite !memchr_cons_0.
  destruct (b =? CR); [done|]. destruct (b =? LF); [done|].
  unfold memchr. simpl. by rewrite <- Hst.
Qed.

Lemma idle_head_newline con b y n :
  state con = escape_idle → is_newline b = true → (b = LF → CR ∉ y) →
  process_buffer_range con (b :: y) 0 (S n) =
    Some (console_data_out (set_state (byte_state b) con) [b], 1%nat).
Proof.
  intros Hst Hnl Hcr. unfold process_buffer_range, byte_state. rewrite Hst.
  cbn [Nat.ltb Nat.leb negb Nat.sub]. rewrite !memchr_cons_0.
  destruct (Z.eqb_spec b CR) as [->|Hb]; [done|].
  apply is_newline_true in Hnl as [->| ->]; [done|].
  rewrite memchr_absent by auto. done.
Qed.

Lemma idle_head_plain con b x y n :
  state con = escape_idle → is_newline b = false →
  process_buffer_range con (b :: x :: y) 0 (S (S n)) =
    shift <$> process_buffer_range (console_data_out con [b]) (x :: y) 0 (S n).
Proof.
  intros Hst Hnl. unfold process_buffer_range.
  cbn [Nat.ltb Nat.leb negb Nat.sub console_data_out state]. rewrite Hst.
  rewrite (memchr_cons_0 b), (memchr_cons_0 b).
  apply orb_false_iff in Hnl as [-> ->].
  assert (∀ st k, console_data_out (set_state st con) (range (b :: x :: y) 0 (S k))
    = console_data_out
        (set_state st {| state := escape_idle; tty := tty con ++ (TtyByte <$> [b]) |})
        (range (x :: y) 0 k)) as Hcon.
  { intros st k. unfold console_data_out, set_state. cbn [state tty].
    rewrite range_cons_0, fmap_cons. f_equal.
    by rewrite <- (assoc_L (++)). }
  destruct (memchr (x :: y) 0 CR (S n)) as [c|];
    cbn [fmap option_fmap option_map].
  { unfold shift. cbn [fst snd]. rewrite !Nat.sub_0_r.
    replace (S c + 1)%nat with (S (c + 1)) by lia.
    by rewrite Hcon. }
  destruct (memchr (x :: y) 0 LF (S n)) as [c|];
    cbn [fmap option_fmap option_map].
  { unfold shift. cbn [fst snd]. rewrite !Nat.sub_0_r.
    replace (S c + 1)%nat with (S (c + 1)) by lia. by rewrite Hcon. }
  unfold shift. cbn [fst snd]. rewrite !Nat.sub_0_r. by rewrite Hcon.
Qed.

Lemma run_after_head con b y :
  fst <$> run con (b :: y) 1 (S (length y)) = fst <$> run con y 0 (length y).
Proof. by rewrite run_cons_S, fst_shift. Qed.

Lemma client_poll_feed_cons_idle con b y :
  state con = escape_idle → (b = LF → CR ∉ y) →
  fst <$> run con (b :: y) 0 (S (length y)) =
  con1 ← fst <$> run con [b] 0 1; fst <$> run con1 y 0 (length y).
Proof.
  intros Hst Hcr.
  rewrite (run_unfold con [b]) by (simpl; lia).
  rewrite idle_single by done. cbn [mbind option_bind].
  rewrite run_end. cbn [fmap option_fmap option_map mbind option_bind fst].
  rewrite run_unfold by (simpl; lia).
  destruct (is_newline b) eqn:Hnl.
  - rewrite idle_head_newline by done. cbn [mbind option_bind].
    apply run_after_head.
  - destruct y as [|x y].
    + rewrite idle_single by done. cbn [mbind option_bind].
      by rewrite !run_end.
    + cbn [length]. rewrite idle_head_plain by done.
      assert (console_data_out (set_state (byte_state b) con) [b] =
              console_data_out con [b]) as ->.
      { unfold byte_state. apply orb_false_iff in Hnl as [-> ->].
        by rewrite <- Hst, set_state_same. }
      rewrite (run_unfold _ (x :: y)) by (simpl; lia).
      destruct (process_buffer_range _ (x :: y) 0 _) as [[c1 p1]|];
        cbn [fmap option_fmap option_map mbind option_bind shift fst snd];
        [|done].
      by rewrite (run_cons_S c1 b (x :: y) p1 (S (length y))), fst_shift.
Qed.

(** A read of [b :: y] is a read of [b] followed by a read of [y], unless
    [b] is a line feed met by the idle scan and a carriage return follows
    in [y]. *)
Lemma client_poll_feed_cons con b y :
  (b = LF → state con = escape_cr ∨ CR ∉ y) →
  client_poll_feed con (b :: y) =
  con1 ← client_poll_feed con [b]; client_poll_feed con1 y.
Proof.
  intros Hcr. rewrite (client_poll_feed_run con).
  rewrite (client_poll_feed_run con [b]).
  cbn [length].
  transitivity (con1 ← fst <$> run con [b] 0 1; fst <$> run con1 y 0 (length y));
    [|destruct (fst <$> run con [b] 0 1); cbn [mbind option_bind];
      by rewrite ?client_poll_feed_run].
  destruct (state con) eqn:Hst.
  - apply client_poll_feed_cons_idle; [done|].
    intros Hb. by destruct (Hcr Hb).
  - rewrite (run_unfold con (b :: y)), (run_unfold con [b]) by (simpl; lia).
    unfold process_buffer_range. rewrite Hst.
    cbn [Nat.ltb Nat.leb negb lookup list_lookup mbind option_bind].
    destruct (Z.eqb_spec b LF) as [->|HnLF].
    { cbn [mbind option_bind]. rewrite run_end.
      cbn [fmap option_fmap option_map mbind option_bind fst].
      apply run_after_head. }
    destruct (b =? tilde).
    { cbn [mbind option_bind]. rewrite run_end.
      cbn [fmap option_fmap option_map mbind option_bind fst].
      apply run_after_head. }
    cbn [mbind option_bind]. by apply client_poll_feed_cons_idle.
  - assert (b = LF → CR ∉ y) by (intros Hb; by destruct (Hcr Hb)).
    rewrite (run_unfold con (b :: y)), (run_unfold con [b]) by (simpl; lia).
    unfold process_buffer_range. rewrite Hst.
    cbn [Nat.ltb Nat.leb negb lookup list_lookup mbind option_bind].
    destruct (b =? tilde).
    { cbn [mbind option_bind]. rewrite run_end.
      cbn [fmap option_fmap option_map mbind option_bind fst].
      apply run_after_head. }
    cbn [mbind option_bind]. by apply client_poll_feed_cons_idle.
  - assert (b = LF → CR ∉ y) by (intros Hb; by destruct (Hcr Hb)).
    rewrite (run_unfold con (b :: y)), (run_unfold con [b]) by (simpl; lia).
    unfold process_buffer_range. rewrite Hst.
    cbn [Nat.ltb Nat.leb negb lookup list_lookup mbind option_bind].
    destruct (b =? char_B).
    { cbn [mbind option_bind]. rewrite run_end.
      cbn [fmap option_fmap option_map mbind option_bind fst].
      apply run_after_head. }
    destruct (b =? tilde); cbn [mbind option_bind];
      by apply client_poll_feed_cons_idle.
Qed.

(** A read of one byte, state by state. *)
Lemma client_poll_feed_single con b :
  client_poll_feed con [b] = Some (byte_step con b).
Proof.
  assert (∀ con1, state con1 = escape_idle →
            fst <$> run con1 [b] 0 1 = Some (idle_byte con1 b)) as Hidle.
  { intros con1 Hst1. rewrite run_unfold by (simpl; lia).
    rewrite idle_single by done. cbn [mbind option_bind].
    by rewrite run_end. }
  rewrite client_poll_feed_run. cbn [length]. unfold byte_step.
  destruct (state con) eqn:Hst; [by apply Hidle|..];
    rewrite run_unfold by (simpl; lia);
    unfold process_buffer_range; rewrite Hst;
    cbn [Nat.ltb Nat.leb negb lookup list_lookup mbind option_bind].
  - destruct (b =? LF).
    { cbn [mbind option_bind]. by rewrite run_end. }
    destruct (b =? tilde); cbn [mbind option_bind];
      [by rewrite run_end|by apply Hidle].
  - destruct (b =? tilde); cbn [mbind option_bind];
      [by rewrite run_end|by apply Hidle].
  - destruct (b =? char_B).
    { cbn [mbind option_bind]. by rewrite run_end. }
    destruct (b =? tilde); cbn [mbind option_bind]; by apply Hidle.
Qed.
End bytewise.

Section chunks.
Implicit Types (con : console) (s y : list Z) (b : Z) (reads : list (list Z)).

Lemma feed_reads_app con reads1 reads2 :
  feed_reads con (reads1 ++ reads2) =
  con1 ← feed_reads con reads1; feed_reads con1 reads2.
Proof.
  revert con. induction reads1 as [|data reads1 IH]; intros con; simpl; [done|].
  destruct (client_poll_feed con data); simpl; [apply IH|done].
Qed.

Lemma feed_reads_bytewise s : ∀ con,
  feed_reads con (bytewise s) = Some (foldl byte_step con s).
Proof.
  induction s as [|b s IH]; intros con; [done|].
  unfold bytewise. rewrite fmap_cons. cbn [feed_reads foldl].
  rewrite client_poll_feed_single. cbn [mbind option_bind]. apply IH.
Qed.

Lemma concat_bytewise s : concat (bytewise s) = s.
Proof. induction s as [|b s IH]; [done|]. simpl. by rewrite IH. Qed.

(** After a read of one byte the parser is in the state [escape_cr]
    exactly when the byte is a carriage return. *)
Lemma byte_step_cr con b :
  bool_decide (state (byte_step con b) = escape_cr) = (b =? CR).
Proof.
  assert (∀ con1, bool_decide (state (idle_byte con1 b) = escape_cr) = (b =? CR))
    as Hidle.
  { intros con1. unfold idle_byte, byte_state. simpl.
    destruct (b =? CR); [done|]. by destruct (b =? LF). }
  unfold byte_step. destruct (state con); [done|..].
  - destruct (Z.eqb_spec b LF) as [->|_]; [done|].
    destruct (Z.eqb_spec b tilde) as [->|_]; [done|]. apply Hidle.
  - destruct (Z.eqb_spec b tilde) as [->|_]; [done|]. apply Hidle.
  - destruct (Z.eqb_spec b char_B) as [->|_]; [done|].
    destruct (Z.eqb_spec b tilde) as [->|_]; apply Hidle.
Qed.

Lemma existsb_CR_false s : existsb (Z.eqb CR) s = false → CR ∉ s.
Proof.
  induction s as [|x s IH]; cbn [existsb]; [intros _; apply not_elem_of_nil|].
  intros [Hx%Z.eqb_neq Hs]%orb_false_iff [Heq|Hin]%elem_of_cons;
    [done|by apply IH].
Qed.

Lemma lf_before_cr_weaken s : ∀ after_cr,
  lf_before_cr false s = false → lf_before_cr after_cr s = false.
Proof.
  destruct s as [|b s]; intros after_cr; simpl; [done|].
  intros [H1 H2]%orb_false_iff. rewrite H2, orb_false_r.
  destruct after_cr; [by rewrite andb_false_r|done].
Qed.

Lemma lf_before_cr_app s : ∀ con y,
  lf_before_cr (bool_decide (state con = escape_cr)) (s ++ y) = false →
  lf_before_cr (bool_decide (state con = escape_cr)) s = false ∧
  lf_before_cr (bool_decide (state (foldl byte_step con s) = escape_cr)) y = false.
Proof.
  induction s as [|b s IH]; intros con y; simpl; [done|].
  intros [H1 H2]%orb_false_iff.
  rewrite <- (byte_step_cr con b) in H2. apply IH in H2 as [H2 H3].
  split; [|done]. rewrite byte_step_cr in H2. rewrite H2, orb_false_r.
  rewrite existsb_app in H1.
  destruct (b =? LF); [|done]. destruct (negb _); [|done]. simpl in *.
  by apply orb_false_iff in H1 as [-> _].
Qed.

(** A read in which the idle scan passes over no line feed is the same
    as its bytes read one at a time. *)
Lemma client_poll_feed_bytes s : ∀ con,
  lf_before_cr (bool_decide (state con = escape_cr)) s = false →
  client_poll_feed con s = Some (foldl byte_step con s).
Proof.
  induction s as [|b s IH]; intros con; [done|]. simpl.
  intros [H1 H2]%orb_false_iff.
  rewrite client_poll_feed_cons, client_poll_feed_single.
  - cbn [mbind option_bind]. apply IH. by rewrite byte_step_cr.
  - intros ->. simpl in H1. case_bool_decide; [by left|]. simpl in H1.
    right. by apply existsb_CR_false.
Qed.

(** Reads in which the idle scan passes over no line feed are parsed like
    their bytes one at a time. *)
Lemma feed_reads_bytes reads : ∀ con,
  lf_before_cr (bool_decide (state con = escape_cr)) (concat reads) = false →
  feed_reads con reads = Some (foldl byte_step con (concat reads)).
Proof.
  induction reads as [|data reads IH]; intros con; [done|]. simpl.
  intros [H1 H2]%lf_before_cr_app.
  rewrite client_poll_feed_bytes by done. cbn [mbind option_bind].
  rewrite foldl_app. by apply IH.
Qed.

(** Chunking.  Two divisions of the same input into reads leave the
    same console, from any state, when the input has no line feed that
    the idle scan can pass over. *)
Theorem feed_reads_chunking con reads1 reads2 :
  concat reads1 = concat reads2 →
  lf_before_cr false (concat reads1) = false →
  feed_reads con reads1 = feed_reads con reads2.
Proof.
  intros Hcat Hlf.
  rewrite !feed_reads_bytes; [by rewrite Hcat|..];
    apply lf_before_cr_weaken; congruence.
Qed.
End chunks.

Section unescaped.
Implicit Types (con : console) (s y : list Z) (b : Z) (reads : list (list Z)).

(** From the idle state an input without an escape sequence goes to the
    tty log unchanged, except a leader that ends it. *)
Lemma feed_reads_unescaped_log con reads :
  state con = escape_idle →
  has_escape (concat reads) = false →
  ∃ con', feed_reads con reads = Some con' ∧
    (state con' = escape_leader ↔ ends_with_leader (concat reads) = true) ∧
    tty con' = tty con ++
      (TtyByte <$> (if ends_with_leader (concat reads)
                    then removelast (concat reads) else concat reads)).
Proof.
  intros Hidle Hesc.
  assert (parsed con con []) as Hinv0.
  { unfold parsed. rewrite Hidle. simpl. by rewrite app_nil_r. }
  destruct (parsed_reads con reads con [] Hinv0 Hesc) as (con' & Hfeed & Hinv).
  assert (idle_settled con' (concat reads) []) as Hset.
  { apply (idle_settled_reads con reads con [] con'); try done.
    intros _. split; [done|]. intros q x _ Heq. by destruct q. }
  simpl in Hinv. exists con'. split; [done|].
  unfold parsed in Hinv.
  assert (∀ x, last (concat reads) = Some x → x ≠ tilde →
               ends_with_leader (concat reads) = false) as Hlast.
  { intros x Hx Hne. apply not_true_iff_false.
    intros (q & y & Heq & _)%ends_with_leader_inv. rewrite Heq in Hx.
    replace (q ++ [y; tilde]) with ((q ++ [y]) ++ [tilde]) in Hx
      by (by rewrite <- (assoc_L (++))).
    rewrite last_snoc in Hx. congruence. }
  destruct (state con') eqn:Hst.
  - assert (ends_with_leader (concat reads) = false) as ->.
    { apply not_true_iff_false.
      intros (q & x & Heq & Hx)%ends_with_leader_inv.
      destruct (Hset Hst) as [_ Hno]. by apply (Hno q x). }
    split; [by split|done].
  - destruct Hinv as [Hinv Hl]. rewrite (Hlast CR) by done.
    split; [by split|done].
  - destruct Hinv as [Hinv Hl]. rewrite (Hlast LF) by done.
    split; [by split|done].
  - destruct Hinv as (q & nl & Hq & Hnl & Hinv).
    rewrite Hq, (ends_with_leader_snoc _ _ Hnl), Hinv.
    split; [done|].
    replace (q ++ [nl; tilde]) with ((q ++ [nl]) ++ [tilde])
      by (by rewrite <- (assoc_L (++))).
    by rewrite removelast_last.
Qed.

Lemma has_escape_snoc s x t :
  has_escape (s ++ [x]) = false → x ≠ tilde →
  has_escape ((s ++ [x]) ++ [t]) = false.
Proof.
  intros Hesc Hx. induction s as [|a s IH]; simpl in *.
  - by destruct (is_newline x), (is_newline t).
  - apply orb_false_iff in Hesc as [H1 H2].
    rewrite IH by done. rewrite orb_false_r.
    destruct (is_newline a); [|done]. simpl in *.
    destruct s as [|c [|d s]]; simpl in *; try done.
    by destruct (Z.eqb_spec x tilde).
Qed.
End unescaped.

Section context.
Implicit Types (con : console) (b : Z) (reads : list (list Z)).

Lemma foldl_byte_step_unescaped con (s : list Z) :
  state con = escape_idle → has_escape s = false →
  (state (foldl byte_step con s) = escape_leader ↔ ends_with_leader s = true) ∧
  tty (foldl byte_step con s) =
    tty con ++ (TtyByte <$> (if ends_with_leader s then removelast s else s)).
Proof.
  intros Hst Hesc.
  destruct (feed_reads_unescaped_log con (bytewise s)) as (con' & Hfeed & H);
    [done|by rewrite concat_bytewise|].
  rewrite feed_reads_bytewise in Hfeed. injection Hfeed as <-.
  by rewrite concat_bytewise in H.
Qed.

(** A newline sequence ends in a newline byte. *)
Lemma newline_last (nl : list Z) :
  nl ∈ [[CR]; [LF]; [CR; LF]] →
  ∃ q x, nl = q ++ [x] ∧ is_newline x = true.
Proof.
  intros Hnl. repeat (apply elem_of_cons in Hnl as [->|Hnl]).
  - by exists [], CR.
  - by exists [], LF.
  - by exists [CR], LF.
  - by apply elem_of_nil in Hnl.
Qed.

(** An escape sequence inside a longer input: when the bytes before and
    after it hold no other escape sequence, and no line feed of the input
    can be passed over by the idle scan, the newline is forwarded, the
    leader and the discriminator are replaced by a break ([B]) or by one
    [~] ([~]), and the rest is forwarded, whatever the division into
    reads. *)
Theorem escape_in_context con (pre nl suf : list Z) d reads :
  state con = escape_idle →
  nl ∈ [[CR]; [LF]; [CR; LF]] →
  d = char_B ∨ d = tilde →
  has_escape (pre ++ nl) = false →
  has_escape suf = false → ends_with_leader suf = false →
  concat reads = pre ++ nl ++ [tilde; d] ++ suf →
  lf_before_cr false (concat reads) = false →
  ∃ con', feed_reads con reads = Some con' ∧
    tty con' = tty con ++ (TtyByte <$> pre ++ nl) ++
      (if d =? char_B then [TtyBreak] else [TtyByte tilde]) ++
      (TtyByte <$> suf).
Proof.
  intros Hst Hnl Hd Hpre Hsuf Hend Hcat Hlf.
  rewrite feed_reads_bytes by (by apply lf_before_cr_weaken).
  eexists. split; [done|]. rewrite Hcat.
  replace (pre ++ nl ++ [tilde; d] ++ suf)
    with (((pre ++ nl) ++ [tilde]) ++ d :: suf)
    by (by rewrite <- !(assoc_L (++))).
  rewrite foldl_app. cbn [foldl].
  destruct (newline_last nl Hnl) as (q & x & -> & Hx).
  rewrite (assoc_L (++) pre) in *.
  assert (x ≠ tilde) as Hxt by (intros ->; done).
  destruct (foldl_byte_step_unescaped con (((pre ++ q) ++ [x]) ++ [tilde]) Hst)
    as [Hst1 Hlog1]; [by apply has_escape_snoc|].
  assert (ends_with_leader (((pre ++ q) ++ [x]) ++ [tilde]) = true) as Hlead.
  { rewrite <- (assoc_L (++)). by apply ends_with_leader_snoc. }
  rewrite Hlead, removelast_last in Hlog1. apply Hst1 in Hlead.
  set (con1 := foldl byte_step con (((pre ++ q) ++ [x]) ++ [tilde])) in *.
  assert (state (byte_step con1 d) = escape_idle ∧
          tty (byte_step con1 d) = tty con1 ++
            (if d =? char_B then [TtyBreak] else [TtyByte tilde]))
    as [Hst2 Hlog2].
  { unfold byte_step. rewrite Hlead. by destruct Hd as [-> | ->]. }
  destruct (foldl_byte_step_unescaped (byte_step con1 d) suf Hst2 Hsuf)
    as [_ Hlog3].
  rewrite Hlog3, Hlog2, Hlog1, Hend. by rewrite <- !(assoc_L (++)).
Qed.
End context.

(** ** What the parser can put on the tty *)

Section emitted_facts.
Implicit Types (con : console) (buf : list Z) (begin pos : nat).

Lemma count_byte_app b (s1 s2 : list Z) :
  count_byte b (s1 ++ s2) = (count_byte b s1 + count_byte b s2)%nat.
Proof. unfold count_byte. by rewrite filter_app, length_app. Qed.

Lemma emitted_refl con : emitted con con [].
Proof.
  exists []. rewrite !app_nil_r. split; [done|]. split; [done|]. simpl. lia.
Qed.

Lemma emitted_trans con0 con1 con2 (a b : list Z) :
  emitted con0 con1 a → emitted con1 con2 b → emitted con0 con2 (a ++ b).
Proof.
  intros (ev1 & Hlog1 & Hsub1 & Hbr1) (ev2 & Hlog2 & Hsub2 & Hbr2).
  exists (ev1 ++ ev2). rewrite Hlog2, Hlog1, <- (assoc_L (++)).
  split; [done|]. split.
  - rewrite sink_bytes_app, <- (assoc_L (++)).
    transitivity (sink_bytes ev1 ++ pending con1 ++ b).
    + by apply sublist_app.
    + rewrite !(assoc_L (++)). by apply sublist_app.
  - rewrite break_count_app, count_byte_app. lia.
Qed.

Lemma emitted_step con buf begin (end_ : nat) con' pos :
  process_buffer_range con buf begin end_ = Some (con', pos) →
  emitted con con' (range buf begin (pos - begin)).
Proof.
  unfold process_buffer_range, emitted, pending.
  destruct (Nat.ltb_spec begin end_) as [Hlt|]; simpl; [|done].
  destruct (state con) eqn:Hst.
  - intros Hrun.
    assert (∃ st, st ≠ escape_leader ∧
              con' = console_data_out (set_state st con)
                       (range buf begin (pos - begin))) as (st & Hne & ->).
    { destruct (memchr buf begin CR _); [|destruct (memchr buf begin LF _)];
        simplify_eq; eexists; (split; [|done]); by rewrite ?Hst. }
    exists (TtyByte <$> range buf begin (pos - begin)). simpl.
    rewrite decide_False by done.
    rewrite sink_bytes_fmap, break_count_fmap, app_nil_r.
    split; [done|]. split; [done|lia].
  - destruct (buf !! begin) as [b|] eqn:Hb; simpl; [|done].
    destruct (Z.eqb_spec b LF) as [->|HnLF].
    { intros [= <- <-]. rewrite (range_one _ _ LF) by done.
      exists [TtyByte LF]. simpl. split; [done|]. split; [done|].
      unfold count_byte. lia. }
    destruct (Z.eqb_spec b tilde) as [->|Hnt]; intros [= <- <-]; simpl.
    + rewrite (range_one _ _ tilde) by done. exists []. simpl.
      rewrite app_nil_r. split; [done|]. split; [done|lia].
    + rewrite Nat.sub_diag, range_nil. exists []. simpl.
      rewrite app_nil_r. split; [done|]. split; [done|lia].
  - destruct (buf !! begin) as [b|] eqn:Hb; simpl; [|done].
    destruct (Z.eqb_spec b tilde) as [->|Hnt]; intros [= <- <-]; simpl.
    + rewrite (range_one _ _ tilde) by done. exists []. simpl.
      rewrite app_nil_r. split; [done|]. split; [done|lia].
    + rewrite Nat.sub_diag, range_nil. exists []. simpl.
      rewrite app_nil_r. split; [done|]. split; [done|lia].
  - destruct (buf !! begin) as [b|] eqn:Hb; simpl; [|done].
    destruct (Z.eqb_spec b char_B) as [->|HnB].
    { intros [= <- <-]. rewrite (range_one _ _ char_B) by done.
      exists [TtyBreak]. simpl. split; [done|]. split.
      - apply sublist_nil_l.
      - unfold count_byte. simpl. done. }
    destruct (Z.eqb_spec b tilde) as [->|Hnt]; intros [= <- <-]; simpl;
      rewrite Nat.sub_diag, range_nil.
    + exists []. simpl. rewrite app_nil_r. split; [done|].
      split; [apply sublist_nil_l|lia].
    + exists [TtyByte tilde]. simpl. split; [done|]. split; [done|lia].
Qed.

Lemma emitted_loop fuel : ∀ con buf begin (end_ : nat) con' pos,
  (begin ≤ end_)%nat → (end_ ≤ length buf)%nat →
  client_poll_loop fuel con buf begin end_ = Some (con', pos) →
  emitted con con' (range buf begin (end_ - begin)).
Proof.
  induction fuel as [|fuel IH]; intros con buf begin end_ con' pos Hle Hlen;
    simpl; destruct (Nat.ltb_spec begin end_) as [Hlt|Hge]; try done;
    try (intros [= <- <-]; replace (end_ - begin)%nat with O by lia;
         rewrite range_nil; apply emitted_refl).
  destruct (process_buffer_range_total con buf begin end_ Hlt Hlen)
    as (con1 & pos1 & Hrun & Hpos & _). rewrite Hrun. simpl. intros Hloop.
  rewrite <- (range_split buf begin pos1 end_) by lia.
  eapply emitted_trans; [by eapply emitted_step|].
  eapply IH; [| |done]; [lia|done].
Qed.

Lemma emitted_feed con data con' :
  client_poll_feed con data = Some con' → emitted con con' data.
Proof.
  unfold client_poll_feed. intros Hfeed.
  destruct (client_poll_loop _ _ _ _ _) as [[con1 pos]|] eqn:Hloop; simplify_eq/=.
  rewrite <- (range_all data). eapply emitted_loop; [| |done]; lia.
Qed.

Lemma emitted_reads reads : ∀ con con',
  feed_reads con reads = Some con' → emitted con con' (concat reads).
Proof.
  induction reads as [|data reads IH]; intros con con'; simpl.
  - intros [= <-]. apply emitted_refl.
  - destruct (client_poll_feed con data) as [con1|] eqn:Hfeed; [|done]. simpl.
    intros Hrest. eapply emitted_trans; [by apply emitted_feed|by apply IH].
Qed.

Lemma feed_reads_total reads : ∀ con, ∃ con', feed_reads con reads = Some con'.
Proof.
  induction reads as [|data reads IH]; intros con; simpl; [by eexists|].
  destruct (client_poll_feed_total con data) as [con1 ->]. simpl. apply IH.
Qed.
End emitted_facts.

(** * The escape parser: termination of the feed loop *)

(** C10.  On a non-empty range [begin < end] inside the buffer, in any
    parser state, [process_buffer_range] returns a cursor with
    [begin <= cursor <= end]; when it returns [begin] it was not idle and
    it has set the state to idle, and the next call, from idle, consumes
    at least one byte.  Hence the feed loop of [client_poll] terminates
    having consumed the whole range: two iterations per byte suffice. *)
Theorem process_buffer_range_progress (con : console) (buf : list Z)
    (begin end_ : nat) :
  (begin < end_)%nat → (end_ ≤ length buf)%nat →
  (∃ con' pos,
     process_buffer_range con buf begin end_ = Some (con', pos) ∧
     (begin ≤ pos ≤ end_)%nat ∧
     (pos = begin →
        state con ≠ escape_idle ∧ state con' = escape_idle ∧
        ∃ con2 pos2,
          process_buffer_range con' buf begin end_ = Some (con2, pos2) ∧
          (begin < pos2 ≤ end_)%nat)) ∧
  (∀ fuel, (2 * (end_ - begin) ≤ fuel)%nat →
     ∃ con', client_poll_loop fuel con buf begin end_ = Some (con', end_)).
Proof.
  intros Hlt Hlen. split.
  - destruct (process_buffer_range_total con buf begin end_ Hlt Hlen)
      as (con' & pos & Hrun & Hpos & Hidle & Hback).
    exists con', pos. split; [done|]. split; [done|]. intros ->.
    split; [intros Hc; specialize (Hidle Hc); lia|].
    split; [by apply Hback|].
    destruct (process_buffer_range_total con' buf begin end_ Hlt Hlen)
      as (con2 & pos2 & Hrun2 & Hpos2 & Hidle2 & _).
    exists con2, pos2. split; [done|].
    specialize (Hidle2 (Hback eq_refl)). lia.
  - intros fuel Hfuel. apply client_poll_loop_enough; [lia|done|].
    case_decide; lia.
Qed.

Lemma process_buffer_range_progress_witness :
  (∃ con' pos,
     process_buffer_range (mkConsole escape_leader []) [tilde; 97] 0 2
       = Some (con', pos) ∧
     (0 ≤ pos ≤ 2)%nat ∧
     (pos = O →
        state (mkConsole escape_leader []) ≠ escape_idle ∧
        state con' = escape_idle ∧
        ∃ con2 pos2,
          process_buffer_range con' [tilde; 97] 0 2 = Some (con2, pos2) ∧
          (0 < pos2 ≤ 2)%nat)) ∧
  (∀ fuel, (2 * (2 - 0) ≤ fuel)%nat →
     ∃ con', client_poll_loop fuel (mkConsole escape_leader []) [tilde; 97] 0 2
             = Some (con', 2%nat)).
Proof.
  apply (process_buffer_range_progress (mkConsole escape_leader []) [tilde; 97] 0 2);
    simpl; lia.
Defined.

(** * The escape parser: what reaches the sink *)

(** C4, as the code has it.  From the idle state the input [\r\n~B], in
    any division into reads, raises exactly one break; the newline bytes
    [\r\n] are forwarded to the sink and only the leader and the
    discriminator are swallowed.  The same holds for the newlines [\r]
    and [\n]. *)
Theorem break_escape_keeps_newline (con : console) (nl : list Z)
    (reads : list (list Z)) :
  state con = escape_idle →
  nl ∈ [[CR]; [LF]; [CR; LF]] →
  concat reads = nl ++ [tilde; char_B] →
  ∃ con', feed_reads con reads = Some con' ∧
    state con' = escape_idle ∧
    tty con' = tty con ++ (TtyByte <$> nl) ++ [TtyBreak] ∧
    break_count (tty con') = S (break_count (tty con)) ∧
    sink_bytes (tty con') = sink_bytes (tty con) ++ nl.
Proof.
  destruct con as [st log]. simpl. intros -> Hnl Hcat.
  eexists. split; [by apply feed_reads_break_escape|]. simpl.
  split; [done|]. split; [done|].
  rewrite !break_count_app, !sink_bytes_app, break_count_fmap, sink_bytes_fmap.
  simpl. rewrite app_nil_r. split; [lia|done].
Qed.

Lemma break_escape_keeps_newline_witness :
  ∃ con', feed_reads (mkConsole escape_idle []) [[CR]; [LF; tilde]; [char_B]]
            = Some con' ∧
    state con' = escape_idle ∧
    tty con' = [] ++ (TtyByte <$> [CR; LF]) ++ [TtyBreak] ∧
    break_count (tty con') = 1%nat ∧
    sink_bytes (tty con') = [] ++ [CR; LF].
Proof.
  apply (break_escape_keeps_newline (mkConsole escape_idle []) [CR; LF]
           [[CR]; [LF; tilde]; [char_B]]).
  - reflexivity.
  - set_solver.
  - reflexivity.
Defined.

(** Read literally (no byte of [\r\n~B] reaches the sink), the
    specification's sentence fails: the sink receives the two newline
    bytes. *)
Lemma break_escape_not_fully_swallowed :
  ¬ (∀ reads con',
       concat reads = [CR; LF; tilde; char_B] →
       feed_reads (mkConsole escape_idle []) reads = Some con' →
       break_count (tty con') = 1%nat ∧ sink_bytes (tty con') = []).
Proof.
  intros H.
  destruct (H [[CR; LF; tilde; char_B]] _ eq_refl eq_refl) as [_ Hsink].
  discriminate Hsink.
Qed.

(** The scenario of the specification: ["hello\r~Bworld"], in any
    division into reads. *)
Example hello_break_world (reads : list (list Z)) :
  concat reads =
    [104; 101; 108; 108; 111; CR; tilde; char_B; 119; 111; 114; 108; 100] →
  ∃ con', feed_reads (mkConsole escape_idle []) reads = Some con' ∧
    tty con' = (TtyByte <$> [104; 101; 108; 108; 111; CR]) ++ [TtyBreak] ++
               (TtyByte <$> [119; 111; 114; 108; 100]).
Proof.
  intros Hcat.
  apply (escape_in_context (mkConsole escape_idle [])
           [104; 101; 108; 108; 111] [CR] [119; 111; 114; 108; 100] char_B);
    try done; [set_solver|by left|by rewrite Hcat].
Qed.




(** The scenario of the specification, ["abc\r~~def"], in any division
    into reads. *)
Example abc_tilde_def (reads : list (list Z)) :
  concat reads = [97; 98; 99; CR; tilde; tilde; 100; 101; 102] →
  ∃ con', feed_reads (mkConsole escape_idle []) reads = Some con' ∧
    tty con' = TtyByte <$> [97; 98; 99; CR; tilde; 100; 101; 102].
Proof.
  intros Hcat.
  apply (escape_in_context (mkConsole escape_idle [])
           [97; 98; 99] [CR] [100; 101; 102] tilde);
    try done; [set_solver|by right|by rewrite Hcat].
Qed.

(** C2, as the code has it.  From the idle state, an input without an
    escape sequence (a newline, the leader, then [B] or [~]) is forwarded
    unchanged and in order, whatever the division into reads, and no
    break is raised; this includes a leader followed by any other byte,
    which is forwarded with that byte.  The one exception is an input
    that ends in a newline and the leader: the parser is then left
    waiting for the discriminator and holds that last [~] back.  The
    sink depends on the input only, not on the reads. *)
Theorem unescaped_input_forwarded (con : console) (reads : list (list Z)) :
  state con = escape_idle →
  has_escape (concat reads) = false →
  ∃ con', feed_reads con reads = Some con' ∧
    break_count (tty con') = break_count (tty con) ∧
    (state con' = escape_leader ↔ ends_with_leader (concat reads) = true) ∧
    sink_bytes (tty con') =
      sink_bytes (tty con) ++
        (if ends_with_leader (concat reads)
         then removelast (concat reads) else concat reads).
Proof.
  intros Hidle Hesc.
  destruct (feed_reads_unescaped_log con reads Hidle Hesc)
    as (con' & Hfeed & Hst & Hlog).
  exists con'. split; [done|]. rewrite Hlog.
  rewrite break_count_app, sink_bytes_app, break_count_fmap, sink_bytes_fmap.
  split; [lia|]. by split.
Qed.

Lemma unescaped_input_forwarded_witness :
  ∃ con', feed_reads (mkConsole escape_idle [])
            [[97; CR]; [tilde]; [98; LF; tilde]] = Some con' ∧
    break_count (tty con') = O ∧
    (state con' = escape_leader ↔
     ends_with_leader [97; CR; tilde; 98; LF; tilde] = true) ∧
    sink_bytes (tty con') =
      [] ++ (if ends_with_leader [97; CR; tilde; 98; LF; tilde]
             then removelast [97; CR; tilde; 98; LF; tilde]
             else [97; CR; tilde; 98; LF; tilde]).
Proof.
  apply (unescaped_input_forwarded (mkConsole escape_idle [])
           [[97; CR]; [tilde]; [98; LF; tilde]]); reflexivity.
Defined.

(** Without the exception, or from another state than idle, the
    statement fails: the input [\n~], which holds no complete escape
    sequence, puts only the newline in the sink; and a parser left in the
    leader state (the state is shared by the clients of a console)
    swallows the input [B]. *)
Lemma pending_leader_not_forwarded :
  ¬ (∀ reads con',
       has_escape (concat reads) = false →
       feed_reads (mkConsole escape_idle []) reads = Some con' →
       sink_bytes (tty con') = concat reads) ∧
  ¬ (∀ st reads con',
       has_escape (concat reads) = false →
       ends_with_leader (concat reads) = false →
       feed_reads (mkConsole st []) reads = Some con' →
       sink_bytes (tty con') = concat reads).
Proof.
  split; intros H.
  - specialize (H [[LF; tilde]] _ eq_refl eq_refl). discriminate H.
  - specialize (H escape_leader [[char_B]] _ eq_refl eq_refl eq_refl).
    discriminate H.
Qed.

(** The idle scan looks for a carriage return first: a line feed, and an
    escape sequence that starts at it, is passed over when a carriage
    return comes later in the same read; the same bytes in two reads are
    parsed as an escape sequence. *)
Remark line_feed_passed_over :
  feed_reads (mkConsole escape_idle []) [[LF; tilde; char_B; CR]] =
    Some (mkConsole escape_cr (TtyByte <$> [LF; tilde; char_B; CR])) ∧
  feed_reads (mkConsole escape_idle []) [[LF; tilde; char_B]; [CR]] =
    Some (mkConsole escape_cr [TtyByte LF; TtyBreak; TtyByte CR]) ∧
  feed_reads (mkConsole escape_idle []) [[LF; tilde; tilde; CR]] =
    Some (mkConsole escape_cr (TtyByte <$> [LF; tilde; tilde; CR])) ∧
  feed_reads (mkConsole escape_idle []) [[LF; tilde; tilde]; [CR]] =
    Some (mkConsole escape_cr (TtyByte <$> [LF; tilde; CR])) ∧
  lf_before_cr false [LF; tilde; tilde; CR] = true.
Proof. repeat split; reflexivity. Qed.

(** * Sending and draining *)

(** What holds of [send_all] for every buffer, length, mode and socket:
    a length above [SSIZE_MAX] is refused with [-EINVAL]; the value
    returned is negative or a count of at most [len]; the client is
    marked blocked only in non-blocking mode, and then the count sent so
    far is returned; and, when no call is interrupted, exactly the first
    [ret] bytes of the buffer have been written. *)
Lemma send_all_results (p id : nat) (buf : list Z) (len : Z) (block : bool)
    (c : client) (po : poller) (sk : socket) (w : world) :
  heap w !! p = Some c → c_poller c = Some id → pollers w !! id = Some po →
  socks w !! c_fd c = Some sk → 0 ≤ len ≤ Z.of_nat (length buf) →
  ∃ ret b sk',
    send_all p buf len block w =
    Some (ret, conn p (client_after b c) id (poller_after b c po) (c_fd c) sk' w) ∧
    sent_all buf len block sk sk' ret b.
Proof.
  intros Hc Hid Hpo Hsk Hlen.
  destruct (send_all_sent_all p id (c_fd c) buf len block c po sk w)
    as (ret & b & sk' & Hrun & Hsent); try done.
  rewrite (conn_id p id (c_fd c) c po sk w) in Hrun by done.
  by exists ret, b, sk'.
Qed.

(** C3, the interrupted call.  [send_all] does not retry an interrupted
    [send] on the same unsent bytes: the [continue] runs the loop's
    increment [pos += rc] with [rc = -1].  In a blocking send of ["ab"],
    after one byte has been sent an interruption moves [pos] back to 0
    and that byte is sent a second time; and an interruption of the first
    call wraps [pos] to [SIZE_MAX], which ends the loop and returns -1
    without a retry. *)
Theorem send_all_eintr_resends :
  (∃ w', send_all 0 [97; 98] 2 true
           (sample_world [SendAccept 1; SendErrno EINTR] [] 0 false)
         = Some (2, w') ∧
         sk_wire <$> socks w' !! 5 = Some [97; 97; 98]) ∧
  (∃ w', send_all 0 [97; 98] 2 true
           (sample_world [SendErrno EINTR; SendAccept 2] [] 0 false)
         = Some (-1, w') ∧
         sk_wire <$> socks w' !! 5 = Some [] ∧
         sk_script <$> socks w' !! 5 = Some [SendAccept 2]).
Proof.
  split; eexists; (split; [vm_compute; reflexivity|]); done.
Qed.




(** * The callbacks *)

Section callbacks.
Context (p id r : nat) (w : world) (c : client) (po : poller)
  (rb : consumer) (sk : socket).
Hypothesis Hc : heap w !! p = Some c.
Hypothesis Hid : c_poller c = Some id.
Hypothesis Hpo : pollers w !! id = Some po.
Hypothesis Hr : c_rbc c = Some r.
Hypothesis Hrb : consumers w !! r = Some rb.
Hypothesis Hsk : socks w !! c_fd c = Some sk.
Hypothesis Hin : p ∈ clients w.
Hypothesis Hnd : NoDup (clients w).
Hypothesis Hmax : Z.of_nat (length (rb_pending rb)) ≤ SIZE_MAX.

(** A failed drain leaves the client in place, up to its blocked flag
    and what was written to its socket. *)
Lemma failed_drain_world force_len rc w1 :
  client_drain_queue p force_len w = Some (rc, w1) → rc ≠ 0 →
  ∃ c1 po1 sk1,
    w1 = conn p c1 id po1 (c_fd c) sk1 w ∧
    c_poller c1 = Some id ∧ c_rbc c1 = Some r ∧ c_fd c1 = c_fd c.
Proof.
  intros Hrun Hrc.
  destruct (decide (force_len = 0 ∧ c_blocked c = true)) as [[-> Hb]|Hnb].
  { rewrite (client_drain_queue_blocked p w c) in Hrun by done. by simplify_eq. }
  destruct (client_drain_queue_conn p id (c_fd c) r force_len c po sk rb w)
    as (total & wlen & b & sk' & _ & _ & Hrun'); try done.
  rewrite (conn_id p id (c_fd c) c po sk w) in Hrun' by done.
  rewrite Hrun in Hrun'. simplify_eq.
  destruct (Z.eqb_spec (drain_result force_len total wlen) 0); [done|].
  by eexists _, _, _.
Qed.

(** Closing the client after its handle [rbc] or [poller] was cleared. *)
Lemma close_conn c1 po1 sk1 :
  ∃ w2, client_close p (conn p c1 id po1 (c_fd c) sk1 w) = Some w2 ∧
    trace w2 = trace w ++ close_events p c1 ∧
    consumers w2 = match c_rbc c1 with
                   | Some r' => delete r' (consumers w) | None => consumers w end ∧
    pollers w2 = match c_poller c1 with
                 | Some id' => delete id' (<[id := po1]> (pollers w))
                 | None => <[id := po1]> (pollers w) end ∧
    socks w2 = delete (c_fd c1) (<[c_fd c := sk1]> (socks w)) ∧
    heap w2 !! p = None ∧ (p ∉ clients w2).
Proof.
  destruct (client_close_in p (conn p c1 id po1 (c_fd c) sk1 w) c1)
    as (w2 & Hrun & Ht & Hs & Hp & Hcs & Hh & Hcl & _).
  { apply heap_conn. }
  { done. }
  exists w2. split; [done|]. split; [done|]. split; [done|]. split; [done|].
  split; [done|]. split.
  - rewrite Hh. apply lookup_delete_eq.
  - rewrite Hcl. by apply delete_client_index.
Qed.

(** C7.  The buffer-readiness notification.  With no forced flush and
    fewer than 512 bytes available it arms the 4 ms timer of the client's
    poller and returns [RINGBUFFER_POLL_OK]; nothing else changes, so
    nothing is drained.  Otherwise it drains: on success it returns
    [RINGBUFFER_POLL_OK]; on failure it clears [client->rbc], closes the
    client and returns [RINGBUFFER_POLL_REMOVE]: the descriptor is
    closed, the poller unregistered and the client freed, and the
    consumer is left registered, for the caller to remove. *)
Theorem client_ringbuffer_poll_defers_or_drains (force_len : Z) :
  (force_len = 0 → ringbuffer_len rb < SOCKET_HANDLER_PKT_SIZE →
     client_ringbuffer_poll p force_len w =
     Some (RINGBUFFER_POLL_OK,
           set_pollers (<[id := poller_with_timeout (0, 4000) po]> (pollers w)) w)) ∧
  (¬ (force_len = 0 ∧ ringbuffer_len rb < SOCKET_HANDLER_PKT_SIZE) →
     ∃ rc w1,
       client_drain_queue p force_len w = Some (rc, w1) ∧
       (rc = 0 →
          client_ringbuffer_poll p force_len w = Some (RINGBUFFER_POLL_OK, w1)) ∧
       (rc ≠ 0 →
          ∃ w2,
            client_ringbuffer_poll p force_len w
              = Some (RINGBUFFER_POLL_REMOVE, w2) ∧
            trace w2 = trace w ++
                       [EvClose (c_fd c); EvPollerUnregister id; EvFree p] ∧
            consumers w2 = consumers w ∧
            pollers w2 !! id = None ∧ socks w2 !! c_fd c = None ∧
            heap w2 !! p = None ∧ (p ∉ clients w2))).
Proof.
  unfold client_ringbuffer_poll. rewrite Hc. cbn [mbind option_bind].
  rewrite Hr. cbn [mbind option_bind]. rewrite Hrb. cbn [mbind option_bind].
  split.
  - intros -> Hlen. cbn [Z.eqb andb].
    destruct (Z.ltb_spec (ringbuffer_len rb) SOCKET_HANDLER_PKT_SIZE); [|lia].
    rewrite Hid. cbn [mbind option_bind].
    unfold console_poller_set_timeout. by rewrite Hpo.
  - intros Hnot.
    assert ((force_len =? 0) && (ringbuffer_len rb <? SOCKET_HANDLER_PKT_SIZE)
            = false) as ->.
    { destruct (Z.eqb_spec force_len 0),
        (Z.ltb_spec (ringbuffer_len rb) SOCKET_HANDLER_PKT_SIZE); try done.
      destruct Hnot. done. }
    assert (∃ rc w1, client_drain_queue p force_len w = Some (rc, w1))
      as (rc & w1 & Hrun).
    { destruct (decide (force_len = 0 ∧ c_blocked c = true)) as [[-> Hb]|Hnb].
      - rewrite (client_drain_queue_blocked p w c) by done. by eexists _, _.
      - destruct (client_drain_queue_conn p id (c_fd c) r force_len c po sk rb w)
          as (total & wlen & b & sk' & _ & _ & Hrun'); try done.
        rewrite (conn_id p id (c_fd c) c po sk w) in Hrun' by done.
        by eexists _, _. }
    exists rc, w1. split; [done|]. rewrite Hrun. cbn [mbind option_bind].
    split.
    + intros ->. done.
    + intros Hrc. destruct (Z.eqb_spec rc 0); [done|]. cbn [negb].
      destruct (failed_drain_world force_len rc w1 Hrun Hrc)
        as (c1 & po1 & sk1 & -> & Hid1 & Hr1 & Hfd1).
      rewrite (heap_conn p id (c_fd c)). cbn [mbind option_bind].
      rewrite (set_heap_conn p id (c_fd c)).
      destruct (close_conn (mkClient (c_poller c1) None (c_fd c1) (c_blocked c1))
                  po1 sk1)
        as (w2 & -> & Ht & Hcs & Hp & Hs & Hh & Hcl).
      cbn [mbind option_bind]. exists w2. split; [done|].
      unfold close_events in Ht. simpl in *. rewrite Hid1 in *.
      split; [by rewrite Ht, Hfd1|]. split; [done|].
      split; [rewrite Hp; apply lookup_delete_eq|].
      split; [rewrite Hs, Hfd1; apply lookup_delete_eq|]. done.
Qed.


End callbacks.

(** * Witnesses and counterexamples for the callbacks *)

Lemma client_ringbuffer_poll_defers_or_drains_witness :
  let w := sample_world [SendErrno 32] [97; 98; 99] 0 false in
  ∃ rc w1,
    client_drain_queue 0 1 w = Some (rc, w1) ∧
    (rc = 0 → client_ringbuffer_poll 0 1 w = Some (RINGBUFFER_POLL_OK, w1)) ∧
    (rc ≠ 0 →
       ∃ w2,
         client_ringbuffer_poll 0 1 w = Some (RINGBUFFER_POLL_REMOVE, w2) ∧
         trace w2 = trace w ++ [EvClose 5; EvPollerUnregister 0; EvFree 0] ∧
         consumers w2 = consumers w ∧
         pollers w2 !! 0%nat = None ∧ socks w2 !! 5 = None ∧
         heap w2 !! 0%nat = None ∧ (0%nat ∉ clients w2)).
Proof.
  intros w.
  apply (client_ringbuffer_poll_defers_or_drains 0 0 0 w
           (mkClient (Some 0%nat) (Some 0%nat) 5 false)
           (mkPoller 5 POLLIN None (Some 0%nat))
           (mkConsumer [97; 98; 99] 0)
           (mkSocket [SendErrno 32] [] [] []));
    try reflexivity.
  - apply list_elem_of_here.
  - apply NoDup_singleton.
  - vm_compute. discriminate.
  - intros [H _]. discriminate H.
Defined.

(** * The life cycle of clients *)

Section lifecycle.
Implicit Types (w : world) (c : client).

Lemma set_inv_close p w c w' :
  set_inv w → heap w !! p = Some c →
  heap w' = delete p (heap w) →
  clients w' = delete (client_index (clients w) p 0) (clients w) →
  set_inv w'.
Proof.
  intros [Hnd Hmem] Hc Hh Hcl.
  assert (p ∈ clients w) as Hin by (apply Hmem; eauto).
  destruct (delete_client_index (clients w) p Hnd Hin) as (Hnot & Hnd' & Hothers).
  split; rewrite Hcl, ?Hh; [done|]. intros q.
  destruct (decide (q = p)) as [->|Hne].
  - rewrite lookup_delete_eq. split; [done|]. by intros [? ?].
  - rewrite lookup_delete_ne by done. rewrite Hothers by done. apply Hmem.
Qed.

Lemma malloc_fresh w : heap w !! malloc w = None.
Proof. unfold malloc. apply not_elem_of_dom, is_fresh. Qed.

Lemma set_inv_append p w w' c :
  set_inv w → heap w !! p = None →
  heap w' = <[p := c]> (heap w) → clients w' = clients w ++ [p] →
  set_inv w'.
Proof.
  intros [Hnd Hmem] Hfresh Hh Hcl.
  assert (p ∉ clients w) as Hnot.
  { intros Hin. apply Hmem in Hin as [? Hin]. congruence. }
  split; rewrite Hcl, ?Hh.
  - apply NoDup_app. split_and!; [done| |apply NoDup_singleton].
    intros x Hx ->%list_elem_of_singleton. done.
  - intros q. rewrite elem_of_app, list_elem_of_singleton.
    destruct (decide (q = p)) as [->|Hne].
    + rewrite lookup_insert_eq. split; [eauto|tauto].
    + rewrite lookup_insert_ne by done. rewrite Hmem. tauto.
Qed.

Lemma set_inv_same w w' :
  set_inv w → heap w' = heap w → clients w' = clients w → set_inv w'.
Proof. intros [Hnd Hmem] Hh Hcl. split; rewrite Hcl, ?Hh; done. Qed.

Lemma client_register_world p fd rbc_ok w :
  ∃ id r w1, client_register p fd rbc_ok w = (r, w1) ∧
    heap w1 = <[p := mkClient (Some id) r fd false]> (heap w) ∧
    clients w1 = clients w ∧ trace w1 = trace w ∧ socks w1 = socks w ∧
    (r = None ↔ rbc_ok = false) ∧
    (rbc_ok = false → consumers w1 = consumers w) ∧
    pollers w1 = <[id := mkPoller fd POLLIN None (Some p)]> (pollers w) ∧
    pollers w !! id = None.
Proof.
  unfold client_register, console_poller_register,
    console_ringbuffer_consumer_register.
  destruct rbc_ok; simpl; eexists _, _, _; (split; [reflexivity|]); simpl;
    rewrite !insert_insert_eq; split_and!; try done;
    apply not_elem_of_dom, is_fresh.
Qed.

End lifecycle.

(** C8.  The close sequence of an allocated client that is in the
    connection set: the descriptor is closed, the poller and the consumer
    are unregistered when (and only when) the client still holds them,
    the client is freed and removed from the set; the sequence cannot run
    a second time on that client.  A client that is missing from the set
    makes the assertion fail.  The set holds every allocated client
    exactly once, and this is kept by closing a client, by accepting a
    connection and by the programmatic attach: an open client is in the
    set once, a closed one is not in it. *)
Theorem client_close_exactly_once (w : world) (p : nat) (c : client) :
  heap w !! p = Some c →
  (p ∉ clients w → client_close p w = None) ∧
  (set_inv w →
     (∃ w', client_close p w = Some w' ∧
        trace w' = trace w ++ close_events p c ∧
        socks w' = delete (c_fd c) (socks w) ∧
        pollers w' = match c_poller c with
                     | Some id => delete id (pollers w) | None => pollers w end ∧
        consumers w' = match c_rbc c with
                       | Some r => delete r (consumers w)
                       | None => consumers w end ∧
        heap w' = delete p (heap w) ∧
        (p ∉ clients w') ∧
        (∀ q, q ≠ p → (q ∈ clients w' ↔ q ∈ clients w)) ∧
        set_inv w' ∧
        client_close p w' = None) ∧
     (p ∈ clients w ∧ NoDup (clients w)) ∧
     (∀ events fd sk rbc_ok ret w',
        socket_poll events fd sk true rbc_ok w = Some (ret, w') →
        ret = POLLER_OK ∧ set_inv w' ∧
        (w' = w ∨
         (clients w' = clients w ++ [malloc w] ∧ (malloc w ∉ clients w) ∧
          ∃ id r, heap w' !! malloc w = Some (mkClient (Some id) r fd false)))) ∧
     (∀ sp malloc_ok rbc_ok,
        set_inv (snd (dbus_create_socket_consumer sp malloc_ok rbc_ok w)))).
Proof.
  intros Hc. split; [intros Hnot; by eapply client_close_absent|]. intros Hinv.
  assert (p ∈ clients w) as Hin by (apply Hinv; eauto).
  split_and!.
  - destruct (client_close_in p w c Hc Hin)
      as (w' & Hrun & Ht & Hs & Hp & Hcs & Hh & Hcl & _).
    destruct (delete_client_index (clients w) p (proj1 Hinv) Hin)
      as (Hnot & _ & Hothers).
    exists w'. split_and!; try done.
    + by rewrite Hcl.
    + intros q Hq. rewrite Hcl. by apply Hothers.
    + by eapply set_inv_close.
    + apply client_close_freed. rewrite Hh. apply lookup_delete_eq.
  - done.
  - apply Hinv.
  - intros events fd sk rbc_ok ret w'. unfold socket_poll.
    destruct (Z.land events POLLIN =? 0); [intros [= <- <-]; auto|].
    destruct (fd <? 0); [intros [= <- <-]; auto|]. cbn [negb].
    set (w0 := set_socks (<[fd := sk]> (socks w)) w).
    destruct (client_register_world (malloc w0) fd rbc_ok w0)
      as (id & r & w1 & Hreg & Hh & Hcl & _).
    rewrite Hreg. intros [= <- <-]. split; [done|].
    assert (heap w !! malloc w = None) as Hfresh by apply malloc_fresh.
    change (malloc w0) with (malloc w) in *. split.
    + eapply (set_inv_append (malloc w) w); [done|done|exact Hh|].
      simpl. by rewrite Hcl.
    + right. simpl. rewrite Hcl, Hh, lookup_insert_eq. split_and!; eauto.
      intros Hm. apply Hinv in Hm as [? Hm]. congruence.
  - intros sp malloc_ok rbc_ok. unfold dbus_create_socket_consumer.
    destruct (find_socket_handler (handlers w)); [|done]. cbn [negb].
    destruct sp as [e|fd0 fd1 sk0 sk1]; [done|].
    set (w0 := set_socks _ w).
    destruct malloc_ok; cbn [negb].
    2:{ simpl. by eapply set_inv_same. }
    destruct (client_register_world (malloc w0) fd0 rbc_ok w0)
      as (id & r & w1 & Hreg & Hh & Hcl & _).
    rewrite Hreg.
    assert (heap w !! malloc w = None) as Hfresh by apply malloc_fresh.
    change (malloc w0) with (malloc w) in *.
    destruct r as [r|]; simpl.
    + eapply (set_inv_append (malloc w) w); [done|done|exact Hh|].
      simpl. by rewrite Hcl.
    + eapply (set_inv_same w); [done| |done].
      simpl. rewrite Hh. by rewrite delete_insert_id.
Qed.

(** The sample world satisfies the invariant of the connection set. *)
Lemma sample_world_set_inv script pending wrap blocked :
  set_inv (sample_world script pending wrap blocked).
Proof.
  split; simpl.
  - apply NoDup_singleton.
  - intros q. rewrite list_elem_of_singleton. split.
    + intros ->. by eexists.
    + intros [c Hq]. apply lookup_singleton_Some in Hq as [<- _]. done.
Qed.

Lemma client_close_exactly_once_witness :
  let w := sample_world [] [97] 0 false in
  let c := mkClient (Some 0%nat) (Some 0%nat) 5 false in
  (∃ w', client_close 0 w = Some w' ∧
     trace w' = trace w ++ close_events 0 c ∧
     socks w' = delete (c_fd c) (socks w) ∧
     pollers w' = match c_poller c with
                  | Some id => delete id (pollers w) | None => pollers w end ∧
     consumers w' = match c_rbc c with
                    | Some r => delete r (consumers w)
                    | None => consumers w end ∧
     heap w' = delete 0%nat (heap w) ∧
     (0%nat ∉ clients w') ∧
     (∀ q, q ≠ 0%nat → (q ∈ clients w' ↔ q ∈ clients w)) ∧
     set_inv w' ∧
     client_close 0 w' = None) ∧
  (0%nat ∈ clients w ∧ NoDup (clients w)) ∧
  (∀ events fd sk rbc_ok ret w',
     socket_poll events fd sk true rbc_ok w = Some (ret, w') →
     ret = POLLER_OK ∧ set_inv w' ∧
     (w' = w ∨
      (clients w' = clients w ++ [malloc w] ∧ (malloc w ∉ clients w) ∧
       ∃ id r, heap w' !! malloc w = Some (mkClient (Some id) r fd false)))) ∧
  (∀ sp malloc_ok rbc_ok,
     set_inv (snd (dbus_create_socket_consumer sp malloc_ok rbc_ok w))).
Proof.
  intros w c.
  apply (client_close_exactly_once w 0 c); [reflexivity|].
  apply sample_world_set_inv.
Defined.

(** [socket_fini] closes every client that is still open, each once, in
    the order of the connection set. *)
Lemma socket_fini_closes_every_client n : ∀ w,
  set_inv w → length (clients w) = n →
  ∃ w', socket_fini_loop n w = Some w' ∧
    clients w' = [] ∧ heap w' = ∅ ∧
    trace w' = trace w ++
      (p ← clients w; from_option (close_events p) [] (heap w !! p)).
Proof.
  induction n as [|n IH]; intros w Hinv Hlen.
  - destruct (clients w) eqn:Hcl; [|done]. exists w. simpl. rewrite Hcl.
    split_and!; try done.
    + apply map_eq. intros q. rewrite lookup_empty.
      apply eq_None_not_Some. intros Hq. apply Hinv in Hq.
      rewrite Hcl in Hq. by apply elem_of_nil in Hq.
    + by rewrite app_nil_r.
  - destruct (clients w) as [|p rest] eqn:Hcl; [done|].
    assert (p ∈ clients w) as Hin by (rewrite Hcl; apply list_elem_of_here).
    destruct (proj1 (proj2 Hinv p) Hin) as [c Hc].
    destruct (client_close_in p w c Hc Hin)
      as (w1 & Hrun & Ht & _ & _ & _ & Hh & Hcl1 & _).
    assert (set_inv w1) as Hinv1 by (by eapply set_inv_close).
    rewrite Hcl in Hcl1. simpl in Hcl1. rewrite decide_True in Hcl1 by done.
    simpl in Hcl1.
    destruct (IH w1 Hinv1) as (w' & Hfini & Hcl' & Hh' & Ht').
    { rewrite Hcl1. simpl in Hlen. lia. }
    exists w'. split; [simpl; by rewrite Hcl, Hrun|].
    split; [done|]. split; [done|].
    rewrite Ht', Ht, Hcl1, bind_cons, Hc, <- (assoc_L (++)).
    cbn [from_option]. do 2 f_equal.
    destruct Hinv as [Hnd _]. rewrite Hcl in Hnd.
    apply NoDup_cons in Hnd as [Hnot _].
    clear -Hh Hnot. induction rest as [|q rest IHr]; [done|].
    apply not_elem_of_cons in Hnot as [Hne Hnot].
    rewrite !bind_cons, IHr by done.
    by rewrite Hh, lookup_delete_ne.
Qed.

(** * The programmatic attach *)

(** C9, as the code has it.  [dbus_create_socket_consumer] returns
    [-ENOSYS] when no handler is named ["socket"]; when the pair cannot be
    created it returns the negation of [errno] as it stands after the
    call of [warn], which is the [errno] of [socketpair] only if [warn]
    left it alone; and it returns [-ENOMEM] both when the client cannot
    be allocated and when the consumer cannot be registered.  In the
    first two cases nothing was created and the world is unchanged, in
    the last two both descriptors are closed and no client stays
    allocated or in the connection set.  On success it returns the second
    descriptor of the pair and the new client, on the first descriptor,
    is appended to the set. *)
Theorem dbus_create_socket_consumer_results (sp : socketpair_outcome)
    (malloc_ok rbc_ok : bool) (w : world) :
  let rc := fst (dbus_create_socket_consumer sp malloc_ok rbc_ok w) in
  let w' := snd (dbus_create_socket_consumer sp malloc_ok rbc_ok w) in
  if negb (find_socket_handler (handlers w))
  then rc = - ENOSYS ∧ rc < 0 ∧ w' = w
  else
    match sp with
    | SocketpairErrno e e_warn =>
        rc = - e_warn ∧ (0 < e_warn → rc < 0) ∧ (e_warn = e → rc = - e) ∧
        w' = w
    | SocketpairFds fd0 fd1 sk0 sk1 =>
        if negb (malloc_ok && rbc_ok) then
          rc = - ENOMEM ∧ rc < 0 ∧
          trace w' = trace w ++
                     (if malloc_ok then [EvFree (malloc w)] else []) ++
                     [EvClose fd0; EvClose fd1] ∧
          socks w' !! fd0 = None ∧ socks w' !! fd1 = None ∧
          heap w' = heap w ∧ clients w' = clients w ∧
          consumers w' = consumers w
        else
          rc = fd1 ∧
          clients w' = clients w ++ [malloc w] ∧
          trace w' = trace w ∧
          ∃ id r,
            heap w' = <[malloc w := mkClient (Some id) (Some r) fd0 false]> (heap w) ∧
            pollers w' = <[id := mkPoller fd0 POLLIN None (Some (malloc w))]> (pollers w) ∧
            pollers w !! id = None ∧
            consumers w' = <[r := mkConsumer [] 0]> (consumers w) ∧
            consumers w !! r = None
    end.
Proof.
  unfold dbus_create_socket_consumer.
  destruct (find_socket_handler (handlers w)); cbn [negb]; [|done].
  destruct sp as [e e_warn|fd0 fd1 sk0 sk1];
    [simpl; split_and!; [done|lia|by intros ->|done]|].
  assert (heap w !! malloc w = None) as Hfresh.
  { unfold malloc. apply not_elem_of_dom, is_fresh. }
  destruct malloc_ok; cbn [negb andb].
  2:{ simpl. split_and!; try done.
      - by rewrite <- (assoc_L (++)).
      - rewrite !lookup_delete. by repeat case_decide.
      - apply lookup_delete_eq. }
  destruct rbc_ok; cbn [negb].
  - unfold client_register, console_poller_register,
      console_ringbuffer_consumer_register. simpl.
    change (malloc (set_socks _ w)) with (malloc w).
    split_and!; try done. eexists _, _. rewrite !insert_insert_eq.
    split_and!; try done; apply not_elem_of_dom, is_fresh.
  - unfold client_register, console_poller_register,
      console_ringbuffer_consumer_register. simpl.
    change (malloc (set_socks _ w)) with (malloc w).
    rewrite !insert_insert_eq. split_and!; try done.
    + by rewrite <- !(assoc_L (++)).
    + rewrite !lookup_delete. by repeat case_decide.
    + apply lookup_delete_eq.
    + by rewrite delete_insert_id.
Qed.

(** The error values are not distinct per cause: the allocation failure
    and the failure to register the consumer are reported by the same
    value. *)
Lemma attach_errors_not_distinct :
  ¬ (fst (dbus_create_socket_consumer
            (SocketpairFds 6 7 (mkSocket [] [] [] []) (mkSocket [] [] [] []))
            false true (sample_world [] [] 0 false))
     ≠ fst (dbus_create_socket_consumer
              (SocketpairFds 6 7 (mkSocket [] [] [] []) (mkSocket [] [] [] []))
              true false (sample_world [] [] 0 false))).
Proof. intros H. by apply H. Qed.

(** The value returned when the pair cannot be created is read after
    [warn]: if [socketpair] fails with [EMFILE] (24) and the write of
    [warn] fails with [EBADF] (9), the caller receives [-EBADF]. *)
Remark attach_errno_read_after_warn :
  fst (dbus_create_socket_consumer (SocketpairErrno 24 9) true true
         (sample_world [] [] 0 false)) = - 9.
Proof. reflexivity. Qed.

(** When the consumer cannot be registered, the event registration made
    just before for the client stays in the console's pollers, with the
    freed client as its [data]. *)
Remark attach_failure_keeps_poller :
  ∃ id po,
    pollers (snd (dbus_create_socket_consumer
                    (SocketpairFds 6 7 (mkSocket [] [] [] []) (mkSocket [] [] [] []))
                    true false (sample_world [] [] 0 false))) !! id = Some po ∧
    pollers (sample_world [] [] 0 false) !! id = None ∧
    p_fd po = 6 ∧ p_data po = Some 1%nat.
Proof. exists 1%nat. eexists. split; [vm_compute; reflexivity|]. done. Qed.

(** * The escape parser: further properties *)

(** The parser invents nothing and keeps the order.  From any state but
    [escape_leader], whatever the reads: the parser returns, the tty log
    only grows, the bytes added to the sink are bytes of the input in
    their order (a subsequence of it), and at most one break is raised
    per [B] of the input. *)
Theorem parser_forwards_in_order (con : console) (reads : list (list Z)) :
  state con ≠ escape_leader →
  ∃ con' ev, feed_reads con reads = Some con' ∧
    tty con' = tty con ++ ev ∧
    sink_bytes ev `sublist_of` concat reads ∧
    (break_count ev ≤ count_byte char_B (concat reads))%nat.
Proof.
  intros Hst. destruct (feed_reads_total reads con) as [con' Hfeed].
  destruct (emitted_reads reads con con' Hfeed) as (ev & Hlog & Hsub & Hbr).
  exists con', ev. split; [done|]. split; [done|]. split; [|done].
  unfold pending in Hsub. rewrite (decide_False _ _ Hst) in Hsub.
  simpl in Hsub. etransitivity; [|done]. by apply sublist_inserts_r.
Qed.

Lemma parser_forwards_in_order_witness :
  ∃ con' ev,
    feed_reads (mkConsole escape_cr []) [[97; LF]; [tilde; char_B; 98]]
      = Some con' ∧
    tty con' = [] ++ ev ∧
    sink_bytes ev `sublist_of` concat [[97; LF]; [tilde; char_B; 98]] ∧
    (break_count ev ≤
       count_byte char_B (concat [[97; LF]; [tilde; char_B; 98]])%Z)%nat.
Proof.
  apply (parser_forwards_in_order (mkConsole escape_cr [])
           [[97; LF]; [tilde; char_B; 98]]).
  discriminate.
Defined.

(** The parser as a byte-by-byte automaton.  When no line feed of the
    input can be passed over by the idle scan, the reads, however the
    input is divided among them, leave the console that [byte_step]
    gives when it is run over the bytes of the input one after the
    other. *)
Theorem reads_follow_byte_step (con : console) (reads : list (list Z)) :
  lf_before_cr false (concat reads) = false →
  feed_reads con reads = Some (foldl byte_step con (concat reads)).
Proof.
  intros Hlf. apply feed_reads_bytes. by apply lf_before_cr_weaken.
Qed.

Lemma reads_follow_byte_step_witness :
  feed_reads (mkConsole escape_idle []) [[97; CR; LF]; [tilde]; [char_B; 98]]
  = Some (foldl byte_step (mkConsole escape_idle [])
            (concat [[97; CR; LF]; [tilde]; [char_B; 98]])).
Proof.
  apply (reads_follow_byte_step (mkConsole escape_idle [])
           [[97; CR; LF]; [tilde]; [char_B; 98]]).
  reflexivity.
Defined.

Lemma feed_reads_chunking_witness :
  feed_reads (mkConsole escape_lf []) [[tilde; 97; CR]; [LF; tilde; char_B]]
  = feed_reads (mkConsole escape_lf []) [[tilde]; [97]; [CR; LF; tilde]; [char_B]].
Proof.
  apply (feed_reads_chunking (mkConsole escape_lf [])
           [[tilde; 97; CR]; [LF; tilde; char_B]]
           [[tilde]; [97]; [CR; LF; tilde]; [char_B]]); reflexivity.
Defined.

(** An escape sequence inside a stream.  From the idle state, for an
    input [pre ++ nl ++ ~d ++ suf] with [d] one of [B] and [~], where
    [pre ++ nl] and [suf] hold no other escape sequence, [suf] does not
    end in a pending leader, and no line feed can be passed over by the
    idle scan: whatever the division into reads, the sink receives
    [pre], the newline and [suf], with one [~] between them when [d] is
    [~], and exactly one break is raised when [d] is [B], none
    otherwise. *)
Theorem escape_sequence_in_stream (con : console) (pre nl suf : list Z)
    (d : Z) (reads : list (list Z)) :
  state con = escape_idle →
  nl ∈ [[CR]; [LF]; [CR; LF]] →
  d = char_B ∨ d = tilde →
  has_escape (pre ++ nl) = false →
  has_escape suf = false → ends_with_leader suf = false →
  concat reads = pre ++ nl ++ [tilde; d] ++ suf →
  lf_before_cr false (concat reads) = false →
  ∃ con', feed_reads con reads = Some con' ∧
    sink_bytes (tty con') =
      sink_bytes (tty con) ++ pre ++ nl ++
      (if d =? char_B then [] else [tilde]) ++ suf ∧
    break_count (tty con') =
      (break_count (tty con) + (if (d =? char_B)%Z then 1 else 0))%nat.
Proof.
  intros Hst Hnl Hd Hpre Hsuf Hend Hcat Hlf.
  destruct (escape_in_context con pre nl suf d reads) as (con' & Hfeed & Hlog);
    try done.
  exists con'. split; [done|]. rewrite Hlog.
  rewrite !sink_bytes_app, !break_count_app, !sink_bytes_fmap,
    !break_count_fmap.
  destruct Hd as [-> | ->]; simpl.
  - split; [by rewrite <- !(assoc_L (++))|lia].
  - split; [by rewrite <- !(assoc_L (++))|lia].
Qed.

Lemma escape_sequence_in_stream_witness :
  ∃ con',
    feed_reads (mkConsole escape_idle [])
      [[120; CR]; [LF; tilde]; [char_B; 121; LF]] = Some con' ∧
    sink_bytes (tty con') =
      sink_bytes [] ++ [120] ++ [CR; LF] ++
      (if char_B =? char_B then [] else [tilde]) ++ [121; LF] ∧
    break_count (tty con') =
      (break_count [] + (if (char_B =? char_B)%Z then 1 else 0))%nat.
Proof.
  apply (escape_sequence_in_stream (mkConsole escape_idle [])
           [120] [CR; LF] [121; LF] char_B
           [[120; CR]; [LF; tilde]; [char_B; 121; LF]]);
    try reflexivity.
  - set_solver.
  - by left.
Defined.

(** * The readable client *)

Section poll_in.
Context (p id r : nat) (w : world) (c : client) (po : poller) (sk : socket)
  (events : Z).
Hypothesis Hc : heap w !! p = Some c.
Hypothesis Hr : c_rbc c = Some r.
Hypothesis Hsk : socks w !! c_fd c = Some sk.
Hypothesis Hin : p ∈ clients w.
Hypothesis Hnd : NoDup (clients w).
Hypothesis Hev : Z.land events POLLIN ≠ 0.

(** The [err_close] exit taken after a [recv] that left [inbox]. *)
Lemma client_poll_err_close_after inbox :
  ∃ w2,
    client_poll_err_close p
      (set_socks (<[c_fd c := with_inbox inbox sk]> (socks w)) w)
      = Some (POLLER_REMOVE, w2) ∧
    trace w2 = trace w ++ [EvClose (c_fd c); EvConsumerUnregister r; EvFree p] ∧
    pollers w2 = pollers w ∧
    consumers w2 = delete r (consumers w) ∧
    socks w2 !! c_fd c = None ∧
    heap w2 !! p = None ∧ (p ∉ clients w2).
Proof.
  unfold client_poll_err_close. cbn [heap set_socks]. rewrite Hc.
  cbn [mbind option_bind].
  set (c' := mkClient None (c_rbc c) (c_fd c) (c_blocked c)).
  set (w1 := set_heap _ _).
  destruct (client_close_in p w1 c') as (w2 & -> & Ht & Hs & Hp & Hcs & Hh & Hcl & _).
  { unfold w1. simpl. apply lookup_insert_eq. }
  { done. }
  cbn [mbind option_bind]. exists w2. split; [done|].
  unfold close_events in Ht. simpl in Ht, Hs, Hp, Hcs, Hh, Hcl.
  rewrite Hr in *. split; [done|]. split; [done|]. split; [done|].
  split; [rewrite Hs; apply lookup_delete_eq|].
  split; [rewrite Hh; apply lookup_delete_eq|].
  rewrite Hcl. by apply delete_client_index.
Qed.

Lemma pollin_set : negb (Z.land events POLLIN =? 0) = true.
Proof. by destruct (Z.eqb_spec (Z.land events POLLIN) 0). Qed.

(** A readable client whose [recv] gives nothing.  When it would block,
    [client_poll] returns [POLLER_OK] at once, whatever the other events,
    so a [POLLOUT] in the same call is not acted on.  When the peer has
    closed ([recv] returns 0) or [recv] fails otherwise, the client is
    closed with its poller handle cleared: the descriptor is closed, the
    consumer unregistered, the client freed and taken out of the set,
    and the poller is left for the caller, which is told
    [POLLER_REMOVE]. *)
Theorem client_poll_recv_failure :
  (sk_inbox sk = [] → client_poll p events w = Some (POLLER_OK, w)) ∧
  (∀ inbox, sk_inbox sk = RecvErrno EAGAIN :: inbox →
     client_poll p events w =
     Some (POLLER_OK,
           set_socks (<[c_fd c := with_inbox inbox sk]> (socks w)) w)) ∧
  (∀ o inbox, sk_inbox sk = o :: inbox →
     o = RecvData [] ∨ (∃ e, o = RecvErrno e ∧ e ≠ EAGAIN) →
     ∃ w2, client_poll p events w = Some (POLLER_REMOVE, w2) ∧
       trace w2 =
         trace w ++ [EvClose (c_fd c); EvConsumerUnregister r; EvFree p] ∧
       pollers w2 = pollers w ∧
       consumers w2 = delete r (consumers w) ∧
       socks w2 !! c_fd c = None ∧
       heap w2 !! p = None ∧ (p ∉ clients w2)).
Proof.
  unfold client_poll. rewrite pollin_set, Hc. cbn [mbind option_bind].
  unfold recv. rewrite Hsk. split; [|split].
  - intros ->. done.
  - intros inbox ->. done.
  - intros o inbox -> [-> | (e & -> & He)].
    + cbn [length take Z.of_nat Z.ltb Z.eqb Z.compare Nat.ltb Nat.leb].
      apply client_poll_err_close_after.
    + cbn [Z.ltb Z.compare].
      assert ((e =? EAGAIN) || (e =? EWOULDBLOCK) = false) as ->.
      { unfold EWOULDBLOCK, EAGAIN in *. destruct (Z.eqb_spec e 11); done. }
      apply client_poll_err_close_after.
Qed.

(** [client_poll] on a readable client that has sent something: at most
    4096 bytes, the parser, then the [POLLOUT] part. *)
Lemma client_poll_data data inbox :
  sk_inbox sk = RecvData data :: inbox → data ≠ [] →
  client_poll p events w =
  con' ← client_poll_feed (con w) (take 4096 data);
  client_poll_out p events
    (set_con con'
       (set_socks
          (<[c_fd c := with_inbox (inbox_after 4096 data inbox) sk]>
             (socks w)) w)).
Proof.
  intros Hinbox Hdata.
  unfold client_poll, recv, client_poll_feed, inbox_after, with_inbox.
  rewrite pollin_set, Hc. cbn [mbind option_bind].
  rewrite Hsk, Hinbox.
  assert (0 < 4096)%nat as Hsize by lia. revert Hsize.
  generalize 4096%nat. intros size Hsize.
  destruct data as [|x data]; [done|]. destruct size as [|size]; [lia|].
  cbn [take length]. rewrite Nat2Z.id.
  set (buf := x :: take size data).
  assert ((Z.of_nat (S (length (take size data))) <? 0) = false) as ->
    by (apply Z.ltb_ge; lia).
  assert ((Z.of_nat (S (length (take size data))) =? 0) = false) as ->
    by (apply Z.eqb_neq; lia).
  cbn [con set_socks].
  by destruct (client_poll_loop _ (con w) buf _ _) as [[con1 pos]|].
Qed.

(** A readable client that has sent something, with no [POLLOUT] in
    the events: at most 4096 bytes are taken and run through the
    parser, what is beyond them stays to be received, nothing else
    changes and the call returns [POLLER_OK]. *)
Theorem client_poll_feeds_parser data inbox :
  sk_inbox sk = RecvData data :: inbox → data ≠ [] →
  Z.land events POLLOUT = 0 →
  ∃ con', client_poll_feed (con w) (take 4096 data) = Some con' ∧
    client_poll p events w =
    Some (POLLER_OK,
          set_con con'
            (set_socks
               (<[c_fd c := with_inbox (inbox_after 4096 data inbox) sk]>
                  (socks w)) w)).
Proof.
  intros Hinbox Hdata Hout.
  destruct (client_poll_feed_total (con w) (take 4096 data)) as [con' Hfeed].
  exists con'. split; [done|].
  rewrite (client_poll_data data inbox), Hfeed by done.
  cbn [mbind option_bind]. unfold client_poll_out. by rewrite Hout.
Qed.
End poll_in.

(** The parser state belongs to the console, not to the client: what two
    clients send is run through one parser, in the order of the events. *)
Theorem client_poll_shares_parser (p1 p2 : nat) (w : world) (c1 c2 : client)
    (sk1 sk2 : socket) (d1 d2 : list Z) (in1 in2 : list recv_outcome) :
  heap w !! p1 = Some c1 → heap w !! p2 = Some c2 →
  c_fd c1 ≠ c_fd c2 →
  socks w !! c_fd c1 = Some sk1 → socks w !! c_fd c2 = Some sk2 →
  sk_inbox sk1 = RecvData d1 :: in1 → sk_inbox sk2 = RecvData d2 :: in2 →
  d1 ≠ [] → d2 ≠ [] →
  ∃ w1 w2,
    client_poll p1 POLLIN w = Some (POLLER_OK, w1) ∧
    client_poll p2 POLLIN w1 = Some (POLLER_OK, w2) ∧
    feed_reads (con w) [take 4096 d1; take 4096 d2] = Some (con w2) ∧
    heap w2 = heap w ∧ pollers w2 = pollers w ∧ consumers w2 = consumers w ∧
    clients w2 = clients w ∧ trace w2 = trace w.
Proof.
  intros Hc1 Hc2 Hfd Hsk1 Hsk2 Hin1 Hin2 Hd1 Hd2.
  destruct (client_poll_feed_total (con w) (take 4096 d1)) as [con1 Hfeed1].
  destruct (client_poll_feed_total con1 (take 4096 d2)) as [con2 Hfeed2].
  eexists _, _. split; [|split].
  - rewrite (client_poll_data p1 w c1 sk1 POLLIN Hc1 Hsk1 ltac:(done) d1 in1)
      by done.
    rewrite Hfeed1. reflexivity.
  - rewrite (client_poll_data p2 _ c2 sk2 POLLIN) with (data := d2) (inbox := in2);
      try done.
    + cbn [con set_con]. rewrite Hfeed2. reflexivity.
    + cbn [socks set_con set_socks]. by rewrite lookup_insert_ne.
  - cbn [feed_reads]. rewrite Hfeed1. cbn [mbind option_bind].
    rewrite Hfeed2. done.
Qed.

Lemma client_poll_recv_failure_witness :
  let w := inbox_world [RecvData []] in
  ∃ w2, client_poll 0 POLLIN w = Some (POLLER_REMOVE, w2) ∧
    trace w2 = trace w ++ [EvClose 5; EvConsumerUnregister 0; EvFree 0] ∧
    pollers w2 = pollers w ∧
    consumers w2 = delete 0%nat (consumers w) ∧
    socks w2 !! 5 = None ∧
    heap w2 !! 0%nat = None ∧ (0%nat ∉ clients w2).
Proof.
  intros w.
  destruct (client_poll_recv_failure 0 0 w
              (mkClient (Some 0%nat) (Some 0%nat) 5 false)
              (mkSocket [] [] [] [RecvData []]) POLLIN
              eq_refl eq_refl eq_refl
              ltac:(apply list_elem_of_here) ltac:(apply NoDup_singleton)
              ltac:(vm_compute; discriminate))
    as (_ & _ & H).
  apply (H (RecvData []) [] eq_refl). by left.
Defined.

Lemma client_poll_feeds_parser_witness :
  let w := inbox_world [RecvData [97; CR; tilde; char_B]] in
  ∃ con', client_poll_feed (con w) (take 4096 [97; CR; tilde; char_B])
            = Some con' ∧
    client_poll 0 POLLIN w =
    Some (POLLER_OK,
          set_con con'
            (set_socks
               (<[5 := with_inbox
                         (inbox_after 4096 [97; CR; tilde; char_B] [])
                         (mkSocket [] [] [] [RecvData [97; CR; tilde; char_B]])]>
                  (socks w)) w)).
Proof.
  intros w.
  apply (client_poll_feeds_parser 0 w
           (mkClient (Some 0%nat) (Some 0%nat) 5 false)
           (mkSocket [] [] [] [RecvData [97; CR; tilde; char_B]]) POLLIN);
    try reflexivity; try (vm_compute; discriminate).
Defined.

Lemma client_poll_shares_parser_witness :
  let w := two_clients [RecvData [97; LF; tilde]] [RecvData [char_B; 98]] in
  ∃ w1 w2,
    client_poll 0 POLLIN w = Some (POLLER_OK, w1) ∧
    client_poll 1 POLLIN w1 = Some (POLLER_OK, w2) ∧
    feed_reads (con w) [take 4096 [97; LF; tilde]; take 4096 [char_B; 98]]
      = Some (con w2) ∧
    heap w2 = heap w ∧ pollers w2 = pollers w ∧ consumers w2 = consumers w ∧
    clients w2 = clients w ∧ trace w2 = trace w.
Proof.
  intros w.
  apply (client_poll_shares_parser 0 1 w
           (mkClient (Some 0%nat) (Some 0%nat) 5 false)
           (mkClient (Some 1%nat) (Some 1%nat) 6 false)
           (mkSocket [] [] [] [RecvData [97; LF; tilde]])
           (mkSocket [] [] [] [RecvData [char_B; 98]])
           [97; LF; tilde] [char_B; 98] [] []);
    try reflexivity; try (vm_compute; discriminate).
Defined.

(** * The callbacks: further properties *)

Section callbacks_more.
Context (p id r : nat) (w : world) (c : client) (po : poller)
  (rb : consumer) (sk : socket).
Hypothesis Hc : heap w !! p = Some c.
Hypothesis Hid : c_poller c = Some id.
Hypothesis Hpo : pollers w !! id = Some po.
Hypothesis Hr : c_rbc c = Some r.
Hypothesis Hrb : consumers w !! r = Some rb.
Hypothesis Hsk : socks w !! c_fd c = Some sk.
Hypothesis Hin : p ∈ clients w.
Hypothesis Hnd : NoDup (clients w).
Hypothesis Hmax : Z.of_nat (length (rb_pending rb)) ≤ SIZE_MAX.

Lemma watches_conn c1 po1 sk1 w1 :
  c_poller c1 = Some id → p_events po1 = events_for (c_blocked c1) →
  watches p (conn p c1 id po1 (c_fd c) sk1 w1).
Proof.
  intros Hid1 Hev. exists c1, id, po1.
  by rewrite heap_conn, pollers_conn.
Qed.

Lemma watches_after b c1 po1 :
  p_events po1 = events_for (c_blocked c1) →
  p_events (poller_after b c1 po1) = events_for (c_blocked (client_after b c1)).
Proof.
  unfold poller_after, client_after. intros Hev.
  destruct b, (c_blocked c1) eqn:Hb; simpl; by rewrite ?Hev, ?Hb.
Qed.

Lemma drain_runs force_len :
  ∃ rc w', client_drain_queue p force_len w = Some (rc, w') ∧
    (rc = 0 ∨ rc = -1) ∧
    ∃ b sk' w0,
      w' = conn p (client_after b c) id (poller_after b c po) (c_fd c) sk' w0.
Proof.
  destruct (decide (force_len = 0 ∧ c_blocked c = true)) as [[-> Hb]|Hnb].
  - rewrite (client_drain_queue_blocked p w c) by done.
    eexists _, _. split; [done|]. split; [by left|].
    exists false, sk, w. rewrite client_after_false, poller_after_false.
    by rewrite conn_id.
  - destruct (client_drain_queue_conn p id (c_fd c) r force_len c po sk rb w)
      as (total & wlen & b & sk' & _ & _ & Hrun); try done.
    rewrite (conn_id p id (c_fd c) c po sk w) in Hrun by done.
    eexists _, _. split; [done|]. split.
    + unfold drain_result. destruct (_ || _); [by right|by left].
    + by eexists _, _, _.
Qed.

(** The poller of a client watches for writability exactly while the
    client is marked blocked: the handler keeps this. *)
Theorem pollout_watched_while_blocked :
  p_events po = events_for (c_blocked c) →
  (∀ b, ∃ w', client_set_blocked p b w = Some w' ∧ watches p w') ∧
  (∀ buf len block, 0 ≤ len ≤ Z.of_nat (length buf) →
     ∃ ret w', send_all p buf len block w = Some (ret, w') ∧ watches p w') ∧
  (∀ force_len,
     ∃ rc w', client_drain_queue p force_len w = Some (rc, w') ∧
              watches p w') ∧
  (∃ ret w', client_poll p POLLOUT w = Some (ret, w') ∧
             (ret = POLLER_OK → watches p w')).
Proof.
  intros Hev. split; [|split; [|split]].
  - intros b.
    pose proof (client_set_blocked_conn p id (c_fd c) b c po sk w Hid) as Hset.
    rewrite (conn_id p id (c_fd c) c po sk w) in Hset at 1 by done.
    eexists. split; [done|]. apply watches_conn; [done|].
    case_bool_decide as Hb; simpl; [by rewrite <- Hb|done].
  - intros buf len block Hlen.
    destruct (send_all_sent_all p id (c_fd c) buf len block c po sk w)
      as (ret & b & sk' & Hrun & _); try done.
    rewrite (conn_id p id (c_fd c) c po sk w) in Hrun by done.
    eexists _, _. split; [done|]. apply watches_conn; [done|].
    by apply watches_after.
  - intros force_len.
    destruct (drain_runs force_len) as (rc & w' & Hrun & _ & b & sk' & w0 & ->).
    eexists _, _. split; [done|]. apply watches_conn; [done|].
    by apply watches_after.
  - unfold client_poll, client_poll_out. cbn [Z.land POLLOUT POLLIN Pos.land].
    cbn [Z.eqb negb].
    pose proof (client_set_blocked_conn p id (c_fd c) false c po sk w Hid) as Hset.
    rewrite (conn_id p id (c_fd c) c po sk w) in Hset at 1 by done.
    rewrite Hset. clear Hset. cbn [mbind option_bind].
    set (c0 := client_with_blocked false c).
    set (po0 := if bool_decide (c_blocked c = false) then po
                else poller_with_events (events_for false) po).
    assert (p_events po0 = events_for (c_blocked c0)) as Hev0.
    { unfold po0. case_bool_decide as Hb; simpl; [by rewrite Hev, Hb|done]. }
    destruct (client_drain_queue_conn p id (c_fd c) r 0 c0 po0 sk rb w)
      as (total & wlen & b & sk' & _ & _ & ->); try done.
    { intros [_ ?]. done. }
    cbn [mbind option_bind].
    destruct (Z.eqb_spec (drain_result 0 total wlen) 0) as [Hok|Hfail];
      cbn [negb].
    + eexists _, _. split; [done|]. intros _.
      apply watches_conn; [done|]. by apply watches_after.
    + unfold client_poll_err_close. rewrite (heap_conn p id (c_fd c)).
      cbn [mbind option_bind]. rewrite (set_heap_conn p id (c_fd c)).
      destruct (close_conn p id w c Hin Hnd
                  (mkClient None (c_rbc (client_after b c0))
                     (c_fd (client_after b c0)) (c_blocked (client_after b c0)))
                  (poller_after b c0 po0) sk')
        as (w2 & -> & _).
      cbn [mbind option_bind]. eexists _, _. split; [done|]. done.
Qed.

(** The idle timer of a client that is not blocked: an unforced drain,
    and a full close when it fails. *)
Theorem client_timeout_drains_or_closes :
  c_blocked c = false →
  ∃ rc w1, client_drain_queue p 0 w = Some (rc, w1) ∧
    (rc = 0 → client_timeout p w = Some (POLLER_OK, w1)) ∧
    (rc ≠ 0 →
       ∃ w2, client_timeout p w = Some (POLLER_REMOVE, w2) ∧
         trace w2 = trace w ++
           [EvClose (c_fd c); EvPollerUnregister id;
            EvConsumerUnregister r; EvFree p] ∧
         pollers w2 !! id = None ∧ consumers w2 !! r = None ∧
         socks w2 !! c_fd c = None ∧
         heap w2 !! p = None ∧ (p ∉ clients w2)).
Proof.
  intros Hb. unfold client_timeout. rewrite Hc. cbn [mbind option_bind].
  rewrite Hb.
  destruct (drain_runs 0) as (rc & w1 & Hrun & _).
  exists rc, w1. split; [done|]. rewrite Hrun. cbn [mbind option_bind].
  split.
  - by intros ->.
  - intros Hrc. destruct (Z.eqb_spec rc 0); [done|]. cbn [negb].
    destruct (failed_drain_world p id r w c po rb sk Hc Hid Hpo Hr Hrb Hsk
                Hmax 0 rc w1 Hrun Hrc)
      as (c1 & po1 & sk1 & -> & Hid1 & Hr1 & Hfd1).
    destruct (close_conn p id w c Hin Hnd c1 po1 sk1)
      as (w2 & -> & Ht & Hcs & Hp & Hs & Hh & Hcl).
    cbn [mbind option_bind]. exists w2. split; [done|].
    unfold close_events in Ht. rewrite Hid1, Hr1, Hfd1 in *.
    split; [done|].
    split; [rewrite Hp; apply lookup_delete_eq|].
    split; [rewrite Hcs; apply lookup_delete_eq|].
    split; [rewrite Hs; apply lookup_delete_eq|]. done.
Qed.

Lemma commit_nothing : ringbuffer_dequeue_commit rb 0 = rb.
Proof.
  unfold ringbuffer_dequeue_commit. simpl. rewrite Nat.sub_0_r.
  by destruct rb.
Qed.

Lemma set_consumers_same : set_consumers (consumers w) w = w.
Proof. by destruct w. Qed.

(** Edges of the drain: an empty queue, a kernel error on the first run,
    and a forced drain that asks for more than is queued. *)
Theorem client_drain_queue_edges (force_len : Z) :
  0 ≤ force_len →
  (rb_pending rb = [] →
     client_drain_queue p force_len w =
     Some (if force_len =? 0 then 0 else -1, w)) ∧
  (∀ e script,
     rb_pending rb ≠ [] →
     Z.of_nat (length (rb_pending rb)) ≤ SSIZE_MAX →
     sk_script sk = SendErrno e :: script →
     e ≠ EINTR → force_len ≠ 0 ∨ (e ≠ EAGAIN ∧ c_blocked c = false) →
     client_drain_queue p force_len w =
     Some (-1,
           conn p c id po (c_fd c)
             (mkSocket script (sk_wire sk)
                (sk_flags sk ++ [send_flags (negb (force_len =? 0))])
                (sk_inbox sk)) w)) ∧
  (rb_pending rb ≠ [] →
   Z.of_nat (length (rb_pending rb)) ≤ SSIZE_MAX →
   Z.of_nat (length (rb_pending rb)) < force_len →
   sk_script sk = [] →
   ∃ sk', client_drain_queue p force_len w =
            Some (-1, conn p c id po (c_fd c) sk' w) ∧
          sk_wire sk' = sk_wire sk ++ rb_pending rb).
Proof.
  intros Hforce. split; [|split].
  - intros Hempty. unfold client_drain_queue. rewrite Hc.
    cbn [mbind option_bind].
    destruct (Z.eqb_spec force_len 0) as [->|Hne]; cbn [negb andb].
    + destruct (c_blocked c); [done|].
      unfold drain_fuel. cbn [drain_loop]. rewrite Hc. cbn [mbind option_bind].
      rewrite Hr. cbn [mbind option_bind]. rewrite Hrb.
      cbn [mbind option_bind].
      rewrite peek_empty by (unfold ringbuffer_len; rewrite Hempty; simpl; lia).
      change (Z.of_nat (length (@nil Z))) with 0.
      cbn [Z.eqb Z.ltb Z.compare mbind option_bind negb andb].
      rewrite Hc. cbn [mbind option_bind]. rewrite Hr. cbn [mbind option_bind].
      rewrite Hrb. cbn [mbind option_bind].
      by rewrite commit_nothing, insert_id, set_consumers_same.
    + unfold drain_fuel. cbn [drain_loop]. rewrite Hc. cbn [mbind option_bind].
      rewrite Hr. cbn [mbind option_bind]. rewrite Hrb.
      cbn [mbind option_bind].
      rewrite peek_empty by (unfold ringbuffer_len; rewrite Hempty; simpl; lia).
      change (Z.of_nat (length (@nil Z))) with 0.
      cbn [Z.eqb Z.ltb Z.compare mbind option_bind negb andb].
      destruct (Z.eqb_spec force_len 0); [done|]. cbn [negb andb].
      by destruct (Z.ltb_spec 0 force_len); [|lia].
  - intros e script Hne Hsm Hs He Hmode.
    set (block := negb (force_len =? 0)).
    set (sk1 := mkSocket script (sk_wire sk) (sk_flags sk ++ [send_flags block])
                  (sk_inbox sk)).
    assert (client_drain_queue p force_len (conn p c id po (c_fd c) sk w) =
            Some (-1, conn p c id po (c_fd c) sk1 w)) as Hrun.
    { unfold client_drain_queue. rewrite heap_conn. cbn [mbind option_bind].
      fold block.
      assert (negb block && c_blocked c = false) as ->.
      { unfold block. destruct (Z.eqb_spec force_len 0) as [->|]; [|done].
        destruct Hmode as [?|[_ ->]]; done. }
      rewrite (drain_fuel_conn p id (c_fd c) r c po sk rb w) by done.
      cbn [drain_loop]. rewrite heap_conn. cbn [mbind option_bind].
      rewrite Hr. cbn [mbind option_bind]. rewrite consumers_conn, Hrb.
      cbn [mbind option_bind].
      destruct (peek_run rb 0) as (n & Hn & Hnle & Hpeek & Hlen).
      { unfold ringbuffer_len. destruct (rb_pending rb); [done|]. simpl. lia. }
      unfold ringbuffer_len in Hnle.
      rewrite Hlen. destruct (Z.eqb_spec (Z.of_nat n) 0); [lia|].
      unfold send_all.
      destruct (Z.ltb_spec SSIZE_MAX (Z.of_nat n)); [lia|].
      rewrite heap_conn. cbn [mbind option_bind].
      rewrite send_fuel_conn, Hs. cbn [length].
      destruct (send_all_loop_failures p id (c_fd c)
                  (ringbuffer_dequeue_peek rb 0) (Z.of_nat n) block
                  (S (length script)) 0 sk c po w script)
        as [Herr _]; [done|lia|lia|lia|].
      destruct (Herr e Hs) as [_ Hfail].
      change (if block then MSG_NOSIGNAL else Z.lor MSG_NOSIGNAL MSG_DONTWAIT)
        with (send_flags block).
      rewrite Hfail; [done|done|].
      unfold block. destruct (Z.eqb_spec force_len 0) as [->|]; [|by left].
      right. destruct Hmode as [?|[? _]]; done. }
    by rewrite (conn_id p id (c_fd c) c po sk w) in Hrun.
  - intros Hne Hsm Hlt Hs.
    destruct (client_drain_queue_conn p id (c_fd c) r force_len c po sk rb w)
      as (total & wlen & b & sk' & _ & Hdr & Hrun); try done.
    { intros [-> _]. lia. }
    rewrite (conn_id p id (c_fd c) c po sk w) in Hrun by done.
    destruct Hdr as (Ht & _ & _ & _ & _ & _ & Hwire).
    destruct Hwire as (Hw1 & _ & Hw3); [rewrite Hs; constructor|].
    destruct (Hw3 Hs Hsm) as (H0 & -> & [->|[_ ?]]); [|lia].
    exists sk'. rewrite Hrun, client_after_false, poller_after_false.
    assert (drain_result force_len (Z.of_nat (length (rb_pending rb))) wlen = -1)
      as ->.
    { unfold drain_result. destruct (Z.eqb_spec force_len 0); [lia|].
      destruct (Z.ltb_spec (Z.of_nat (length (rb_pending rb))) force_len);
        [|lia]. by rewrite orb_true_r. }
    split; [done|]. rewrite (Hw1 H0). unfold range. simpl.
    by rewrite drop_0, Z.sub_0_r, Nat2Z.id, firstn_all.
Qed.
End callbacks_more.

Lemma pollout_watched_while_blocked_witness :
  let w := sample_world [SendAccept 1; SendErrno EAGAIN] [97; 98; 99] 0 true in
  ∃ ret w', client_poll 0 POLLOUT w = Some (ret, w') ∧
            (ret = POLLER_OK → watches 0 w').
Proof.
  intros w.
  apply (pollout_watched_while_blocked 0 0 0 w
           (mkClient (Some 0%nat) (Some 0%nat) 5 true)
           (mkPoller 5 (events_for true) None (Some 0%nat))
           (mkConsumer [97; 98; 99] 0)
           (mkSocket [SendAccept 1; SendErrno EAGAIN] [] [] []));
    try reflexivity.
  - apply list_elem_of_here.
  - apply NoDup_singleton.
  - vm_compute; discriminate.
Defined.

Lemma client_timeout_drains_or_closes_witness :
  let w := sample_world [SendErrno 32] [97; 98; 99] 0 false in
  ∃ rc w1, client_drain_queue 0 0 w = Some (rc, w1) ∧
    (rc = 0 → client_timeout 0 w = Some (POLLER_OK, w1)) ∧
    (rc ≠ 0 →
       ∃ w2, client_timeout 0 w = Some (POLLER_REMOVE, w2) ∧
         trace w2 = trace w ++
           [EvClose 5; EvPollerUnregister 0; EvConsumerUnregister 0; EvFree 0] ∧
         pollers w2 !! 0%nat = None ∧ consumers w2 !! 0%nat = None ∧
         socks w2 !! 5 = None ∧
         heap w2 !! 0%nat = None ∧ (0%nat ∉ clients w2)).
Proof.
  intros w.
  apply (client_timeout_drains_or_closes 0 0 0 w
           (mkClient (Some 0%nat) (Some 0%nat) 5 false)
           (mkPoller 5 POLLIN None (Some 0%nat))
           (mkConsumer [97; 98; 99] 0)
           (mkSocket [SendErrno 32] [] [] []));
    try reflexivity.
  - apply list_elem_of_here.
  - apply NoDup_singleton.
  - vm_compute; discriminate.
Defined.

Lemma client_drain_queue_edges_witness :
  let w := sample_world [] [97; 98; 99] 0 false in
  ∃ sk', client_drain_queue 0 4 w =
           Some (-1, conn 0 (mkClient (Some 0%nat) (Some 0%nat) 5 false) 0
                       (mkPoller 5 POLLIN None (Some 0%nat)) 5 sk' w) ∧
         sk_wire sk' = [] ++ [97; 98; 99].
Proof.
  intros w.
  destruct (client_drain_queue_edges 0 0 0 w
              (mkClient (Some 0%nat) (Some 0%nat) 5 false)
              (mkPoller 5 POLLIN None (Some 0%nat))
              (mkConsumer [97; 98; 99] 0)
              (mkSocket [] [] [] [])
              eq_refl eq_refl eq_refl eq_refl eq_refl eq_refl
              ltac:(apply list_elem_of_here) ltac:(apply NoDup_singleton)
              ltac:(vm_compute; discriminate) 4 ltac:(vm_compute; discriminate))
    as (_ & _ & H).
  apply H; try reflexivity; try (vm_compute; discriminate).
Defined.
Section batching.
Context (p id r : nat) (w : world) (c : client) (po : poller)
  (rb : consumer) (sk : socket).
Hypothesis Hc : heap w !! p = Some c.
Hypothesis Hid : c_poller c = Some id.
Hypothesis Hpo : pollers w !! id = Some po.
Hypothesis Hr : c_rbc c = Some r.
Hypothesis Hrb : consumers w !! r = Some rb.
Hypothesis Hsk : socks w !! c_fd c = Some sk.

Lemma conn_poller po' :
  conn p c id po' (c_fd c) sk w = set_pollers (<[id := po']> (pollers w)) w.
Proof.
  unfold conn. simpl. rewrite (insert_id (heap w)), (insert_id (socks w)) by done.
  by destruct w.
Qed.

(** Batching.  For a client that is not blocked, with fewer than 512
    bytes queued and a socket that takes what it is given: the
    notification of the ring buffer sends nothing and arms the 4 ms
    timer; the timer callback then writes the whole queue to the socket,
    in order, and commits it, leaving the queue empty. *)
Theorem deferred_bytes_flushed_by_timer :
  c_blocked c = false →
  ringbuffer_len rb < SOCKET_HANDLER_PKT_SIZE →
  sk_script sk = [] →
  ∃ w1 w2 sk' rb',
    client_ringbuffer_poll p 0 w = Some (RINGBUFFER_POLL_OK, w1) ∧
    socks w1 = socks w ∧ consumers w1 = consumers w ∧
    pollers w1 !! id = Some (poller_with_timeout (0, 4000) po) ∧
    client_timeout p w1 = Some (POLLER_OK, w2) ∧
    socks w2 !! c_fd c = Some sk' ∧
    sk_wire sk' = sk_wire sk ++ rb_pending rb ∧
    consumers w2 !! r = Some rb' ∧ rb_pending rb' = [] ∧
    heap w2 !! p = Some c.
Proof.
  intros Hb Hlen Hs.
  set (po1 := poller_with_timeout (0, 4000) po).
  assert (client_ringbuffer_poll p 0 w =
          Some (RINGBUFFER_POLL_OK, conn p c id po1 (c_fd c) sk w)) as Hpoll.
  { unfold client_ringbuffer_poll. rewrite Hc. cbn [mbind option_bind].
    rewrite Hr. cbn [mbind option_bind]. rewrite Hrb. cbn [mbind option_bind].
    cbn [Z.eqb andb].
    destruct (Z.ltb_spec (ringbuffer_len rb) SOCKET_HANDLER_PKT_SIZE); [|lia].
    rewrite Hid. cbn [mbind option_bind].
    unfold console_poller_set_timeout. rewrite Hpo. cbn [mbind option_bind].
    by rewrite conn_poller. }
  assert (Z.of_nat (length (rb_pending rb)) ≤ SSIZE_MAX) as Hsm.
  { unfold ringbuffer_len, SOCKET_HANDLER_PKT_SIZE in Hlen.
    pose proof size_bounds. unfold SSIZE_MAX in *. lia. }
  destruct (client_drain_queue_conn p id (c_fd c) r 0 c po1 sk rb w)
    as (total & wlen & b & sk' & _ & Hdr & Hrun); try done.
  { pose proof size_bounds. lia. }
  { intros [_ ?]. congruence. }
  destruct Hdr as (Ht & _ & _ & _ & _ & _ & Hwire).
  destruct Hwire as (Hw1 & _ & Hw3); [rewrite Hs; constructor|].
  destruct (Hw3 Hs Hsm) as (H0 & -> & [->|[? _]]); [|done].
  assert (drain_result 0 (Z.of_nat (length (rb_pending rb))) wlen = 0) as Hres.
  { unfold drain_result. by destruct (Z.ltb_spec wlen 0); [lia|]. }
  rewrite Hres, client_after_false, poller_after_false in Hrun.
  cbn [Z.eqb] in Hrun.
  exists (set_pollers (<[id := po1]> (pollers w)) w).
  eexists _, sk', _.
  rewrite <- conn_poller. split; [done|].
  split; [by rewrite conn_poller|]. split; [by rewrite conn_poller|].
  split; [apply pollers_conn|].
  split.
  { unfold client_timeout. rewrite heap_conn. cbn [mbind option_bind].
    rewrite Hb, Hrun. cbn [mbind option_bind Z.eqb negb]. reflexivity. }
  split; [apply socks_conn|].
  split.
  { rewrite (Hw1 H0). unfold range. simpl.
    by rewrite drop_0, Z.sub_0_r, Nat2Z.id, firstn_all. }
  split; [rewrite consumers_conn; apply lookup_insert_eq|].
  split; [|apply heap_conn].
  unfold ringbuffer_dequeue_commit. simpl. by rewrite Nat2Z.id, drop_all.
Qed.
End batching.

Lemma deferred_bytes_flushed_by_timer_witness :
  let w := sample_world [] [97; 98; 99] 2 false in
  ∃ w1 w2 sk' rb',
    client_ringbuffer_poll 0 0 w = Some (RINGBUFFER_POLL_OK, w1) ∧
    socks w1 = socks w ∧ consumers w1 = consumers w ∧
    pollers w1 !! 0%nat =
      Some (poller_with_timeout (0, 4000) (mkPoller 5 POLLIN None (Some 0%nat))) ∧
    client_timeout 0 w1 = Some (POLLER_OK, w2) ∧
    socks w2 !! 5 = Some sk' ∧
    sk_wire sk' = [] ++ [97; 98; 99] ∧
    consumers w2 !! 0%nat = Some rb' ∧ rb_pending rb' = [] ∧
    heap w2 !! 0%nat = Some (mkClient (Some 0%nat) (Some 0%nat) 5 false).
Proof.
  intros w.
  apply (deferred_bytes_flushed_by_timer 0 0 0 w
           (mkClient (Some 0%nat) (Some 0%nat) 5 false)
           (mkPoller 5 POLLIN None (Some 0%nat))
           (mkConsumer [97; 98; 99] 2)
           (mkSocket [] [] [] [])); reflexivity.
Defined.

(** * Accepting, attaching and closing *)

Section lifecycle_more.
Implicit Types (w : world) (c : client).

Lemma client_register_result p fd rbc_ok w :
  ∃ id w1,
    client_register p fd rbc_ok w =
      (if rbc_ok then Some (fresh (dom (consumers w))) else None, w1) ∧
    heap w1 =
      <[p := mkClient (Some id)
               (if rbc_ok then Some (fresh (dom (consumers w))) else None)
               fd false]> (heap w) ∧
    clients w1 = clients w ∧ trace w1 = trace w ∧ socks w1 = socks w ∧
    con w1 = con w ∧ handlers w1 = handlers w ∧
    consumers w1 =
      (if rbc_ok
       then <[fresh (dom (consumers w)) := mkConsumer [] 0]> (consumers w)
       else consumers w) ∧
    consumers w !! fresh (dom (consumers w)) = None ∧
    pollers w1 = <[id := mkPoller fd POLLIN None (Some p)]> (pollers w) ∧
    pollers w !! id = None.
Proof.
  unfold client_register, console_poller_register,
    console_ringbuffer_consumer_register.
  destruct rbc_ok; simpl; eexists _, _; (split; [reflexivity|]); simpl;
    rewrite !insert_insert_eq; split_and!; try done;
    apply not_elem_of_dom, is_fresh.
Qed.

Lemma client_index_fresh cs p i :
  p ∉ cs → client_index (cs ++ [p]) p i = (i + length cs)%nat.
Proof.
  revert i. induction cs as [|q cs IH]; intros i Hp; simpl.
  - rewrite decide_True by done. lia.
  - apply not_elem_of_cons in Hp as [Hne Hp].
    rewrite decide_False by done. rewrite IH by done. lia.
Qed.

Lemma delete_last_client (cs : list nat) p :
  p ∉ cs → delete (client_index (cs ++ [p]) p 0) (cs ++ [p]) = cs.
Proof.
  intros Hp. rewrite client_index_fresh by done. simpl.
  by rewrite (delete_middle cs [] p), app_nil_r.
Qed.

Lemma fresh_client w : set_inv w → malloc w ∉ clients w.
Proof.
  intros [_ Hinv] Hin. apply Hinv in Hin as [c Hc].
  by rewrite malloc_fresh in Hc.
Qed.

(** Closing a client that was just registered and appended to the set,
    in a world with the descriptor [fd] open. *)
Lemma register_then_close fd rbc_ok w sk :
  set_inv w → socks w !! fd = Some sk →
  ∃ id w1 w2,
    client_register (malloc w) fd rbc_ok w =
      (if rbc_ok then Some (fresh (dom (consumers w))) else None, w1) ∧
    pollers w !! id = None ∧
    pollers w1 !! id = Some (mkPoller fd POLLIN None (Some (malloc w))) ∧
    heap w1 !! malloc w =
      Some (mkClient (Some id)
              (if rbc_ok then Some (fresh (dom (consumers w))) else None)
              fd false) ∧
    client_close (malloc w) (clients_append (malloc w) w1) = Some w2 ∧
    heap w2 = heap w ∧ clients w2 = clients w ∧ pollers w2 = pollers w ∧
    consumers w2 = consumers w ∧ socks w2 = delete fd (socks w) ∧
    con w2 = con w ∧
    trace w2 = trace w ++
      [EvClose fd; EvPollerUnregister id] ++
      (if rbc_ok then [EvConsumerUnregister (fresh (dom (consumers w)))]
       else []) ++
      [EvFree (malloc w)].
Proof.
  intros Hinv Hfd.
  destruct (client_register_result (malloc w) fd rbc_ok w)
    as (id & w1 & Hreg & Hh & Hcl & Ht & Hs & Hcon & _ & Hcs & Hfresh & Hp & Hid).
  set (c := mkClient _ _ _ _) in Hh.
  destruct (client_close_in (malloc w) (clients_append (malloc w) w1) c)
    as (w2 & Hrun & Ht2 & Hs2 & Hp2 & Hcs2 & Hh2 & Hcl2 & Hcon2 & _).
  { simpl. rewrite Hh. apply lookup_insert_eq. }
  { simpl. rewrite Hcl. set_solver. }
  exists id, w1, w2. simpl in *.
  split; [done|]. split; [done|].
  split; [rewrite Hp; apply lookup_insert_eq|].
  split; [rewrite Hh; apply lookup_insert_eq|].
  split; [done|].
  split; [rewrite Hh2, Hh; apply delete_insert_id, malloc_fresh|].
  split; [rewrite Hcl2, Hcl; by apply delete_last_client, fresh_client|].
  split; [rewrite Hp2, Hp; by apply delete_insert_id|].
  split.
  { rewrite Hcs2, Hcs. destruct rbc_ok; [|done]. by apply delete_insert_id. }
  split; [by rewrite Hs2, Hs|]. split; [by rewrite Hcon2|].
  rewrite Ht2, Ht. unfold close_events, c. simpl. by destruct rbc_ok.
Qed.
End lifecycle_more.

(** Accepting a connection and closing it again.  [socket_poll] gives
    the new client a poller for [POLLIN] on the accepted descriptor and
    a consumer; it does not check that the consumer could be registered,
    and the client is entered in the set with or without one.  Closing
    that client undoes the accept: the client set, the allocated
    clients, the pollers, the consumers and the open descriptors are as
    before. *)
Theorem accept_then_close (events fd : Z) (sk : socket) (rbc_ok : bool)
    (w : world) :
  set_inv w → Z.land events POLLIN ≠ 0 → 0 ≤ fd → socks w !! fd = None →
  let r := if rbc_ok then Some (fresh (dom (consumers w))) else None in
  ∃ id w1 w2,
    socket_poll events fd sk true rbc_ok w = Some (POLLER_OK, w1) ∧
    clients w1 = clients w ++ [malloc w] ∧
    heap w1 !! malloc w = Some (mkClient (Some id) r fd false) ∧
    pollers w1 !! id = Some (mkPoller fd POLLIN None (Some (malloc w))) ∧
    client_close (malloc w) w1 = Some w2 ∧
    heap w2 = heap w ∧ clients w2 = clients w ∧ pollers w2 = pollers w ∧
    consumers w2 = consumers w ∧ socks w2 = socks w ∧ con w2 = con w ∧
    trace w2 = trace w ++
      [EvClose fd; EvPollerUnregister id] ++
      from_option (λ r0, [EvConsumerUnregister r0]) [] r ++
      [EvFree (malloc w)].
Proof.
  intros Hinv Hev Hfd Hfree r. unfold socket_poll.
  destruct (Z.eqb_spec (Z.land events POLLIN) 0); [done|].
  destruct (Z.ltb_spec fd 0); [lia|]. cbn [negb].
  set (ws := set_socks (<[fd := sk]> (socks w)) w).
  change (malloc ws) with (malloc w).
  destruct (register_then_close fd rbc_ok ws sk)
    as (id & w1 & w2 & Hreg & _ & Hp1 & Hh1 & Hrun & Hh & Hcl & Hp & Hcs & Hs
        & Hcon & Ht).
  { by eapply set_inv_same. }
  { apply lookup_insert_eq. }
  change (malloc ws) with (malloc w) in *. rewrite Hreg.
  exists id, (clients_append (malloc w) w1), w2.
  split; [done|]. split.
  { destruct (client_register_result (malloc w) fd rbc_ok ws)
      as (? & ? & Hreg' & _ & Hcl' & _).
    rewrite Hreg in Hreg'. injection Hreg' as <-. simpl. by rewrite Hcl'. }
  split; [done|]. split; [done|]. split; [done|].
  split; [done|]. split; [done|]. split; [done|]. split; [done|].
  split; [rewrite Hs; by apply delete_insert_id|]. split; [done|].
  rewrite Ht. unfold r. by destruct rbc_ok.
Qed.

(** Attaching and closing again.  After a successful
    [dbus_create_socket_consumer], closing the new client restores the
    client set, the allocated clients, the pollers and the consumers,
    and closes the server's end of the pair only: the descriptor handed
    to the caller stays open. *)
Theorem attach_then_close (fd0 fd1 : Z) (sk0 sk1 : socket) (w : world) :
  set_inv w → find_socket_handler (handlers w) = true →
  fd0 ≠ fd1 → socks w !! fd0 = None →
  ∃ id w1 w2,
    dbus_create_socket_consumer (SocketpairFds fd0 fd1 sk0 sk1) true true w
      = (fd1, w1) ∧
    pollers w1 !! id = Some (mkPoller fd0 POLLIN None (Some (malloc w))) ∧
    client_close (malloc w) w1 = Some w2 ∧
    heap w2 = heap w ∧ clients w2 = clients w ∧ pollers w2 = pollers w ∧
    consumers w2 = consumers w ∧ con w2 = con w ∧
    socks w2 = <[fd1 := sk1]> (socks w) ∧
    trace w2 = trace w ++
      [EvClose fd0; EvPollerUnregister id;
       EvConsumerUnregister (fresh (dom (consumers w))); EvFree (malloc w)].
Proof.
  intros Hinv Hsh Hne Hfree. unfold dbus_create_socket_consumer.
  rewrite Hsh. cbn [negb].
  set (ws := set_socks (<[fd1 := sk1]> (<[fd0 := sk0]> (socks w))) w).
  change (malloc ws) with (malloc w).
  destruct (register_then_close fd0 true ws sk0)
    as (id & w1 & w2 & Hreg & _ & Hp1 & Hh1 & Hrun & Hh & Hcl & Hp & Hcs & Hs
        & Hcon & Ht).
  { by eapply set_inv_same. }
  { unfold ws. simpl. rewrite lookup_insert_ne by done. apply lookup_insert_eq. }
  change (malloc ws) with (malloc w) in *. rewrite Hreg.
  exists id, (clients_append (malloc w) w1), w2.
  split; [done|]. split; [done|]. split; [done|].
  split; [done|]. split; [done|]. split; [done|]. split; [done|].
  split; [done|]. split; [|done].
  rewrite Hs. unfold ws. simpl. rewrite delete_insert_ne by done.
  by rewrite delete_insert_id.
Qed.

(** When the consumer cannot be registered, the attach frees the client
    and closes both descriptors but does not unregister the poller it
    had registered for the client: that poller stays with the console,
    on a closed descriptor, with the freed client as its [data]. *)
Theorem attach_failure_leaves_poller (fd0 fd1 : Z) (sk0 sk1 : socket)
    (w : world) :
  find_socket_handler (handlers w) = true →
  let w' := snd (dbus_create_socket_consumer
                   (SocketpairFds fd0 fd1 sk0 sk1) true false w) in
  ∃ id,
    pollers w !! id = None ∧
    pollers w' = <[id := mkPoller fd0 POLLIN None (Some (malloc w))]> (pollers w) ∧
    heap w' !! malloc w = None ∧
    socks w' !! fd0 = None ∧
    trace w' = trace w ++ [EvFree (malloc w); EvClose fd0; EvClose fd1].
Proof.
  intros Hsh. unfold dbus_create_socket_consumer. rewrite Hsh. cbn [negb].
  set (ws := set_socks (<[fd1 := sk1]> (<[fd0 := sk0]> (socks w))) w).
  change (malloc ws) with (malloc w).
  destruct (client_register_result (malloc w) fd0 false ws)
    as (id & w1 & -> & Hh & Hcl & Ht & Hs & _ & _ & _ & _ & Hp & Hid).
  cbn [snd]. exists id. unfold ws in *. simpl in *.
  split; [done|]. split; [done|].
  split; [rewrite Hh; apply lookup_delete_eq|].
  split.
  - rewrite Hs, !lookup_delete. by repeat case_decide.
  - by rewrite Ht, <- !(assoc_L (++)).
Qed.

Lemma accept_then_close_witness :
  let w := sample_world [] [] 0 false in
  let r := Some (fresh (dom (consumers w))) in
  ∃ id w1 w2,
    socket_poll POLLIN 7 (mkSocket [] [] [] []) true true w
      = Some (POLLER_OK, w1) ∧
    clients w1 = clients w ++ [malloc w] ∧
    heap w1 !! malloc w = Some (mkClient (Some id) r 7 false) ∧
    pollers w1 !! id = Some (mkPoller 7 POLLIN None (Some (malloc w))) ∧
    client_close (malloc w) w1 = Some w2 ∧
    heap w2 = heap w ∧ clients w2 = clients w ∧ pollers w2 = pollers w ∧
    consumers w2 = consumers w ∧ socks w2 = socks w ∧ con w2 = con w ∧
    trace w2 = trace w ++
      [EvClose 7; EvPollerUnregister id] ++
      from_option (λ r0, [EvConsumerUnregister r0]) [] r ++
      [EvFree (malloc w)].
Proof.
  intros w.
  apply (accept_then_close POLLIN 7 (mkSocket [] [] [] []) true w);
    try reflexivity; try (vm_compute; discriminate).
  apply sample_world_set_inv.
Defined.

Lemma attach_then_close_witness :
  let w := sample_world [] [] 0 false in
  ∃ id w1 w2,
    dbus_create_socket_consumer
      (SocketpairFds 6 7 (mkSocket [] [] [] []) (mkSocket [] [] [] []))
      true true w = (7, w1) ∧
    pollers w1 !! id = Some (mkPoller 6 POLLIN None (Some (malloc w))) ∧
    client_close (malloc w) w1 = Some w2 ∧
    heap w2 = heap w ∧ clients w2 = clients w ∧ pollers w2 = pollers w ∧
    consumers w2 = consumers w ∧ con w2 = con w ∧
    socks w2 = <[7 := mkSocket [] [] [] []]> (socks w) ∧
    trace w2 = trace w ++
      [EvClose 6; EvPollerUnregister id;
       EvConsumerUnregister (fresh (dom (consumers w))); EvFree (malloc w)].
Proof.
  intros w.
  apply (attach_then_close 6 7 (mkSocket [] [] [] []) (mkSocket [] [] [] []) w);
    try reflexivity; try (vm_compute; discriminate).
  apply sample_world_set_inv.
Defined.

Lemma attach_failure_leaves_poller_witness :
  let w := sample_world [] [] 0 false in
  let w' := snd (dbus_create_socket_consumer
                   (SocketpairFds 6 7 (mkSocket [] [] [] [])
                      (mkSocket [] [] [] [])) true false w) in
  ∃ id,
    pollers w !! id = None ∧
    pollers w' = <[id := mkPoller 6 POLLIN None (Some (malloc w))]> (pollers w) ∧
    heap w' !! malloc w = None ∧
    socks w' !! 6 = None ∧
    trace w' = trace w ++ [EvFree (malloc w); EvClose 6; EvClose 7].
Proof.
  intros w.
  apply (attach_failure_leaves_poller 6 7 (mkSocket [] [] [] [])
           (mkSocket [] [] [] []) w).
  reflexivity.
Defined.

Lemma client_index_split (cs : list nat) p :
  p ∈ cs →
  ∃ l1 l2, cs = l1 ++ p :: l2 ∧ (p ∉ l1) ∧
    ∀ i, client_index cs p i = (i + length l1)%nat.
Proof.
  induction cs as [|q cs IH]; intros Hin; [by apply elem_of_nil in Hin|].
  destruct (decide (q = p)) as [->|Hne].
  - exists [], cs. split; [done|]. split; [apply not_elem_of_nil|].
    intros i. simpl. rewrite decide_True by done. lia.
  - apply elem_of_cons in Hin as [?|Hin]; [done|].
    destruct (IH Hin) as (l1 & l2 & -> & Hnot & Hidx).
    exists (q :: l1), l2. split; [done|]. split.
    + apply not_elem_of_cons. split; [done|done].
    + intros i. simpl. rewrite decide_False by done. rewrite Hidx. lia.
Qed.

(** [client_close] takes the client out of the set where it first
    occurs and keeps the others in their order. *)
Theorem client_close_keeps_order (p : nat) (w : world) (c : client) :
  heap w !! p = Some c → p ∈ clients w →
  ∃ w' l1 l2,
    client_close p w = Some w' ∧
    clients w = l1 ++ p :: l2 ∧ (p ∉ l1) ∧ clients w' = l1 ++ l2.
Proof.
  intros Hc Hin.
  destruct (client_close_in p w c Hc Hin)
    as (w' & Hrun & _ & _ & _ & _ & _ & Hcl & _).
  destruct (client_index_split (clients w) p Hin) as (l1 & l2 & Heq & Hnot & Hidx).
  exists w', l1, l2. split; [done|]. split; [done|]. split; [done|].
  rewrite Hcl, Hidx, Heq. simpl. apply delete_middle.
Qed.

Lemma client_close_keeps_order_witness :
  ∃ w' l1 l2,
    client_close 0 (two_clients [] []) = Some w' ∧
    clients (two_clients [] []) = l1 ++ 0%nat :: l2 ∧ (0%nat ∉ l1) ∧
    clients w' = l1 ++ l2.
Proof.
  apply (client_close_keeps_order 0 (two_clients [] [])
           (mkClient (Some 0%nat) (Some 0%nat) 5 false)).
  - reflexivity.
  - apply list_elem_of_here.
Defined.

(** * The listening socket *)

Section listener_facts.
Implicit Types (w : world) (c : client) (l : listener).

Lemma set_inv_no_clients w p c :
  set_inv w → clients w = [] → heap w !! p = Some c → False.
Proof.
  intros [_ Hinv] Hcl Hc.
  assert (p ∈ clients w) as Hin by (apply Hinv; by eexists).
  rewrite Hcl in Hin. by apply elem_of_nil in Hin.
Qed.

(** What the loop of [socket_fini] leaves of the handles of the clients
    it closes. *)
Lemma socket_fini_loop_releases n : ∀ w w',
  set_inv w → socket_fini_loop n w = Some w' →
  pollers w' ⊆ pollers w ∧ consumers w' ⊆ consumers w ∧
  socks w' ⊆ socks w ∧ con w' = con w ∧
  ∀ p c, heap w !! p = Some c →
    (∀ id, c_poller c = Some id → pollers w' !! id = None) ∧
    (∀ r, c_rbc c = Some r → consumers w' !! r = None) ∧
    socks w' !! c_fd c = None.
Proof.
  induction n as [|n IH]; intros w w' Hinv; simpl;
    destruct (clients w) as [|p rest] eqn:Hcl; try done;
    try (intros [= <-]; split_and!; try done;
         intros q c Hq; by destruct (set_inv_no_clients w q c)).
  assert (p ∈ clients w) as Hin by (rewrite Hcl; apply list_elem_of_here).
  destruct (proj1 (proj2 Hinv p) Hin) as [c Hc].
  destruct (client_close_in p w c Hc Hin)
    as (w1 & Hrun & _ & Hs & Hp & Hcs & Hh & Hcl1 & Hcon & _).
  rewrite Hrun. cbn [mbind option_bind]. intros Hloop.
  assert (set_inv w1) as Hinv1 by (by eapply set_inv_close).
  destruct (IH w1 w' Hinv1 Hloop) as (Hp' & Hcs' & Hs' & Hcon' & Hrel).
  assert (pollers w1 ⊆ pollers w) as Hp1
    by (rewrite Hp; destruct (c_poller c); [apply delete_subseteq|done]).
  assert (consumers w1 ⊆ consumers w) as Hcs1
    by (rewrite Hcs; destruct (c_rbc c); [apply delete_subseteq|done]).
  assert (socks w1 ⊆ socks w) as Hs1 by (rewrite Hs; apply delete_subseteq).
  split; [by etransitivity|]. split; [by etransitivity|].
  split; [by etransitivity|]. split; [congruence|].
  intros q c' Hq. destruct (decide (q = p)) as [->|Hne].
  - rewrite Hc in Hq. injection Hq as <-. split; [|split].
    + intros id Hid. eapply lookup_weaken_None; [|done].
      rewrite Hp, Hid. apply lookup_delete_eq.
    + intros r Hr. eapply lookup_weaken_None; [|done].
      rewrite Hcs, Hr. apply lookup_delete_eq.
    + eapply lookup_weaken_None; [|done]. rewrite Hs. apply lookup_delete_eq.
  - apply (Hrel q c'). by rewrite Hh, lookup_delete_ne.
Qed.
End listener_facts.

(** [socket_fini] tears everything down.  When the set holds every
    allocated client once, it closes each of them, in the order of the
    set and with the releases of [client_close], then unregisters the
    poller of the listening socket if there is one, then closes the
    listening descriptor.  Afterwards no client is allocated, and no
    poller, consumer or descriptor of a client, nor the listener's, is
    left; nothing else is touched. *)
Theorem socket_fini_tears_down (l : listener) (w : world) :
  set_inv w →
  ∃ w', socket_fini l w = Some w' ∧
    clients w' = [] ∧ heap w' = ∅ ∧
    trace w' = trace w ++
      (p ← clients w; from_option (close_events p) [] (heap w !! p)) ++
      from_option (λ id, [EvPollerUnregister id]) [] (sh_poller l) ++
      [EvClose (sh_sd l)] ∧
    socks w' !! sh_sd l = None ∧
    (∀ id, sh_poller l = Some id → pollers w' !! id = None) ∧
    (∀ p c, heap w !! p = Some c →
       (∀ id, c_poller c = Some id → pollers w' !! id = None) ∧
       (∀ r, c_rbc c = Some r → consumers w' !! r = None) ∧
       socks w' !! c_fd c = None) ∧
    pollers w' ⊆ pollers w ∧ consumers w' ⊆ consumers w ∧
    socks w' ⊆ socks w ∧ con w' = con w.
Proof.
  intros Hinv. unfold socket_fini.
  destruct (socket_fini_closes_every_client (length (clients w)) w Hinv eq_refl)
    as (w1 & Hloop & Hcl & Hh & Ht).
  destruct (socket_fini_loop_releases _ w w1 Hinv Hloop)
    as (Hp & Hcs & Hs & Hcon & Hrel).
  rewrite Hloop. cbn [mbind option_bind].
  eexists. split; [done|].
  assert (∀ w2, pollers (match sh_poller l with
                         | Some id => console_poller_unregister id w2
                         | None => w2 end) ⊆ pollers w2) as Hsub.
  { intros w2. destruct (sh_poller l); simpl; [apply delete_subseteq|done]. }
  destruct (sh_poller l) as [id|] eqn:Hl; simpl.
  - rewrite Hcl, Hh, Ht. split; [done|]. split; [done|].
    split; [by rewrite <- !(assoc_L (++))|].
    split; [apply lookup_delete_eq|].
    split; [intros ? [= <-]; apply lookup_delete_eq|].
    split.
    { intros p c Hc. destruct (Hrel p c Hc) as (H1 & H2 & H3).
      split; [|split]; [|done|].
      - intros id' Hid'. eapply lookup_weaken_None; [by apply H1|].
        apply delete_subseteq.
      - eapply lookup_weaken_None; [done|]. apply delete_subseteq. }
    split; [etransitivity; [apply delete_subseteq|done]|].
    split; [done|].
    split; [etransitivity; [apply delete_subseteq|done]|done].
  - rewrite Hcl, Hh, Ht. split; [done|]. split; [done|].
    split; [by rewrite <- !(assoc_L (++))|].
    split; [apply lookup_delete_eq|].
    split; [done|].
    split.
    { intros p c Hc. destruct (Hrel p c Hc) as (H1 & H2 & H3).
      split; [done|]. split; [done|].
      eapply lookup_weaken_None; [done|]. apply delete_subseteq. }
    split; [done|]. split; [done|].
    split; [etransitivity; [apply delete_subseteq|done]|done].
Qed.

(** [socket_init] succeeds or cleans up.  It returns 0 or -1, always
    with an empty client set.  It returns 0 exactly when the socket path
    is valid and either systemd has passed the listening socket or
    [socket], [bind] and [listen] all succeed; then one poller for
    [POLLIN] on the listening descriptor is registered, with no [data],
    and held by the handler.  When it returns -1 no poller is registered
    and the descriptor it may have created is closed again: no
    descriptor is open that was not open before.  A socket passed by
    systemd is never closed. *)
Theorem socket_init_outcomes (env : init_env) (l : listener) (w : world) :
  let rc := (socket_init env l w).1.1 in
  let l' := (socket_init env l w).1.2 in
  let w' := (socket_init env l w).2 in
  let systemd := (listen_fds env =? 1) && (0 <? is_socket_unix env) in
  (rc = 0 ∨ rc = -1) ∧
  clients w' = [] ∧ heap w' = heap w ∧ consumers w' = consumers w ∧
  con w' = con w ∧
  (rc = 0 ↔
   0 ≤ path_len env ∧
   (systemd = true ∨
    (0 ≤ socket_fd env ∧ bind_rc env = 0 ∧ listen_rc env = 0))) ∧
  (rc = 0 →
     sh_sd l' = (if systemd then SD_LISTEN_FDS_START else socket_fd env) ∧
     trace w' = trace w ∧
     ∃ id, sh_poller l' = Some id ∧ pollers w !! id = None ∧
           pollers w' =
             <[id := mkPoller (sh_sd l') POLLIN None None]> (pollers w)) ∧
  (rc = -1 →
     sh_poller l' = sh_poller l ∧ pollers w' = pollers w ∧
     socks w' ⊆ socks w ∧
     (socks w' = socks w ∨ socks w' !! socket_fd env = None)) ∧
  (0 ≤ path_len env → systemd = true → rc = 0 ∧ socks w' = socks w).
Proof.
  unfold socket_init, console_poller_register_null.
  destruct (Z.ltb_spec (path_len env) 0) as [Hpath|Hpath].
  { simpl. split; [by right|]. do 4 (split; [done|]).
    split; [split; [done|lia]|]. split; [done|].
    split; [|lia]. intros _. do 3 (split; [done|]). by left. }
  destruct ((listen_fds env =? 1) && (0 <? is_socket_unix env)) eqn:Hsd.
  { simpl. split; [by left|]. do 4 (split; [done|]).
    split; [split; [intros _; split; [lia|by left]|done]|].
    split; [|done]. intros _. do 2 (split; [done|]).
    eexists. split; [done|]. split; [|done].
    apply not_elem_of_dom, is_fresh. }
  destruct (Z.ltb_spec (socket_fd env) 0) as [Hfd|Hfd].
  { simpl. split; [by right|]. do 4 (split; [done|]).
    split; [split; [done|intros [_ [?|[? _]]]; [done|lia]]|].
    split; [done|]. split; [|done].
    intros _. do 3 (split; [done|]). by left. }
  assert (∀ rc0 : Z, ∀ l0 : listener, sh_poller l0 = sh_poller l →
    let r := (rc0, l0,
              close (socket_fd env)
                (set_socks (<[socket_fd env := mkSocket [] [] [] []]>
                              (socks (set_clients [] w))) (set_clients [] w))) in
    pollers r.2 = pollers w ∧ socks r.2 ⊆ socks w ∧
    (socks r.2 = socks w ∨ socks r.2 !! socket_fd env = None)) as Hclean.
  { intros rc0 l0 Hl0. simpl. split; [done|]. split.
    - rewrite delete_insert_eq. apply delete_subseteq.
    - right. apply lookup_delete_eq. }
  destruct (Z.eqb_spec (bind_rc env) 0) as [Hbind|Hbind]; cbn [negb].
  2:{ destruct (Hclean (-1) (mkListener (sh_poller l) (socket_fd env)) eq_refl)
        as (H1 & H2 & H3).
      simpl in *. split; [by right|]. do 4 (split; [done|]).
      split; [split; [done|intros [_ [?|(_ & ? & _)]]; done]|].
      split; [done|]. split; [|done]. intros _. done. }
  destruct (Z.eqb_spec (listen_rc env) 0) as [Hlisten|Hlisten]; cbn [negb].
  2:{ destruct (Hclean (-1) (mkListener (sh_poller l) (socket_fd env)) eq_refl)
        as (H1 & H2 & H3).
      simpl in *. split; [by right|]. do 4 (split; [done|]).
      split; [split; [done|intros [_ [?|(_ & _ & ?)]]; done]|].
      split; [done|]. split; [|done]. intros _. done. }
  simpl. split; [by left|]. do 4 (split; [done|]).
  split; [split; [intros _; split; [lia|by right]|done]|].
  split; [|done]. intros _. do 2 (split; [done|]).
  eexists. split; [done|]. split; [|done].
  apply not_elem_of_dom, is_fresh.
Qed.

(** A handler that was initialised and has no client is taken down by
    [socket_fini] to where it started: the pollers are those from before
    [socket_init], and the listening descriptor is closed. *)
Theorem socket_init_then_fini (env : init_env) (l : listener) (w : world) :
  (socket_init env l w).1.1 = 0 →
  let l' := (socket_init env l w).1.2 in
  let w' := (socket_init env l w).2 in
  ∃ id w'',
    sh_poller l' = Some id ∧
    socket_fini l' w' = Some w'' ∧
    pollers w'' = pollers w ∧ clients w'' = [] ∧
    socks w'' !! sh_sd l' = None ∧
    trace w'' = trace w ++ [EvPollerUnregister id; EvClose (sh_sd l')].
Proof.
  unfold socket_init, console_poller_register_null, socket_fini.
  destruct (Z.ltb_spec (path_len env) 0) as [Hpath|Hpath]; [done|].
  assert (∀ m : gmap nat poller, ∀ po,
            delete (fresh (dom m)) (<[fresh (dom m) := po]> m) = m) as Hdel.
  { intros m po. apply delete_insert_id, not_elem_of_dom, is_fresh. }
  destruct ((listen_fds env =? 1) && (0 <? is_socket_unix env)) eqn:Hsd.
  { simpl. intros _. eexists _, _. split; [done|]. split; [done|]. simpl.
    split; [apply Hdel|]. split; [done|].
    split; [apply lookup_delete_eq|by rewrite <- (assoc_L (++))]. }
  destruct (Z.ltb_spec (socket_fd env) 0) as [Hfd|Hfd]; [done|].
  destruct (Z.eqb_spec (bind_rc env) 0) as [Hbind|Hbind]; cbn [negb]; [|done].
  destruct (Z.eqb_spec (listen_rc env) 0) as [Hlisten|Hlisten]; cbn [negb];
    [|done].
  simpl. intros _. eexists _, _. split; [done|]. split; [done|]. simpl.
  split; [apply Hdel|]. split; [done|].
  split; [apply lookup_delete_eq|by rewrite <- (assoc_L (++))].
Qed.

Lemma socket_fini_tears_down_witness :
  let w := sample_world [] [97] 0 false in
  ∃ w', socket_fini (mkListener (Some 1%nat) 4) w = Some w' ∧
    clients w' = [] ∧ heap w' = ∅ ∧
    trace w' = trace w ++
      (p ← clients w; from_option (close_events p) [] (heap w !! p)) ++
      from_option (λ id, [EvPollerUnregister id]) [] (Some 1%nat) ++
      [EvClose 4].
Proof.
  intros w.
  destruct (socket_fini_tears_down (mkListener (Some 1%nat) 4) w
              (sample_world_set_inv [] [97] 0 false))
    as (w' & H1 & H2 & H3 & H4 & _).
  by exists w'.
Defined.

Lemma socket_init_then_fini_witness :
  let env := mkInitEnv 20 0 0 4 0 0 in
  let l := mkListener None 0 in
  let w := mkWorld (mkConsole escape_idle []) ["socket"%string] ∅ ∅ ∅ ∅ [] [] in
  let l' := (socket_init env l w).1.2 in
  let w' := (socket_init env l w).2 in
  ∃ id w'',
    sh_poller l' = Some id ∧
    socket_fini l' w' = Some w'' ∧
    pollers w'' = pollers w ∧ clients w'' = [] ∧
    socks w'' !! sh_sd l' = None ∧
    trace w'' = trace w ++ [EvPollerUnregister id; EvClose (sh_sd l')].
Proof.
  intros env l w.
  apply (socket_init_then_fini env l w). reflexivity.
Defined.

(** * Sending *)

(** What [send_all] writes.  A length above [SSIZE_MAX] is refused with
    [-EINVAL] before any [send] and before the client is looked at,
    whatever the buffer and the state of the client are.  Otherwise, for
    a length within the buffer and when no [send] is interrupted: a
    non-negative result [ret] means that exactly the first [ret] bytes of
    the buffer have been written, in order, however the kernel split them
    into partial writes; the client is marked blocked exactly when the
    mode is non-blocking and the result falls short of [len], so a
    blocking [send_all] that does not fail has written everything; every
    [send] carries [MSG_NOSIGNAL], and [MSG_DONTWAIT] in non-blocking
    mode only; and nothing is taken from what the client has sent. *)
Theorem send_all_writes_prefix (p id : nat) (buf : list Z) (len : Z)
    (block : bool) (c : client) (po : poller) (sk : socket) (w : world) :
  (SSIZE_MAX < len → send_all p buf len block w = Some (- EINVAL, w)) ∧
  (heap w !! p = Some c → c_poller c = Some id → pollers w !! id = Some po →
   socks w !! c_fd c = Some sk → 0 ≤ len ≤ Z.of_nat (length buf) →
   ∃ ret b sk',
     send_all p buf len block w =
     Some (ret, conn p (client_after b c) id (poller_after b c po) (c_fd c) sk' w) ∧
     (SSIZE_MAX < len → ret = - EINVAL ∧ b = false ∧ sk' = sk) ∧
     (∃ k, sk_flags sk' = sk_flags sk ++ replicate k (send_flags block)) ∧
     sk_inbox sk' = sk_inbox sk ∧
     (no_eintr (sk_script sk) →
        (ret < 0 ∨ 0 ≤ ret ≤ len) ∧
        (0 ≤ ret → sk_wire sk' = sk_wire sk ++ take (Z.to_nat ret) buf) ∧
        (b = true ↔ block = false ∧ 0 ≤ ret < len) ∧
        (block = true → 0 ≤ ret → ret = len) ∧
        (sk_script sk = [] → len ≤ SSIZE_MAX → ret = len ∧ b = false))).
Proof.
  split.
  { intros Hbig. unfold send_all.
    by destruct (Z.ltb_spec SSIZE_MAX len) as [_|?]; [|lia]. }
  intros Hc Hid Hpo Hsk Hlen.
  destruct (send_all_sent_all p id (c_fd c) buf len block c po sk w)
    as (ret & b & sk' & Hrun & Hsent); try done.
  rewrite (conn_id p id (c_fd c) c po sk w) in Hrun by done.
  exists ret, b, sk'. split; [done|].
  destruct Hsent as (Hret & Hbig & Hb & Hflags & Hinbox & _ & Hwire).
  split; [done|]. split; [done|]. split; [done|].
  intros Hno. destruct (Hwire Hno) as (Hw1 & Hw2 & Hw3).
  split; [done|]. split; [done|]. split; [|split; [|done]].
  - split; [done|]. intros [_ ?]. by apply Hw2.
  - intros -> Hpos. destruct (decide (ret < len)) as [Hlt|]; [|lia].
    destruct (Hb (Hw2 (conj Hpos Hlt))). done.
Qed.

Lemma send_all_writes_prefix_witness :
  let w := sample_world [SendAccept 2; SendErrno EAGAIN] [] 0 false in
  let c := mkClient (Some 0%nat) (Some 0%nat) 5 false in
  let po := mkPoller 5 POLLIN None (Some 0%nat) in
  send_all 7 [] (SSIZE_MAX + 1) true w = Some (- EINVAL, w) ∧
  ∃ ret b sk',
    send_all 0 [97; 98; 99] 3 false w =
    Some (ret, conn 0 (client_after b c) 0 (poller_after b c po) 5 sk' w).
Proof.
  intros w c po. split.
  - apply (proj1 (send_all_writes_prefix 7 0 [] (SSIZE_MAX + 1) true c po
                    (mkSocket [] [] [] []) w)).
    lia.
  - destruct (proj2 (send_all_writes_prefix 0 0 [97; 98; 99] 3 false c po
                       (mkSocket [SendAccept 2; SendErrno EAGAIN] [] [] []) w))
      as (ret & b & sk' & Hrun & _); try reflexivity.
    + simpl. lia.
    + by exists ret, b, sk'.
Defined.

Lemma send_all_loop_failures_witness :
  let w := sample_world [] [] 0 false in
  let c := mkClient (Some 0%nat) (Some 0%nat) 5 false in
  let po := mkPoller 5 POLLIN None (Some 0%nat) in
  let sk := mkSocket [SendErrno EAGAIN] [97] [send_flags false] [] in
  send_all_loop 2 0 5 [97; 98] 2 false (send_flags false) 1 (conn 0 c 0 po 5 sk w)
  = Some (1, conn 0 (client_with_blocked true c) 0 (poller_after true c po) 5
               (mkSocket [] [97] [send_flags false; send_flags false] []) w).
Proof.
  intros w c po sk.
  destruct (send_all_loop_failures 0 0 5 [97; 98] 2 false 1 1 sk c po w []
              eq_refl ltac:(by split) ltac:(vm_compute; discriminate)
              ltac:(vm_compute; discriminate))
    as [H _].
  destruct (H EAGAIN eq_refl) as [H1 _].
  apply H1; [reflexivity|by left].
Defined.
(** * The blocked client *)

Section writability.
Context (p id r : nat) (w : world) (c : client) (po : poller)
  (rb : consumer) (sk : socket).
Hypothesis Hc : heap w !! p = Some c.
Hypothesis Hid : c_poller c = Some id.
Hypothesis Hpo : pollers w !! id = Some po.
Hypothesis Hr : c_rbc c = Some r.
Hypothesis Hrb : consumers w !! r = Some rb.
Hypothesis Hsk : socks w !! c_fd c = Some sk.
Hypothesis Hin : p ∈ clients w.
Hypothesis Hnd : NoDup (clients w).
Hypothesis Hmax : Z.of_nat (length (rb_pending rb)) ≤ SIZE_MAX.

End writability.


